(** * YouTube playlist downloader: a shallow embedding of
    [playlist_downloader.py] and the properties of its extraction and
    batch-download pipeline.

    Python strings are sequences of Unicode code points; they are modelled as
    lists of [N].  Python integers are unbounded; counters and lengths, which
    never go below zero, are [nat], configuration numbers are [Z]. *)

From Stdlib Require Import String Ascii.
From stdpp Require Import base tactics option list numbers gmap.

Local Open Scope N_scope.
Local Open Scope nat_scope.

(** ** Strings *)

Abbreviation pystr := (list N).

(** A literal of the source (the literals used are all ASCII), as code
    points. *)
Definition py (s : string) : pystr := N_of_ascii <$> list_ascii_of_string s.

(** [str.isspace] on one code point; the same predicate decides [\s] in a
    [re] pattern over [str] and what [str.strip()] removes. *)
Definition is_space (c : N) : bool :=
  ((9 <=? c) && (c <=? 13) || (28 <=? c) && (c <=? 32) || (c =? 133)
   || (c =? 160) || (c =? 5760) || (8192 <=? c) && (c <=? 8202)
   || (c =? 8232) || (c =? 8233) || (c =? 8239) || (c =? 8287)
   || (c =? 12288))%N.

Definition SPACE : N := 32%N.

(** The nine characters of the class in the first [re.sub]: backslash,
    slash, colon, star, question mark, double quote, less-than, greater-than
    and bar. *)
Definition invalid_chars : pystr :=
  [92; 47; 58; 42; 63; 34; 60; 62; 124]%N.

Definition is_invalid (c : N) : bool := bool_decide (c ∈ invalid_chars).

(** The first [re.sub]: every character of the class is deleted. *)
Definition remove_invalid (filename : pystr) : pystr :=
  filter (fun c => is_invalid c = false) filename.

(** [re.sub(r'\s+', ' ', s)]: every maximal run of whitespace becomes one
    space.  [in_run] tells that the previous character was whitespace. *)
Fixpoint collapse_ws (in_run : bool) (s : pystr) : pystr :=
  match s with
  | [] => []
  | c :: s' =>
      if is_space c
      then (if in_run then collapse_ws true s' else SPACE :: collapse_ws true s')
      else c :: collapse_ws false s'
  end.

Fixpoint lstrip (s : pystr) : pystr :=
  match s with
  | [] => []
  | c :: s' => if is_space c then lstrip s' else s
  end.

Definition rstrip (s : pystr) : pystr := reverse (lstrip (reverse s)).

(** [s.strip()] *)
Definition strip (s : pystr) : pystr := rstrip (lstrip s).

(** [sanitize_filename]: delete the invalid characters, collapse
    whitespace, [strip()], then keep the first 255 characters
    ([sanitized[:255]]). *)
Definition sanitize_filename (filename : pystr) : pystr :=
  let sanitized := remove_invalid filename in
  let sanitized := strip (collapse_ws false sanitized) in
  take 255 sanitized.

(** Whitespace in [s] occurs only as single spaces; [after_ws] tells that
    the character before [s] was whitespace.  This is what the second
    [re.sub] establishes. *)
Fixpoint collapsed (after_ws : bool) (s : pystr) : Prop :=
  match s with
  | [] => True
  | c :: s' =>
      if is_space c then after_ws = false ∧ c = SPACE ∧ collapsed true s'
      else collapsed false s'
  end.

(** [needle in haystack] for strings. *)
Fixpoint starts_with (needle s : pystr) : bool :=
  match needle, s with
  | [], _ => true
  | _ :: _, [] => false
  | a :: needle', b :: s' => bool_decide (a = b) && starts_with needle' s'
  end.

Fixpoint contains (needle s : pystr) : bool :=
  starts_with needle s ||
  match s with
  | [] => false
  | _ :: s' => contains needle s'
  end.

(** [href.split('&')[0]]: the part before the first ampersand (the whole
    string when there is none). *)
Fixpoint before_amp (s : pystr) : pystr :=
  match s with
  | [] => []
  | c :: s' => if bool_decide (c = 38%N) then [] else c :: before_amp s'
  end.

(** ** Shell-style patterns

    [Path.glob] compiles each pattern component with [fnmatch.translate] and
    keeps the directory entries whose whole name matches (case-sensitively on
    POSIX).  The pattern language: a star matches any run of characters, a
    question mark any single character, [[seq]] any character in [seq],
    [[!seq]] any character not in [seq]; inside the brackets [a-b] is a range,
    a closing bracket in first position is a member, and a bracket that is
    never closed stands for itself. *)

Definition STAR : N := 42%N.
Definition QMARK : N := 63%N.
Definition LBRACKET : N := 91%N.
Definition RBRACKET : N := 93%N.
Definition BANG : N := 33%N.
Definition HYPHEN : N := 45%N.
Definition DOT : N := 46%N.

(** Splits [s] at its first closing bracket. *)
Fixpoint until_rbracket (s : pystr) : option (pystr * pystr) :=
  match s with
  | [] => None
  | c :: s' =>
      if bool_decide (c = RBRACKET) then Some ([], s')
      else '(stuff, rest) ← until_rbracket s'; Some (c :: stuff, rest)
  end.

(** The text after an opening bracket: negation flag, members, and what
    follows the closing bracket; [None] when the bracket is never closed. *)
Definition split_class (s : pystr) : option (bool * pystr * pystr) :=
  let '(neg, s1) :=
    match s with
    | c :: s' => if bool_decide (c = BANG) then (true, s') else (false, s)
    | [] => (false, s)
    end in
  match s1 with
  | c :: s2 =>
      if bool_decide (c = RBRACKET)
      then '(stuff, rest) ← until_rbracket s2; Some (neg, c :: stuff, rest)
      else '(stuff, rest) ← until_rbracket s1; Some (neg, stuff, rest)
  | [] => None
  end.

(** Membership of [c] in the members [stuff] of a class: [x-y] with both ends
    present is the range from [x] to [y] (empty when [x] is above [y]), any
    other character stands for itself. *)
Fixpoint in_class (fuel : nat) (c : N) (stuff : pystr) : bool :=
  match fuel with
  | O => false
  | S fuel' =>
      match stuff with
      | x :: h :: y :: stuff' =>
          if bool_decide (h = HYPHEN)
          then ((x <=? c) && (c <=? y))%N || in_class fuel' c stuff'
          else bool_decide (c = x) || in_class fuel' c (h :: y :: stuff')
      | x :: stuff' => bool_decide (c = x) || in_class fuel' c stuff'
      | [] => false
      end
  end.

Definition class_matches (neg : bool) (stuff : pystr) (c : N) : bool :=
  xorb neg (in_class (length stuff) c stuff).

(** Does the whole of [name] match [pat]?  [fuel] bounds the number of
    pattern characters consumed. *)
Fixpoint fnmatch_aux (fuel : nat) (pat name : pystr) : bool :=
  match fuel with
  | O => false
  | S fuel' =>
      match pat with
      | [] => bool_decide (name = [])
      | p :: pat' =>
          if bool_decide (p = STAR) then
            (fix star (name : pystr) : bool :=
               fnmatch_aux fuel' pat' name ||
               match name with
               | [] => false
               | _ :: name' => star name'
               end) name
          else if bool_decide (p = QMARK) then
            match name with
            | [] => false
            | _ :: name' => fnmatch_aux fuel' pat' name'
            end
          else if bool_decide (p = LBRACKET) then
            match split_class pat' with
            | Some (neg, stuff, rest) =>
                match name with
                | [] => false
                | c :: name' =>
                    class_matches neg stuff c && fnmatch_aux fuel' rest name'
                end
            | None =>
                match name with
                | [] => false
                | c :: name' =>
                    bool_decide (c = LBRACKET) && fnmatch_aux fuel' pat' name'
                end
            end
          else
            match name with
            | [] => false
            | c :: name' => bool_decide (c = p) && fnmatch_aux fuel' pat' name'
            end
      end
  end.

Definition fnmatch (pat name : pystr) : bool :=
  fnmatch_aux (S (length pat)) pat name.

(** No character of [s] is special in a pattern. *)
Definition plain (s : pystr) : Prop :=
  (STAR ∉ s) ∧ (QMARK ∉ s) ∧ (LBRACKET ∉ s).

(** ** Paths

    A [pathlib.Path] is its list of components. *)

Abbreviation Path := (list pystr).

(** [folder / name]: an empty or single-dot component is dropped. *)
Definition path_div (folder : Path) (name : pystr) : Path :=
  if bool_decide (name = []) || bool_decide (name = [DOT]) then folder
  else folder ++ [name].

(** [str(path)] *)
Fixpoint path_str (p : Path) : pystr :=
  match p with
  | [] => [DOT]
  | [c] => c
  | c :: p' => c ++ 47%N :: path_str p'
  end.

(** ** Data classes *)

Module VideoInfo.
Record t := mk {
  title : pystr;
  url : pystr;
  playlist_index : nat;
  upload_info : option pystr;
  download_index : option nat
}.

Definition set_download_index (i : nat) (v : t) : t :=
  mk (title v) (url v) (playlist_index v) (upload_info v) (Some i).
End VideoInfo.

Module PlaylistInfo.
Record t := mk {
  title : pystr;
  channel : pystr;
  url : pystr;
  total_videos : nat
}.
End PlaylistInfo.

Module DownloadResult.
Record t := mk {
  success : bool;
  skipped : bool;
  title : pystr;
  error : option pystr
}.
End DownloadResult.

(** The options dictionary of [download_playlist] and
    [download_multiple_playlists], every recognised key present. *)
Record Config := {
  max_retries : Z;
  delay_between_downloads : Z;
  delay_between_playlists : Z;
  continue_on_error : bool;
  continue_on_playlist_error : bool;
  headless : bool;
  max_videos : option Z;
  create_playlist_folder : bool;
  sort_order : pystr
}.

Definition default_config : Config := {|
  max_retries := 3;
  delay_between_downloads := 3000;
  delay_between_playlists := 5000;
  continue_on_error := true;
  continue_on_playlist_error := true;
  headless := true;
  max_videos := None;
  create_playlist_folder := true;
  sort_order := py "playlist"
|}.

(** The record written to [playlist_info.json]. *)
Module Metadata.
Record video := mk_video {
  v_title : pystr;
  v_url : pystr;
  v_playlist_index : nat;
  v_upload_info : option pystr
}.
Record t := mk {
  title : pystr;
  channel : pystr;
  url : pystr;
  total_videos : nat;
  extracted_at : pystr;
  videos : list video;
  sort_order : pystr
}.
End Metadata.

(** The dictionary returned by [download_playlist]. *)
Module Summary.
Record t := mk {
  playlist_info : PlaylistInfo.t;
  success_count : nat;
  skipped_count : nat;
  fail_count : nat;
  total_videos : nat;
  playlist_folder : pystr;
  sort_order : pystr
}.
End Summary.

(** One entry of the [results] list of [download_multiple_playlists]: the
    dictionary of the [if result:] branch or the [error_result] of the
    [except] branch (whose [playlist_info] is [None]). *)
Inductive BatchEntry :=
| EntryOk (url : pystr) (playlist_info : PlaylistInfo.t)
          (success_count skipped_count fail_count total_videos : nat)
          (playlist_folder : pystr)
| EntryError (url : pystr) (error : pystr).

Definition entry_success (e : BatchEntry) : bool :=
  match e with EntryOk _ _ _ _ _ _ _ => true | EntryError _ _ => false end.

Definition entry_url (e : BatchEntry) : pystr :=
  match e with EntryOk u _ _ _ _ _ _ => u | EntryError u _ => u end.

(** A success entry whose playlist information counts no videos. *)
Definition entry_counts_none (e : BatchEntry) : Prop :=
  match e with
  | EntryOk _ playlist_info _ _ _ _ _ => PlaylistInfo.total_videos playlist_info = 0
  | EntryError _ _ => False
  end.

(** The dictionary returned by [download_multiple_playlists]. *)
Record BatchSummary := {
  total_playlists : nat;
  successful_playlists : nat;
  failed_playlists : nat;
  total_videos_downloaded : nat;
  total_videos_skipped : nat;
  total_videos_failed : nat;
  results : list BatchEntry
}.

(** ** The outside world

    What one rendered [ytd-playlist-video-renderer] element answers:
    - [video_title_link]: [None] when looking up [a#video-title] raises,
      else its [href] attribute (possibly absent) and its text;
    - [metadata_spans]: the texts of the spans under [#metadata], [None]
      when that lookup raises. *)
Record Element := {
  video_title_link : option (option pystr * pystr);
  metadata_spans : option (list pystr)
}.

Inductive result (A : Type) : Type :=
| Ok (a : A)
| Raise (msg : pystr).
Arguments Ok {A} a.
Arguments Raise {A} msg.

(** The collaborators of the pipeline.  [X] is the state of everything
    outside the process (the web, the disk, the clock); [D] is the state of
    one browser session.  A session that cannot be brought to show the
    playlist raises from [launch]; extraction persists nothing, so this is
    the only way its failure is seen from outside. *)
Record Capabilities := {
  X : Type;
  D : Type;
  (** [webdriver.Chrome], [driver.get] and the wait for the first entry *)
  launch : pystr -> bool -> X -> result D * X;
  (** [window.scrollTo(0, document.body.scrollHeight)] and the pause *)
  scroll : D -> D;
  (** the alternative scroll of every fifth attempt *)
  alt_scroll : D -> D;
  (** [find_elements(By.CSS_SELECTOR, "ytd-playlist-video-renderer")] *)
  find_elements : D -> list Element;
  (** text of [find_element(By.CSS_SELECTOR, selector)], [None] if it raises *)
  find_text : D -> pystr -> option pystr;
  current_url : D -> pystr;
  (** [str.lower] *)
  lower : pystr -> pystr;
  (** [parse_qs(urlparse(u).query)]: first value of the [list] parameter *)
  list_param : pystr -> option pystr;
  (** [re.search] of the upload-recency pattern, ignoring case *)
  upload_re : pystr -> bool;
  (** names of the entries of a directory (none when it does not exist) *)
  listdir : X -> Path -> list pystr;
  (** [folder.mkdir(exist_ok=True)] *)
  mkdir : Path -> X -> result unit * X;
  (** [open(path, 'w')] and [json.dump] *)
  write_json : Path -> Metadata.t -> X -> result unit * X;
  (** [datetime.now().isoformat()] *)
  now_iso : X -> pystr;
  (** [YoutubeDL(opts).download([url])] with [outtmpl] the given path *)
  ydl_download : pystr -> Path -> X -> result unit * X;
  (** [asyncio.sleep], the argument in milliseconds *)
  sleep : Z -> X -> X;
  (** [cleanup_debug_files], which swallows its own errors *)
  cleanup_debug_files : X -> X
}.

(** Calls to the collaborators, in the order they are made. *)
Inductive Event :=
| EvLaunch (url : pystr) (headless : bool)
| EvMkdir (folder : Path)
| EvWriteJson (path : Path) (metadata : Metadata.t)
| EvDownload (url : pystr) (outtmpl : Path)
| EvSleep (ms : Z)
| EvCleanup.

(** The calls to the downloader among a list of calls. *)
Definition is_download (e : Event) : bool :=
  match e with EvDownload _ _ => true | _ => false end.

Definition download_calls (calls : list Event) : list Event :=
  filter (fun e => is_download e = true) calls.

(** ** The pipeline *)

Section Pipeline.

Variable caps : Capabilities.

(** The state threaded through the program: the outside world and the calls
    made so far. *)
Record World := {
  ext : X caps;
  trace : list Event
}.

(** Computations that may raise. *)
Definition M (A : Type) : Type := World -> result A * World.

Definition ret {A} (a : A) : M A := fun w => (Ok a, w).

Definition bind {A B} (m : M A) (k : A -> M B) : M B :=
  fun w =>
    match m w with
    | (Ok a, w') => k a w'
    | (Raise msg, w') => (Raise msg, w')
    end.

Notation "'let*' x ':=' m 'in' k" := (bind m (fun x => k))
  (at level 10, x pattern, m at level 100, k at level 200).

(** A collaborator call that may raise, logged. *)
Definition call {A} (e : Event) (f : X caps -> result A * X caps) : M A :=
  fun w =>
    let '(r, x) := f (ext w) in
    (r, {| ext := x; trace := trace w ++ [e] |}).

(** A collaborator call that cannot raise, logged. *)
Definition tell (e : Event) (f : X caps -> X caps) (w : World) : World :=
  {| ext := f (ext w); trace := trace w ++ [e] |}.

(** *** Discovery: the scroll loop of [extract_playlist_urls] *)

Record ScrollState := {
  previous_count : nat;
  current_count : nat;
  scroll_attempts : nat;
  no_change_count : nat
}.

Definition scroll_init : ScrollState :=
  {| previous_count := 0; current_count := 0;
     scroll_attempts := 0; no_change_count := 0 |}.

Definition max_scroll_attempts : nat := 100.
Definition max_no_change_attempts : nat := 10.

(** [max_videos and current_count >= max_videos]: [None] and [0] are both
    falsy. *)
Definition limit_reached (max_videos : option Z) (current_count : nat) : bool :=
  match max_videos with
  | Some m => negb (m =? 0)%Z && (m <=? Z.of_nat current_count)%Z
  | None => false
  end.

(** The loop condition, for an attempt cap and a stall cap. *)
Definition scroll_guard (cap stall : nat) (st : ScrollState) : bool :=
  (scroll_attempts st <? cap) && (no_change_count st <? stall).

(** One pass through the loop body; the boolean tells that [break] was
    executed. *)
Definition scroll_cycle (max_videos : option Z) (st : ScrollState) (d : D caps)
  : ScrollState * D caps * bool :=
  let previous := current_count st in
  let d1 := scroll caps d in
  let current := length (find_elements caps d1) in
  let attempts := scroll_attempts st + 1 in
  let no_change :=
    if current =? previous then no_change_count st + 1 else 0 in
  let st' := {| previous_count := previous; current_count := current;
                scroll_attempts := attempts; no_change_count := no_change |} in
  if limit_reached max_videos current then (st', d1, true)
  else if attempts mod 5 =? 0 then (st', alt_scroll caps d1, false)
  else (st', d1, false).

(** The [while] loop.  [fuel] bounds the passes; the attempt counter grows
    by one in each, so [cap] passes are always enough
    ([scroll_loop_fuel_enough]). *)
Fixpoint scroll_loop (cap stall : nat) (max_videos : option Z) (fuel : nat)
  (st : ScrollState) (d : D caps) : ScrollState * D caps :=
  match fuel with
  | O => (st, d)
  | S fuel' =>
      if scroll_guard cap stall st then
        let '(st', d', broke) := scroll_cycle max_videos st d in
        if broke then (st', d') else scroll_loop cap stall max_videos fuel' st' d'
      else (st, d)
  end.

(** The states after each pass of the loop, in order. *)
Fixpoint scroll_states (cap stall : nat) (max_videos : option Z) (fuel : nat)
  (st : ScrollState) (d : D caps) : list ScrollState :=
  match fuel with
  | O => []
  | S fuel' =>
      if scroll_guard cap stall st then
        let '(st', d', broke) := scroll_cycle max_videos st d in
        st' :: (if broke then []
                else scroll_states cap stall max_videos fuel' st' d')
      else []
  end.

Definition discover (max_videos : option Z) (d : D caps) : ScrollState * D caps :=
  scroll_loop max_scroll_attempts max_no_change_attempts max_videos
    max_scroll_attempts scroll_init d.

(** *** Discovery: reading the rendered entries *)

(** First span text, stripped, that the upload-recency pattern finds. *)
Fixpoint find_upload_info (spans : list pystr) : option pystr :=
  match spans with
  | [] => None
  | span :: spans' =>
      let text := strip span in
      if upload_re caps text then Some text else find_upload_info spans'
  end.

(** The body of the [for index, element in enumerate(video_elements)] loop:
    [None] when the entry is skipped ([continue], also from the [except]). *)
Definition extract_video (index : nat) (element : Element) : option VideoInfo.t :=
  match video_title_link element with
  | None => None
  | Some (None, _) => None
  | Some (Some href, text) =>
      if bool_decide (href = []) || negb (contains (py "/watch?v=") href) then None
      else
        let video_url := if contains [38%N] href then before_amp href else href in
        let title := strip text in
        let upload_info :=
          match metadata_spans element with
          | Some spans => find_upload_info spans
          | None => None
          end in
        Some (VideoInfo.mk title video_url (index + 1) upload_info None)
  end.

Definition extract_videos (video_elements : list Element) : list VideoInfo.t :=
  omap id (imap extract_video video_elements).

(** *** [_extract_playlist_metadata] *)

Definition title_selectors : list pystr :=
  [ py "h1.style-scope.ytd-playlist-header-renderer";
    py "h1.ytd-playlist-header-renderer";
    py "yt-formatted-string.style-scope.ytd-playlist-header-renderer";
    py "h1 yt-formatted-string";
    py "ytd-playlist-header-renderer #title";
    py "yt-formatted-string.title";
    py "h1";
    py ".title";
    py "yt-formatted-string#title" ].

Definition channel_selectors : list pystr :=
  [ py "ytd-video-owner-renderer a.yt-simple-endpoint yt-formatted-string";
    py "ytd-channel-name a yt-formatted-string";
    py ".ytd-channel-name a";
    py "ytd-playlist-header-renderer .owner-text a";
    py ".owner-text a" ].

Definition title_acceptable (text : pystr) : bool :=
  negb (bool_decide (text = [])) && (3 <? length text) && (length text <? 200)
  && negb (contains (py "youtube") (lower caps text))
  && negb (contains (py "subscribe") (lower caps text)).

Fixpoint first_title (d : D caps) (selectors : list pystr) : option pystr :=
  match selectors with
  | [] => None
  | selector :: selectors' =>
      match find_text caps d selector with
      | Some raw =>
          let text := strip raw in
          if title_acceptable text then Some text else first_title d selectors'
      | None => first_title d selectors'
      end
  end.

Fixpoint first_channel (d : D caps) (selectors : list pystr) : option pystr :=
  match selectors with
  | [] => None
  | selector :: selectors' =>
      match find_text caps d selector with
      | Some raw =>
          let channel := strip raw in
          if bool_decide (channel = []) then first_channel d selectors'
          else Some channel
      | None => first_channel d selectors'
      end
  end.

Definition _extract_playlist_metadata (d : D caps) : PlaylistInfo.t :=
  let title :=
    match first_title d title_selectors with
    | Some t => Some t
    | None =>
        match list_param caps (current_url caps d) with
        | Some id => Some (py "Playlist_" ++ id)
        | None => None
        end
    end in
  let title := default (py "Unknown Playlist") title in
  let channel := default (py "Unknown") (first_channel d channel_selectors) in
  PlaylistInfo.mk title channel (current_url caps d) 0.

(** *** [extract_playlist_urls] *)

Definition extract_playlist_urls (playlist_url : pystr) (headless : bool)
  (max_videos : option Z) : M (PlaylistInfo.t * list VideoInfo.t) :=
  let* d := call (EvLaunch playlist_url headless) (launch caps playlist_url headless) in
  let '(_, d) := discover max_videos d in
  let video_data := extract_videos (find_elements caps d) in
  let playlist_info := _extract_playlist_metadata d in
  ret (playlist_info, video_data).

(** *** [download_video_with_ytdlp] *)

(** [list(output_dir.glob(pattern))] *)
Definition glob (w : World) (output_dir : Path) (pattern : pystr) : list pystr :=
  filter (fun name => fnmatch pattern name = true) (listdir caps (ext w) output_dir).

(** Every exception of the body is caught and returned as a failed result,
    so the function itself never raises. *)
Definition download_video_with_ytdlp (video_url custom_title : pystr)
  (output_dir : Path) (w : World) : DownloadResult.t * World :=
  let sanitized_title := sanitize_filename custom_title in
  let output_path := path_div output_dir (sanitized_title ++ py ".%(ext)s") in
  let existing_files := glob w output_dir (sanitized_title ++ py ".*") in
  if negb (bool_decide (existing_files = [])) then
    (DownloadResult.mk true true sanitized_title None, w)
  else
    match call (EvDownload video_url output_path)
               (ydl_download caps video_url output_path) w with
    | (Ok _, w') => (DownloadResult.mk true false sanitized_title None, w')
    | (Raise error_msg, w') =>
        (DownloadResult.mk false false custom_title (Some error_msg), w')
    end.

(** *** [download_playlist] *)

(** The folder given to the constructor. *)
Variable download_folder : Path.

Definition sort_videos {A : Type} (order : pystr) (videos : list A) : list A :=
  if bool_decide (order = py "upload") then reverse videos
  else if bool_decide (order = py "reverse") then reverse videos
  else videos.

(** [for i, video in enumerate(videos): video.download_index = i + 1] *)
Definition assign_download_index (videos : list VideoInfo.t) : list VideoInfo.t :=
  imap (fun i video => VideoInfo.set_download_index (i + 1) video) videos.

Record Counters := {
  c_success : nat;
  c_fail : nat;
  c_skipped : nat
}.

Definition counters_init : Counters :=
  {| c_success := 0; c_fail := 0; c_skipped := 0 |}.

Definition count_result (result : DownloadResult.t) (c : Counters) : Counters :=
  if DownloadResult.success result then
    if DownloadResult.skipped result
    then {| c_success := c_success c; c_fail := c_fail c;
            c_skipped := c_skipped c + 1 |}
    else {| c_success := c_success c + 1; c_fail := c_fail c;
            c_skipped := c_skipped c |}
  else {| c_success := c_success c; c_fail := c_fail c + 1;
          c_skipped := c_skipped c |}.

Definition csum (c : Counters) : nat := c_success c + c_skipped c + c_fail c.

(** The pause at the end of the loop body. *)
Definition pause_between (i n : nat) (delay : Z) (w : World) : World :=
  if (i <? n - 1) && (0 <? delay)%Z then tell (EvSleep delay) (sleep caps delay) w
  else w.

(** [for i, video in enumerate(videos)], from index [i] on, [n] being
    [len(videos)]. *)
Fixpoint download_videos (config : Config) (playlist_folder : Path) (n i : nat)
  (videos : list VideoInfo.t) (c : Counters) (w : World) : Counters * World :=
  match videos with
  | [] => (c, w)
  | video :: videos' =>
      let '(result, w1) :=
        download_video_with_ytdlp (VideoInfo.url video) (VideoInfo.title video)
          playlist_folder w in
      let c' := count_result result c in
      if negb (DownloadResult.success result) && negb (continue_on_error config)
      then (c', w1)
      else
        download_videos config playlist_folder n (i + 1) videos' c'
          (pause_between i n (delay_between_downloads config) w1)
  end.

(** The results of the passes of that loop, in order: one for each video
    the loop reached. *)
Fixpoint outcomes (config : Config) (playlist_folder : Path) (n i : nat)
  (videos : list VideoInfo.t) (w : World) : list DownloadResult.t :=
  match videos with
  | [] => []
  | video :: videos' =>
      let '(result, w1) :=
        download_video_with_ytdlp (VideoInfo.url video) (VideoInfo.title video)
          playlist_folder w in
      result ::
      (if negb (DownloadResult.success result) && negb (continue_on_error config)
       then []
       else outcomes config playlist_folder n (i + 1) videos'
              (pause_between i n (delay_between_downloads config) w1))
  end.

Definition metadata_of (playlist_info : PlaylistInfo.t) (playlist_url : pystr)
  (videos : list VideoInfo.t) (extracted_at order : pystr) : Metadata.t :=
  Metadata.mk (PlaylistInfo.title playlist_info)
    (PlaylistInfo.channel playlist_info) playlist_url (length videos)
    extracted_at
    ((fun v => Metadata.mk_video (VideoInfo.title v) (VideoInfo.url v)
                 (VideoInfo.playlist_index v) (VideoInfo.upload_info v))
       <$> videos)
    order.

(** The folder the videos go to, created and described when
    [create_playlist_folder] is set. *)
Definition prepare_folder (config : Config) (playlist_info : PlaylistInfo.t)
  (playlist_url : pystr) (videos : list VideoInfo.t) : M Path :=
  if create_playlist_folder config then
    let sanitized_name := sanitize_filename (PlaylistInfo.title playlist_info) in
    let playlist_folder := path_div download_folder sanitized_name in
    let* _ := call (EvMkdir playlist_folder) (mkdir caps playlist_folder) in
    let* extracted_at := (fun w => (Ok (now_iso caps (ext w)), w)) in
    let metadata :=
      metadata_of playlist_info playlist_url videos extracted_at
        (sort_order config) in
    let metadata_path := path_div playlist_folder (py "playlist_info.json") in
    let* _ := call (EvWriteJson metadata_path metadata)
                   (write_json caps metadata_path metadata) in
    ret playlist_folder
  else ret download_folder.

(** The dictionary the run returns after the loop. *)
Definition summary_of (config : Config) (playlist_info : PlaylistInfo.t)
  (videos : list VideoInfo.t) (folder : Path) (c : Counters) : Summary.t :=
  Summary.mk playlist_info (c_success c) (c_skipped c) (c_fail c)
    (length videos) (path_str folder) (sort_order config).

(** The [try] block. *)
Definition download_playlist_try (playlist_url : pystr) (config : Config)
  : M (option Summary.t) :=
  let* extracted :=
    extract_playlist_urls playlist_url (headless config) (max_videos config) in
  let '(playlist_info, videos) := extracted in
  if bool_decide (videos = []) then ret None
  else
    let videos := sort_videos (sort_order config) videos in
    let videos := assign_download_index videos in
    let* playlist_folder := prepare_folder config playlist_info playlist_url videos in
    fun w =>
      let '(c, w1) :=
        download_videos config playlist_folder (length videos) 0 videos
          counters_init w in
      let w2 := tell EvCleanup (cleanup_debug_files caps) w1 in
      (Ok (Some (summary_of config playlist_info videos playlist_folder c)), w2).

(** [download_playlist]: whatever the [try] block raises is caught; the
    function cleans up and returns [None]. *)
Definition download_playlist (playlist_url : pystr) (config : Config)
  (w : World) : option Summary.t * World :=
  match download_playlist_try playlist_url config w with
  | (Ok r, w') => (r, w')
  | (Raise _, w') => (None, tell EvCleanup (cleanup_debug_files caps) w')
  end.

(** The part of a run of [download_playlist] before the download loop:
    extraction found the videos [found], not none; [videos] is that list
    sorted and indexed; the folder is ready and the world is [w1]. *)
Definition playlist_run (playlist_url : pystr) (config : Config) (w : World)
  (playlist_info : PlaylistInfo.t) (videos : list VideoInfo.t)
  (playlist_folder : Path) (w1 : World) : Prop :=
  ∃ found w0,
    extract_playlist_urls playlist_url (headless config) (max_videos config) w
    = (Ok (playlist_info, found), w0) ∧
    found ≠ [] ∧
    videos = assign_download_index (sort_videos (sort_order config) found) ∧
    prepare_folder config playlist_info playlist_url videos w0
    = (Ok playlist_folder, w1).

(** The sum of the three counters of a summary. *)
Definition counted (s : Summary.t) : nat :=
  Summary.success_count s + Summary.skipped_count s + Summary.fail_count s.

(** Two summaries that agree on everything but the three counters. *)
Definition same_but_counters (a b : Summary.t) : Prop :=
  Summary.playlist_info a = Summary.playlist_info b ∧
  Summary.total_videos a = Summary.total_videos b ∧
  Summary.playlist_folder a = Summary.playlist_folder b ∧
  Summary.sort_order a = Summary.sort_order b.

(** *** [download_multiple_playlists] *)

Record BatchAcc := {
  b_results : list BatchEntry;
  b_total_success : nat;
  b_total_skipped : nat;
  b_total_failed : nat;
  b_total_playlists_failed : nat
}.

Definition batch_init : BatchAcc :=
  {| b_results := []; b_total_success := 0; b_total_skipped := 0;
     b_total_failed := 0; b_total_playlists_failed := 0 |}.

(** The [if result:] branch. *)
Definition record_success (url : pystr) (r : Summary.t) (a : BatchAcc) : BatchAcc :=
  {| b_results :=
       b_results a ++
       [EntryOk url (Summary.playlist_info r) (Summary.success_count r)
          (Summary.skipped_count r) (Summary.fail_count r)
          (Summary.total_videos r) (Summary.playlist_folder r)];
     b_total_success := b_total_success a + Summary.success_count r;
     b_total_skipped := b_total_skipped a + Summary.skipped_count r;
     b_total_failed := b_total_failed a + Summary.fail_count r;
     b_total_playlists_failed := b_total_playlists_failed a |}.

(** The [except] branch. *)
Definition record_error (url error : pystr) (a : BatchAcc) : BatchAcc :=
  {| b_results := b_results a ++ [EntryError url error];
     b_total_success := b_total_success a;
     b_total_skipped := b_total_skipped a;
     b_total_failed := b_total_failed a;
     b_total_playlists_failed := b_total_playlists_failed a + 1 |}.

Definition pause_between_playlists (i n : nat) (delay : Z) (w : World) : World :=
  if (i <? n - 1) && (0 <? delay)%Z then tell (EvSleep delay) (sleep caps delay) w
  else w.

(** [for i, url in enumerate(playlist_urls)] with its [try]/[except], over
    any per-playlist function [run] that returns or raises. *)
Fixpoint batch_loop (run : pystr -> Config -> M (option Summary.t))
  (config : Config) (n i : nat) (urls : list pystr) (a : BatchAcc) (w : World)
  : BatchAcc * World :=
  match urls with
  | [] => (a, w)
  | url :: urls' =>
      let continue_with a' w' :=
        batch_loop run config n (i + 1) urls' a'
          (pause_between_playlists i n (delay_between_playlists config) w') in
      match run url config w with
      | (Ok (Some r), w1) => continue_with (record_success url r a) w1
      | (Ok None, w1) => continue_with a w1
      | (Raise e, w1) =>
          let a' := record_error url e a in
          if negb (continue_on_playlist_error config) then (a', w1)
          else continue_with a' w1
      end
  end.

Definition batch_summary (playlist_urls : list pystr) (a : BatchAcc) : BatchSummary :=
  let successful_results := filter (fun r => entry_success r = true) (b_results a) in
  {| total_playlists := length playlist_urls;
     successful_playlists := length successful_results;
     failed_playlists := b_total_playlists_failed a;
     total_videos_downloaded := b_total_success a;
     total_videos_skipped := b_total_skipped a;
     total_videos_failed := b_total_failed a;
     results := b_results a |}.

Definition download_multiple_playlists_with
  (run : pystr -> Config -> M (option Summary.t))
  (playlist_urls : list pystr) (config : Config) (w : World)
  : BatchSummary * World :=
  let '(a, w') :=
    batch_loop run config (length playlist_urls) 0 playlist_urls batch_init w in
  (batch_summary playlist_urls a, w').

(** [download_playlist] as the batch calls it: it has caught everything
    itself, so the call always returns. *)
Definition run_playlist (url : pystr) (config : Config) : M (option Summary.t) :=
  fun w => let '(r, w') := download_playlist url config w in (Ok r, w').

Definition download_multiple_playlists (playlist_urls : list pystr)
  (config : Config) (w : World) : BatchSummary * World :=
  download_multiple_playlists_with run_playlist playlist_urls config w.

End Pipeline.

Arguments ext {caps} w.
Arguments trace {caps} w.

(** ** Reading results and traces *)

(** [s] has no whitespace at either end. *)
Definition stripped (s : pystr) : Prop :=
  (∀ c, head s = Some c → is_space c = false) ∧
  (∀ c, last s = Some c → is_space c = false).

Definition is_sleep (e : Event) : bool :=
  match e with EvSleep _ => true | _ => false end.

Definition sleep_calls (calls : list Event) : list Event :=
  filter (fun e => is_sleep e = true) calls.

(** The calls the download loop can make. *)
Definition is_loop_call (e : Event) : bool := is_download e || is_sleep e.

(** The counters of one entry of [results]; an error entry has none. *)
Definition entry_downloaded (e : BatchEntry) : nat :=
  match e with EntryOk _ _ n _ _ _ _ => n | EntryError _ _ => 0 end.

Definition entry_skipped (e : BatchEntry) : nat :=
  match e with EntryOk _ _ _ n _ _ _ => n | EntryError _ _ => 0 end.

Definition entry_failed (e : BatchEntry) : nat :=
  match e with EntryOk _ _ _ _ n _ _ => n | EntryError _ _ => 0 end.

(** The video record of the metadata file. *)
Definition meta_video (v : VideoInfo.t) : Metadata.video :=
  Metadata.mk_video (VideoInfo.title v) (VideoInfo.url v)
    (VideoInfo.playlist_index v) (VideoInfo.upload_info v).

(** [config] with other values for the two options that [download_playlist]
    never reads and the batch reads only in its [except] branch. *)
Definition with_retry_options (retries : Z) (go_on : bool) (config : Config)
  : Config := {|
  max_retries := retries;
  delay_between_downloads := delay_between_downloads config;
  delay_between_playlists := delay_between_playlists config;
  continue_on_error := continue_on_error config;
  continue_on_playlist_error := go_on;
  headless := headless config;
  max_videos := max_videos config;
  create_playlist_folder := create_playlist_folder config;
  sort_order := sort_order config
|}.

(** What the running totals of the batch stand for: sums over the entries
    recorded so far, and the number of error entries. *)
Definition totals_agree (a : BatchAcc) : Prop :=
  b_total_success a = sum_list_with entry_downloaded (b_results a) ∧
  b_total_skipped a = sum_list_with entry_skipped (b_results a) ∧
  b_total_failed a = sum_list_with entry_failed (b_results a) ∧
  b_total_playlists_failed a
  = length (filter (fun e => entry_success e = false) (b_results a)).

(** The calls the download loop of a playlist is expected to make, given
    the results of the videos it reached: for each one a call to the
    downloader unless it was skipped, then a pause unless the delay is not
    positive or no result follows. *)
Fixpoint loop_calls (folder : Path) (delay : Z) (videos : list VideoInfo.t)
  (reached : list DownloadResult.t) : list Event :=
  match videos, reached with
  | video :: videos', r :: reached' =>
      (if DownloadResult.skipped r then []
       else [EvDownload (VideoInfo.url video)
               (path_div folder
                  (sanitize_filename (VideoInfo.title video) ++ py ".%(ext)s"))])
      ++ (match reached' with
          | [] => []
          | _ :: _ => if (0 <? delay)%Z then [EvSleep delay] else []
          end)
      ++ loop_calls folder delay videos' reached'
  | _, _ => []
  end.

(** ** Object identity

    The videos are objects on the heap and the list holds references to them;
    the index loop writes through the references.  The extraction loop
    allocates a fresh object for each [VideoInfo(...)] it appends. *)

Abbreviation Heap := (gmap nat VideoInfo.t).

(** [video_data.append(VideoInfo(...))] for each extracted value, [next]
    being the first unused address. *)
Fixpoint alloc_videos (values : list VideoInfo.t) (next : nat) (h : Heap)
  : list nat * Heap :=
  match values with
  | [] => ([], h)
  | v :: values' =>
      let '(refs, h') := alloc_videos values' (next + 1) (<[next := v]> h) in
      (next :: refs, h')
  end.

(** The index loop on the heap; the second component lists the objects
    written, in order. *)
Fixpoint assign_loop (i : nat) (refs : list nat) (h : Heap) (written : list nat)
  : Heap * list nat :=
  match refs with
  | [] => (h, written)
  | r :: refs' =>
      assign_loop (i + 1) refs'
        (alter (VideoInfo.set_download_index (i + 1)) r h) (written ++ [r])
  end.

(** The values a list of references denotes. *)
Definition deref (h : Heap) (refs : list nat) : list VideoInfo.t :=
  omap (fun r => h !! r) refs.

(** ** A simulated world

    A small concrete instance of the collaborators, for running the pipeline
    on examples: a table of pages, a disk that is a list of (directory,
    entry) pairs, and a downloader that writes [base.mp4] unless the URL is
    marked as failing.  The list parameter is read off the query of the
    address and the recency pattern is searched in the text, as [parse_qs]
    and [re.search] do on ASCII input. *)

Module Sim.

Record Page := {
  rendered : nat -> list Element;
  texts : pystr -> option pystr;
  page_url : pystr
}.

Record Session := {
  page : Page;
  scrolls : nat
}.

Abbreviation Disk := (list (Path * pystr)).

Definition split_last (p : Path) : Path * pystr :=
  match reverse p with
  | name :: rdir => (reverse rdir, name)
  | [] => ([], [])
  end.

(** The base name of an output template [base.%(ext)s]. *)
Definition template_base (name : pystr) : pystr :=
  take (length name - 8) name.

(** Is [c] between [lo] and [hi]? *)
Definition between (lo hi c : N) : bool := (negb (c <? lo) && (c <=? hi))%N.

Definition lower_char (c : N) : N :=
  if between 65 90 c then (c + 32)%N else c.

Definition ascii_lower (s : pystr) : pystr := lower_char <$> s.

(** [s.split(c, 1)]: the text before the first [c], and the text after it
    when there is one. *)
Fixpoint before_char (c : N) (s : pystr) : pystr :=
  match s with
  | [] => []
  | x :: s' => if (x =? c)%N then [] else x :: before_char c s'
  end.

Fixpoint after_char (c : N) (s : pystr) : option pystr :=
  match s with
  | [] => None
  | x :: s' => if (x =? c)%N then Some s' else after_char c s'
  end.

Fixpoint same_text (s t : pystr) : bool :=
  match s, t with
  | [], [] => true
  | x :: s', y :: t' => (x =? y)%N && same_text s' t'
  | _, _ => false
  end.

(** [urlparse(u).query]: the fragment is cut off at the first hash sign,
    the query is what follows the first question mark of the rest. *)
Definition query_of (u : pystr) : pystr :=
  match after_char 63%N (before_char 35%N u) with
  | Some query => query
  | None => []
  end.

(** [parse_qs(query)[name][0]]: the fields are separated by ampersands, a
    field without an equals sign or with an empty value is dropped, a plus
    sign in a value stands for a space; the first value left under [name] is
    returned.  Percent escapes are not decoded here: the addresses of the
    examples have none.  [fuel] bounds the number of fields. *)
Definition field_value (name field : pystr) : option pystr :=
  match after_char 61%N field with
  | Some (c :: value) =>
      if same_text (before_char 61%N field) name
      then Some ((fun c => if (c =? 43)%N then 32%N else c) <$> (c :: value))
      else None
  | _ => None
  end.

Fixpoint first_query_value (fuel : nat) (name query : pystr) : option pystr :=
  match fuel with
  | O => None
  | S fuel' =>
      match field_value name (before_char 38%N query) with
      | Some value => Some value
      | None =>
          match after_char 38%N query with
          | Some query' => first_query_value fuel' name query'
          | None => None
          end
      end
  end.

Definition parse_list_param (u : pystr) : option pystr :=
  first_query_value (S (length u)) (py "list") (query_of u).

(** The pattern of the upload information,
    [\d+\s+(year|month|week|day|hour)s?\s+ago], searched with
    [re.IGNORECASE], on ASCII text: somewhere a digit is followed by
    whitespace, one of the five units, an optional s, whitespace and
    [ago]. *)
Definition is_digit (c : N) : bool := between 48 57 c.

(** The ASCII characters that [\s] matches. *)
Definition ascii_space (c : N) : bool := between 9 13 c || between 28 32 c.

Fixpoint skip_spaces (s : pystr) : pystr :=
  match s with
  | [] => []
  | c :: s' => if ascii_space c then skip_spaces s' else s
  end.

(** A lower-case [word] at the start of [s], in either case: what follows
    it. *)
Fixpoint after_word (word s : pystr) : option pystr :=
  match word, s with
  | [], _ => Some s
  | a :: word', b :: s' =>
      if (lower_char b =? a)%N then after_word word' s' else None
  | _ :: _, [] => None
  end.

(** [\s+word] at the start of [s]: what follows it. *)
Definition after_spaces_word (word s : pystr) : option pystr :=
  match s with
  | c :: s' => if ascii_space c then after_word word (skip_spaces s') else None
  | [] => None
  end.

Definition ago_follows (s : pystr) : bool :=
  match after_spaces_word (py "ago") s with
  | Some _ => true
  | None => false
  end.

Definition unit_follows (s : pystr) (unit : pystr) : bool :=
  match after_spaces_word unit s with
  | Some s' =>
      ago_follows s' ||
      match s' with
      | c :: s'' => (lower_char c =? 115)%N && ago_follows s''
      | [] => false
      end
  | None => false
  end.

Definition recency_units : list pystr :=
  [py "year"; py "month"; py "week"; py "day"; py "hour"].

Fixpoint recency_search (s : pystr) : bool :=
  match s with
  | [] => false
  | c :: s' =>
      is_digit c && existsb (unit_follows s') recency_units
      || recency_search s'
  end.

Definition caps (web : pystr -> option Page) (failing : pystr -> bool)
  : Capabilities := {|
  X := Disk;
  D := Session;
  launch url _ x :=
    match web url with
    | Some p => (Ok {| page := p; scrolls := 0 |}, x)
    | None => (Raise (py "Message: timeout"), x)
    end;
  scroll d := {| page := page d; scrolls := S (scrolls d) |};
  alt_scroll d := d;
  find_elements d := rendered (page d) (scrolls d);
  find_text d selector := texts (page d) selector;
  current_url d := page_url (page d);
  lower := ascii_lower;
  list_param := parse_list_param;
  upload_re := recency_search;
  listdir x dir := (fun e => snd e) <$> filter (fun e => fst e = dir) x;
  mkdir _ x := (Ok tt, x);
  write_json path _ x := (Ok tt, x ++ [split_last path]);
  now_iso _ := py "2024-01-01T00:00:00";
  ydl_download url outtmpl x :=
    if failing url then (Raise (py "ERROR: unable to download"), x)
    else
      let '(dir, name) := split_last outtmpl in
      (Ok tt, x ++ [(dir, template_base name ++ py ".mp4")]);
  sleep _ x := x;
  cleanup_debug_files x := x
|}.

(** An entry with a watch link for video [id] and the given title. *)
Definition entry (id title : pystr) : Element :=
  {| video_title_link := Some (Some (py "https://www.youtube.com/watch?v=" ++ id), title);
     metadata_spans := Some [] |}.

(** A page that shows [counts !! (n-1)] entries after [n] scrolls (and the
    last of them from then on), all alike. *)
Definition page_of_counts (counts : list nat) : Page :=
  {| rendered n := replicate (nth (n - 1) counts (List.last counts 0)) (entry (py "x") (py "x"));
     texts _ := None;
     page_url := py "https://youtube.com/playlist?list=PL" |}.

(** A page whose entries are all there from the start. *)
Definition page_of_entries (elements : list Element) : Page :=
  {| rendered _ := elements;
     texts _ := None;
     page_url := py "https://youtube.com/playlist?list=PL" |}.

Definition world (w : Capabilities) (x : X w) : World w :=
  {| ext := x; trace := [] |}.

End Sim.


(** ** Example inputs *)

Module Ex.

(** 254 letters, a space and one more letter: 256 characters. *)
Definition long_title : pystr := replicate 254 97%N ++ [32; 98]%N.

Definition downloads : Path := [py "downloads"].

Definition watch (id : string) : pystr :=
  py "https://www.youtube.com/watch?v=" ++ py id.

(** No page anywhere, every download succeeds. *)
Definition plain_caps : Capabilities := Sim.caps (fun _ => None) (fun _ => false).

Definition bracket_title : pystr := py "Song [HD]".

Definition digit (n : nat) : pystr := [(48 + N.of_nat n)%N].

(** The [n]-th entry of a playlist: video id [n], title [Video n]. *)
Definition numbered (n : nat) : Element :=
  Sim.entry (digit n) (py "Video " ++ digit n).

Definition watch_n (n : nat) : pystr :=
  py "https://www.youtube.com/watch?v=" ++ digit n.

(** A session on a page whose entry count goes 5, 5, 5, 5, 5, 5, then 4 for
    good. *)
Definition shrinking_session : Sim.Session :=
  {| Sim.page := Sim.page_of_counts [5; 5; 5; 5; 5; 5; 4];
     Sim.scrolls := 0 |}.

(** A session on a page that always shows three entries. *)
Definition flat_session : Sim.Session :=
  {| Sim.page := Sim.page_of_counts [3]; Sim.scrolls := 0 |}.

(** A playlist of eight entries, all rendered from the start. *)
Definition eight : Sim.Page := Sim.page_of_entries (numbered <$> seq 1 8).

(** A playlist of five entries; the download of the third fails. *)
Definition five : Sim.Page := Sim.page_of_entries (numbered <$> seq 1 5).

(** A playlist page without entries that can be read. *)
Definition empty_page : Sim.Page := Sim.page_of_entries [].

Definition web (url : pystr) : option Sim.Page :=
  if bool_decide (url = py "PL8") then Some eight
  else if bool_decide (url = py "PL5") then Some five
  else if bool_decide (url = py "PL0") then Some empty_page
  else None.

Definition third_fails (url : pystr) : bool := bool_decide (url = watch_n 3).

Definition caps : Capabilities := Sim.caps web third_fails.

Definition caps_ok : Capabilities := Sim.caps web (fun _ => false).

Definition limit_3 : Config := {|
  max_retries := 3; delay_between_downloads := 3000;
  delay_between_playlists := 5000; continue_on_error := true;
  continue_on_playlist_error := true; headless := true;
  max_videos := Some 3%Z; create_playlist_folder := true;
  sort_order := py "playlist" |}.

Definition go_on : Config := {|
  max_retries := 3; delay_between_downloads := 3000;
  delay_between_playlists := 5000; continue_on_error := true;
  continue_on_playlist_error := false; headless := true;
  max_videos := None; create_playlist_folder := true;
  sort_order := py "playlist" |}.

Definition stop_on_error : Config := {|
  max_retries := 3; delay_between_downloads := 3000;
  delay_between_playlists := 5000; continue_on_error := false;
  continue_on_playlist_error := false; headless := true;
  max_videos := None; create_playlist_folder := true;
  sort_order := py "playlist" |}.

(** The run on the playlist of five, up to the download loop. *)
Definition five_world : World caps := Sim.world caps [].

Definition five_extracted
  : result (PlaylistInfo.t * list VideoInfo.t) * World caps :=
  extract_playlist_urls caps (py "PL5") true None five_world.

Definition five_info : PlaylistInfo.t :=
  match five_extracted.1 with
  | Ok (playlist_info, _) => playlist_info
  | Raise _ => PlaylistInfo.mk [] [] [] 0
  end.

Definition five_found : list VideoInfo.t :=
  match five_extracted.1 with
  | Ok (_, found) => found
  | Raise _ => []
  end.

Definition five_videos : list VideoInfo.t := assign_download_index five_found.

Definition five_folder : Path := downloads ++ [py "Playlist_PL"].

Definition five_ready : World caps :=
  (prepare_folder caps downloads stop_on_error five_info (py "PL5")
     five_videos five_extracted.2).2.

(** What the fetch of the third video returns. *)
Definition third_result : DownloadResult.t :=
  DownloadResult.mk false false (py "Video 3")
    (Some (py "ERROR: unable to download")).

End Ex.
(** * Properties *)

(** ** Filename sanitization *)

Section Sanitize.

Implicit Types (s t : pystr) (c : N).

Lemma space_is_space : is_space SPACE = true.
Proof. reflexivity. Qed.

Lemma space_is_valid : is_invalid SPACE = false.
Proof. reflexivity. Qed.

Lemma lstrip_suffix s : ∃ k, s = k ++ lstrip s ∧ Forall (fun c => is_space c = true) k.
Proof.
  induction s as [|c s IH]; simpl.
  - exists []. split; [done | constructor].
  - destruct (is_space c) eqn:Hc.
    + destruct IH as (k & Hk & Hws). exists (c :: k).
      split; [simpl; congruence | by constructor].
    + exists []. split; [done | constructor].
Qed.

Lemma lstrip_subseteq s : lstrip s ⊆ s.
Proof.
  destruct (lstrip_suffix s) as (k & Hk & _). rewrite Hk at 2.
  intros c Hc. apply elem_of_app. by right.
Qed.

Lemma rstrip_prefix s : ∃ k, s = rstrip s ++ k ∧ Forall (fun c => is_space c = true) k.
Proof.
  unfold rstrip. destruct (lstrip_suffix (reverse s)) as (k & Hk & Hws).
  exists (reverse k). split.
  - rewrite <- reverse_app, <- Hk. by rewrite reverse_involutive.
  - by apply Forall_reverse.
Qed.

Lemma rstrip_subseteq s : rstrip s ⊆ s.
Proof.
  destruct (rstrip_prefix s) as (k & Hk & _). rewrite Hk at 2.
  intros c Hc. apply elem_of_app. by left.
Qed.

Lemma strip_subseteq s : strip s ⊆ s.
Proof. unfold strip. etrans; [apply rstrip_subseteq | apply lstrip_subseteq]. Qed.

Lemma collapse_ws_elem b s c :
  c ∈ collapse_ws b s → c = SPACE ∨ c ∈ s.
Proof.
  revert b. induction s as [|a s IH]; intros b; simpl.
  - intros H. by apply elem_of_nil in H.
  - destruct (is_space a); [destruct b|].
    + intros H. destruct (IH _ H); [by left | right; by constructor].
    + intros [->|H]%elem_of_cons; [by left|].
      destruct (IH _ H); [by left | right; by constructor].
    + intros [->|H]%elem_of_cons; [right; by constructor|].
      destruct (IH _ H); [by left | right; by constructor].
Qed.

Lemma remove_invalid_valid s c : c ∈ remove_invalid s → is_invalid c = false.
Proof. unfold remove_invalid. by intros [? _]%list_elem_of_filter. Qed.

Lemma sanitize_elem x c :
  c ∈ sanitize_filename x → is_invalid c = false.
Proof.
  unfold sanitize_filename. intros H.
  apply subseteq_take, strip_subseteq, collapse_ws_elem in H.
  destruct H as [->|H]; [apply space_is_valid | by eapply remove_invalid_valid].
Qed.

(** The result is at most 255 characters long. *)
Lemma sanitize_length x : length (sanitize_filename x) ≤ 255.
Proof. unfold sanitize_filename. rewrite length_take. lia. Qed.

(** The result holds none of the nine invalid characters. *)
Lemma sanitize_no_invalid x c :
  c ∈ invalid_chars → c ∉ sanitize_filename x.
Proof.
  intros Hc Hin. apply sanitize_elem in Hin.
  unfold is_invalid in Hin. by apply bool_decide_eq_false in Hin.
Qed.

Lemma collapse_ws_collapsed b s : collapsed b (collapse_ws b s).
Proof.
  revert b. induction s as [|a s IH]; intros b; simpl; [done|].
  destruct (is_space a) eqn:Ha.
  - destruct b; [apply (IH true)|].
    change (false = false ∧ SPACE = SPACE ∧ collapsed true (collapse_ws true s)).
    repeat split. apply (IH true).
  - simpl. rewrite Ha. apply IH.
Qed.

Lemma collapsed_weaken b s : collapsed b s → collapsed false s.
Proof.
  destruct s as [|c s]; simpl; [done|].
  destruct (is_space c); [|done]. intros (_ & ? & ?). done.
Qed.

Lemma collapsed_app_l b s t : collapsed b (s ++ t) → collapsed b s.
Proof.
  revert b. induction s as [|c s IH]; intros b; simpl; [done|].
  destruct (is_space c).
  - intros (? & ? & ?). repeat split; try done. by eapply IH.
  - apply IH.
Qed.

Lemma collapsed_lstrip b s : collapsed b s → collapsed false (lstrip s).
Proof.
  revert b. induction s as [|c s IH]; intros b; simpl; [done|].
  destruct (is_space c) eqn:Hc.
  - intros (_ & _ & H). by eapply IH.
  - intros H. simpl. by rewrite Hc.
Qed.

Lemma collapsed_rstrip b s : collapsed b s → collapsed b (rstrip s).
Proof.
  intros H. destruct (rstrip_prefix s) as (k & Hk & _).
  rewrite Hk in H. by eapply collapsed_app_l.
Qed.

Lemma collapsed_take b n s : collapsed b s → collapsed b (take n s).
Proof.
  intros H. rewrite <- (take_drop n s) in H. by eapply collapsed_app_l.
Qed.

Lemma collapse_ws_id s : collapsed false s → collapse_ws false s = s.
Proof.
  assert (∀ b, collapsed b s → collapse_ws b s = s) as Hgen; [|apply Hgen].
  induction s as [|c s IH]; intros b; simpl; [done|].
  destruct (is_space c).
  - intros (-> & -> & H). f_equal. by apply IH.
  - intros H. f_equal. by apply IH.
Qed.

Lemma remove_invalid_id s :
  (∀ c, c ∈ s → is_invalid c = false) → remove_invalid s = s.
Proof.
  unfold remove_invalid. induction s as [|c s IH]; intros H; [done|].
  rewrite filter_cons_True; [|apply H; by constructor].
  f_equal. apply IH. intros a Ha. apply H. by constructor.
Qed.

Lemma lstrip_head s c : head (lstrip s) = Some c → is_space c = false.
Proof.
  induction s as [|a s IH]; simpl; [done|].
  destruct (is_space a) eqn:Ha; [done|]. simpl. congruence.
Qed.

Lemma lstrip_id s : (∀ c, head s = Some c → is_space c = false) → lstrip s = s.
Proof.
  destruct s as [|a s]; simpl; [done|]. intros H. by rewrite (H a).
Qed.

Lemma rstrip_last s c : last (rstrip s) = Some c → is_space c = false.
Proof.
  unfold rstrip. rewrite last_reverse. apply lstrip_head.
Qed.

Lemma rstrip_id s : (∀ c, last s = Some c → is_space c = false) → rstrip s = s.
Proof.
  intros H. unfold rstrip. rewrite lstrip_id.
  - apply reverse_involutive.
  - intros c Hc. apply H. by rewrite <- head_reverse.
Qed.

Lemma head_app_Some {A} (l k : list A) x : head l = Some x → head (l ++ k) = Some x.
Proof. by destruct l. Qed.

Lemma strip_head s c : head (strip s) = Some c → is_space c = false.
Proof.
  unfold strip. intros H. apply (lstrip_head s).
  destruct (rstrip_prefix (lstrip s)) as (k & Hk & _).
  rewrite Hk. by apply head_app_Some.
Qed.

Lemma strip_id s :
  (∀ c, head s = Some c → is_space c = false) →
  (∀ c, last s = Some c → is_space c = false) →
  strip s = s.
Proof.
  intros Hh Hl. unfold strip. rewrite (lstrip_id s Hh). by apply rstrip_id.
Qed.

Lemma head_take {A} (l : list A) n x : head (take n l) = Some x → head l = Some x.
Proof. destruct n, l; simpl; congruence. Qed.

(** Where the result does not end in whitespace, sanitizing it again
    changes nothing. *)
Lemma sanitize_idempotent_if x :
  (∀ c, last (sanitize_filename x) = Some c → is_space c = false) →
  sanitize_filename (sanitize_filename x) = sanitize_filename x.
Proof.
  intros Hlast. set (y := sanitize_filename x) in *.
  assert (collapsed false y) as Hcol.
  { unfold y, sanitize_filename, strip.
    apply collapsed_take, collapsed_rstrip.
    eapply collapsed_lstrip, collapse_ws_collapsed. }
  assert (∀ c, head y = Some c → is_space c = false) as Hhead.
  { intros c Hc. unfold y, sanitize_filename in Hc.
    apply head_take in Hc. by eapply strip_head. }
  unfold sanitize_filename at 1.
  rewrite remove_invalid_id by (intros c; apply sanitize_elem).
  rewrite collapse_ws_id by done.
  rewrite strip_id by done.
  apply take_ge, sanitize_length.
Qed.

(** In particular the truncation is the only obstacle: a title whose cleaned
    form fits in 255 characters is a fixed point after one pass. *)
Lemma sanitize_idempotent_short x :
  length (strip (collapse_ws false (remove_invalid x))) ≤ 255 →
  sanitize_filename (sanitize_filename x) = sanitize_filename x.
Proof.
  intros Hlen. apply sanitize_idempotent_if. intros c.
  unfold sanitize_filename. rewrite take_ge by done.
  unfold strip. apply rstrip_last.
Qed.

End Sanitize.

(** C5 (sanitize is idempotent, at most 255 long, free of the invalid
    characters): every result is at most 255 characters long and holds none
    of the nine invalid characters, but the function is not idempotent.  On a
    256-character title whose 255th character is a space the truncation,
    which comes after [strip()], leaves a trailing space; a second pass
    strips it. *)
Theorem C5_sanitize_not_idempotent :
  sanitize_filename Ex.long_title = replicate 254 97%N ++ [SPACE] ∧
  sanitize_filename (sanitize_filename Ex.long_title) = replicate 254 97%N ∧
  sanitize_filename (sanitize_filename Ex.long_title)
    ≠ sanitize_filename Ex.long_title ∧
  (∀ x, length (sanitize_filename x) ≤ 255) ∧
  (∀ x c, c ∈ invalid_chars → c ∉ sanitize_filename x).
Proof.
  split_and!.
  - vm_compute. reflexivity.
  - vm_compute. reflexivity.
  - intros H. apply (f_equal length) in H. vm_compute in H. discriminate.
  - apply sanitize_length.
  - apply sanitize_no_invalid.
Qed.

(** ** Pattern matching *)

Section Fnmatch.

Implicit Types (s pat name : pystr).

Lemma plain_cons c s :
  plain (c :: s) → (c ≠ STAR) ∧ (c ≠ QMARK) ∧ (c ≠ LBRACKET) ∧ plain s.
Proof.
  unfold plain. rewrite !not_elem_of_cons.
  intros ((? & ?) & (? & ?) & (? & ?)). split_and!; congruence.
Qed.

Lemma fnmatch_aux_plain s fuel pat name :
  plain s →
  fnmatch_aux (length s + fuel) (s ++ pat) (s ++ name) = fnmatch_aux fuel pat name.
Proof.
  induction s as [|c s IH]; [done|].
  intros (Hs & Hq & Hb & Hp)%plain_cons. simpl.
  rewrite !bool_decide_eq_false_2 by done.
  rewrite bool_decide_eq_true_2 by done. simpl. by apply IH.
Qed.

Lemma fnmatch_star_end fuel name :
  fnmatch_aux (S (S fuel)) [STAR] name = true.
Proof.
  cbn [fnmatch_aux]. rewrite bool_decide_eq_true_2 by done.
  induction name as [|c name IH]; [done|].
  simpl. apply IH.
Qed.

(** A plain base name followed by a dot and anything matches the pattern
    built from it. *)
Lemma fnmatch_base_ext s ext :
  plain s → fnmatch (s ++ py ".*") (s ++ DOT :: ext) = true.
Proof.
  intros Hp. unfold fnmatch. rewrite length_app.
  replace (S (length s + length (py ".*"))) with (length s + 3) by (simpl; lia).
  rewrite fnmatch_aux_plain by done.
  change (py ".*") with [DOT; STAR].
  change (fnmatch_aux 3 [DOT; STAR] (DOT :: ext))
    with (bool_decide (DOT = DOT) && fnmatch_aux 2 [STAR] ext).
  rewrite bool_decide_eq_true_2 by done. apply (fnmatch_star_end 0).
Qed.



Lemma sanitize_plain title :
  LBRACKET ∉ sanitize_filename title → plain (sanitize_filename title).
Proof.
  intros Hb. unfold plain. split_and!; [| |done].
  - apply sanitize_no_invalid. unfold invalid_chars, STAR. set_solver.
  - apply sanitize_no_invalid. unfold invalid_chars, QMARK. set_solver.
Qed.

End Fnmatch.

(** ** The fetcher *)

Section Fetcher.

Context (caps : Capabilities).
Implicit Types (w : World caps) (dir : Path) (url title : pystr).

Lemma glob_nonempty w dir pattern name :
  name ∈ listdir caps (ext w) dir → fnmatch pattern name = true →
  glob caps w dir pattern ≠ [].
Proof.
  intros Hin Hm Hnil.
  assert (name ∈ glob caps w dir pattern) as H.
  { unfold glob. apply list_elem_of_filter. done. }
  rewrite Hnil in H. by apply elem_of_nil in H.
Qed.

(** Where the sanitized title has no opening bracket, a file named after it
    makes the fetcher skip: the result is a skipped success and no
    collaborator is called. *)
Lemma fetch_skips_existing w url title dir e :
  LBRACKET ∉ sanitize_filename title →
  sanitize_filename title ++ DOT :: e ∈ listdir caps (ext w) dir →
  download_video_with_ytdlp caps url title dir w
  = (DownloadResult.mk true true (sanitize_filename title) None, w).
Proof.
  intros Hb Hin. unfold download_video_with_ytdlp.
  rewrite bool_decide_eq_false_2; [done|].
  eapply glob_nonempty; [done|]. by apply fnmatch_base_ext, sanitize_plain.
Qed.


(** The fetcher succeeds, skips or fails, and a skip implies success. *)
Lemma fetch_result_shape w url title dir :
  let r := (download_video_with_ytdlp caps url title dir w).1 in
  DownloadResult.skipped r = true → DownloadResult.success r = true.
Proof.
  unfold download_video_with_ytdlp.
  destruct (negb _); [done|].
  destruct (call _ _ _ _) as [[?|?] ?]; simpl; done.
Qed.

(** In any world whose folder holds [Song [HD].mp4] and nothing else, the
    fetcher asked for [Song [HD]] calls the downloader. *)
Lemma fetch_misses_bracket_file w url dir :
  listdir caps (ext w) dir = [py "Song [HD].mp4"] →
  trace (download_video_with_ytdlp caps url Ex.bracket_title dir w).2
  = trace w ++ [EvDownload url (dir ++ [py "Song [HD].%(ext)s"])].
Proof.
  intros Hdir. unfold download_video_with_ytdlp, glob. rewrite Hdir.
  replace (sanitize_filename Ex.bracket_title) with (py "Song [HD]")
    by (vm_compute; reflexivity).
  replace (filter _ [py "Song [HD].mp4"]) with (@nil pystr)
    by (vm_compute; reflexivity).
  replace (path_div dir (py "Song [HD]" ++ py ".%(ext)s"))
    with (dir ++ [py "Song [HD].%(ext)s"]) by reflexivity.
  simpl. unfold call.
  by destruct (ydl_download caps _ _ _) as [[?|?] ?].
Qed.

End Fetcher.

(** C4 (a file named after the sanitized title makes the fetcher skip; two
    runs give one download then a skip): the title [Song [HD]] is kept as it
    is by sanitization, and the pattern built from it reads [[HD]] as a
    character class.  With [Song [HD].mp4] already in the folder the fetcher
    finds no existing file and calls the downloader; run twice from an empty
    folder it downloads twice. *)
Theorem C4_bracket_title_downloads_again :
  let url := Ex.watch "1" in
  let outtmpl := Ex.downloads ++ [py "Song [HD].%(ext)s"] in
  let disk := [(Ex.downloads, py "Song [HD].mp4")] in
  sanitize_filename Ex.bracket_title = py "Song [HD]" ∧
  download_video_with_ytdlp Ex.plain_caps url Ex.bracket_title Ex.downloads
    (Sim.world Ex.plain_caps disk)
  = (DownloadResult.mk true false (py "Song [HD]") None,
     Build_World Ex.plain_caps (disk ++ [(Ex.downloads, py "Song [HD].mp4")])
       [EvDownload url outtmpl]) ∧
  let '(r1, w1) :=
    download_video_with_ytdlp Ex.plain_caps url Ex.bracket_title Ex.downloads
      (Sim.world Ex.plain_caps []) in
  let '(r2, w2) :=
    download_video_with_ytdlp Ex.plain_caps url Ex.bracket_title Ex.downloads w1 in
  ext w1 = disk ∧
  DownloadResult.success r1 = true ∧ DownloadResult.skipped r1 = false ∧
  DownloadResult.success r2 = true ∧ DownloadResult.skipped r2 = false ∧
  trace w2 = [EvDownload url outtmpl; EvDownload url outtmpl].
Proof. vm_compute. split_and!; reflexivity. Qed.

(** ** The discovery loop *)

Section Discovery.

Context (caps : Capabilities).
Implicit Types (st : ScrollState) (d : D caps) (mv : option Z).

Lemma scroll_cycle_state mv st d :
  let st' := (scroll_cycle caps mv st d).1.1 in
  previous_count st' = current_count st ∧
  scroll_attempts st' = scroll_attempts st + 1 ∧
  current_count st' = length (find_elements caps (scroll caps d)) ∧
  no_change_count st' =
    (if current_count st' =? current_count st then no_change_count st + 1 else 0).
Proof.
  unfold scroll_cycle.
  destruct (limit_reached _ _); [done|].
  destruct (_ =? 0); done.
Qed.

Lemma scroll_cycle_broke mv st d :
  (scroll_cycle caps mv st d).2 =
  limit_reached mv (current_count (scroll_cycle caps mv st d).1.1).
Proof.
  unfold scroll_cycle.
  destruct (limit_reached _ _) eqn:H; [done|].
  destruct (_ =? 0); simpl; by rewrite H.
Qed.

Lemma last_cons_default {A} (b : A) (l : list A) :
  last (b :: l) = Some (default b (last l)).
Proof.
  revert b. induction l as [|a l IH]; intros b; [done|].
  change (last (b :: a :: l)) with (last (a :: l)). by rewrite !IH.
Qed.

(** The loop returns the last state of its trajectory. *)
Lemma scroll_loop_last cap stall mv fuel st d :
  (scroll_loop caps cap stall mv fuel st d).1
  = default st (last (scroll_states caps cap stall mv fuel st d)).
Proof.
  revert st d. induction fuel as [|fuel IH]; intros st d; simpl; [done|].
  destruct (scroll_guard _ _ _); [|done].
  destruct (scroll_cycle caps mv st d) as [[st' d'] broke].
  destruct broke; [done|].
  rewrite IH. by rewrite last_cons_default.
Qed.

(** The number of passes never exceeds what the attempt cap leaves. *)
Lemma scroll_states_length cap stall mv fuel st d :
  length (scroll_states caps cap stall mv fuel st d) ≤ cap - scroll_attempts st.
Proof.
  revert st d. induction fuel as [|fuel IH]; intros st d; simpl; [lia|].
  destruct (scroll_guard cap stall st) eqn:Hg; [|simpl; lia].
  unfold scroll_guard in Hg. apply andb_prop in Hg as [Ha _].
  apply Nat.ltb_lt in Ha.
  pose proof (scroll_cycle_state mv st d) as (_ & Hatt & _).
  destruct (scroll_cycle caps mv st d) as [[st' d'] broke]. simpl in *.
  destruct broke; simpl; [lia|].
  specialize (IH st' d'). lia.
Qed.

(** Fuel beyond what the cap leaves changes nothing: the loop of the program,
    run with [cap] units, always leaves through its condition or its
    [break]. *)
Lemma scroll_loop_fuel_enough cap stall mv fuel fuel' st d :
  cap - scroll_attempts st ≤ fuel → cap - scroll_attempts st ≤ fuel' →
  scroll_loop caps cap stall mv fuel st d = scroll_loop caps cap stall mv fuel' st d.
Proof.
  revert fuel' st d. induction fuel as [|fuel IH]; intros fuel' st d Hf Hf'.
  - assert (scroll_guard cap stall st = false) as Hg.
    { unfold scroll_guard. apply andb_false_intro1, Nat.ltb_ge. lia. }
    destruct fuel'; simpl; [done|]. by rewrite Hg.
  - destruct fuel' as [|fuel'].
    + assert (scroll_guard cap stall st = false) as Hg.
      { unfold scroll_guard. apply andb_false_intro1, Nat.ltb_ge. lia. }
      simpl. by rewrite Hg.
    + simpl. destruct (scroll_guard cap stall st) eqn:Hg; [|done].
      pose proof (scroll_cycle_state mv st d) as (_ & Hatt & _).
      destruct (scroll_cycle caps mv st d) as [[st' d'] broke]. simpl in *.
      destruct broke; [done|]. apply IH; lia.
Qed.

(** When the loop of the program is left, its condition is false or the
    video limit has been reached. *)
Lemma scroll_loop_exit cap stall mv fuel st d :
  cap - scroll_attempts st ≤ fuel →
  let st' := (scroll_loop caps cap stall mv fuel st d).1 in
  scroll_guard cap stall st' = false ∨ limit_reached mv (current_count st') = true.
Proof.
  revert st d. induction fuel as [|fuel IH]; intros st d Hf; simpl.
  - left. unfold scroll_guard. apply andb_false_intro1, Nat.ltb_ge. lia.
  - destruct (scroll_guard cap stall st) eqn:Hg; [|by left].
    pose proof (scroll_cycle_state mv st d) as (_ & Hatt & _).
    pose proof (scroll_cycle_broke mv st d) as Hb.
    destruct (scroll_cycle caps mv st d) as [[st' d'] broke]. simpl in *.
    destruct broke; [by right|]. apply IH. lia.
Qed.

(** Consecutive states of the trajectory: the pass that leads from [a] to
    [b] ran because the loop condition held in [a]; it remembers the old
    count, counts the attempt, and extends or resets the streak. *)
Lemma scroll_states_step cap stall mv fuel st d j a b :
  (st :: scroll_states caps cap stall mv fuel st d) !! j = Some a →
  (st :: scroll_states caps cap stall mv fuel st d) !! S j = Some b →
  scroll_guard cap stall a = true ∧
  previous_count b = current_count a ∧
  scroll_attempts b = scroll_attempts a + 1 ∧
  no_change_count b =
    (if current_count b =? current_count a then no_change_count a + 1 else 0).
Proof.
  revert st d j. induction fuel as [|fuel IH]; intros st d j; simpl.
  { destruct j; simpl; [done|]. by rewrite lookup_nil. }
  destruct (scroll_guard cap stall st) eqn:Hg.
  2: { destruct j; simpl; [done|]. by rewrite lookup_nil. }
  pose proof (scroll_cycle_state mv st d) as Hst.
  destruct (scroll_cycle caps mv st d) as [[st' d'] broke]. simpl in Hst.
  destruct j as [|j]; simpl.
  - intros [= <-] [= <-]. destruct Hst as (? & ? & _ & ?). done.
  - destruct broke.
    + destruct j; simpl; [done|]. by rewrite lookup_nil.
    + apply IH.
Qed.

End Discovery.

Section Stall.

Context (caps : Capabilities).
Implicit Types (st : ScrollState) (d : D caps) (mv : option Z).

(** After [i + 1] passes in a row that leave the count unchanged, the streak
    is at least [i + 1]. *)
Lemma streak_grows cap stall mv fuel st0 d k i :
  let T := scroll_states caps cap stall mv fuel st0 d in
  (∀ j, k ≤ j < k + S i →
        ∃ st, T !! j = Some st ∧ current_count st = previous_count st) →
  ∃ st, T !! (k + i) = Some st ∧ S i ≤ no_change_count st.
Proof.
  intros T. induction i as [|i IH]; intros Hflat.
  - destruct (Hflat k) as (st & Hst & Heq); [lia|].
    exists st. rewrite Nat.add_0_r. split; [done|].
    assert (∃ a, (st0 :: T) !! k = Some a) as [a Ha].
    { destruct k as [|k]; [by eexists|]. simpl.
      apply lookup_lt_is_Some. apply lookup_lt_Some in Hst. lia. }
    destruct (scroll_states_step caps cap stall mv fuel st0 d k a st Ha Hst)
      as (_ & Hprev & _ & Hnc).
    rewrite Hnc, Heq, Hprev, Nat.eqb_refl. lia.
  - destruct IH as (a & Ha & Hle).
    { intros j Hj. apply Hflat. lia. }
    destruct (Hflat (k + S i)) as (st & Hst & Heq); [lia|].
    exists st. split; [done|].
    assert ((st0 :: T) !! (k + S i) = Some a) as Ha'.
    { replace (k + S i) with (S (k + i)) by lia. done. }
    destruct (scroll_states_step caps cap stall mv fuel st0 d _ a st Ha' Hst)
      as (_ & Hprev & _ & Hnc).
    rewrite Hnc, Heq, Hprev, Nat.eqb_refl. lia.
Qed.

(** A state whose streak has reached the stall cap is the last one. *)
Lemma stalled_is_last cap stall mv fuel st0 d j st :
  let T := scroll_states caps cap stall mv fuel st0 d in
  T !! j = Some st → stall ≤ no_change_count st → length T = S j.
Proof.
  intros T Hst Hle.
  destruct (T !! S j) as [b|] eqn:Hb.
  - destruct (scroll_states_step caps cap stall mv fuel st0 d (S j) st b)
      as (Hg & _); [done..|].
    unfold scroll_guard in Hg. apply andb_prop in Hg as [_ Hg].
    apply Nat.ltb_lt in Hg. lia.
  - apply lookup_ge_None in Hb. apply lookup_lt_Some in Hst. lia.
Qed.

End Stall.

(** C2 (the streak rule, and ten passes in a row without a change end the
    loop whatever the attempt cap): along the states [T] the loop goes
    through, from any starting state and for any attempt cap and any page, a
    pass that leaves the count unchanged adds one to the streak and a pass
    that raises it resets the streak to 0; and when the passes [k+1] to
    [k+10] all leave the count unchanged, the loop makes exactly [k+10]
    passes. *)
Theorem C2_stall_ends_discovery (caps : Capabilities) (cap : nat)
  (mv : option Z) (fuel : nat) (st0 : ScrollState) (d : D caps) :
  let T := scroll_states caps cap max_no_change_attempts mv fuel st0 d in
  (∀ j a b, (st0 :: T) !! j = Some a → (st0 :: T) !! S j = Some b →
     (current_count b = current_count a →
      no_change_count b = no_change_count a + 1) ∧
     (current_count a < current_count b → no_change_count b = 0)) ∧
  (∀ k, (∀ j, k ≤ j < k + 10 →
           ∃ st, T !! j = Some st ∧ current_count st = previous_count st) →
        length T = k + 10) ∧
  (scroll_loop caps cap max_no_change_attempts mv fuel st0 d).1
  = default st0 (last T).
Proof.
  intros T. split_and!.
  - intros j a b Ha Hb.
    destruct (scroll_states_step caps cap _ mv fuel st0 d j a b Ha Hb)
      as (_ & _ & _ & Hnc).
    split; intros H; rewrite Hnc.
    + by rewrite H, Nat.eqb_refl.
    + destruct (Nat.eqb_spec (current_count b) (current_count a)); [lia|done].
  - intros k Hflat. subst T.
    destruct (streak_grows caps cap _ mv fuel st0 d k 9 Hflat) as (st & Hst & Hle).
    rewrite (stalled_is_last caps cap _ mv fuel st0 d (k + 9) st Hst).
    + lia.
    + unfold max_no_change_attempts. lia.
  - apply scroll_loop_last.
Qed.

(** On a page that always shows three entries the first pass changes the
    count and the next ten do not: the loop makes eleven passes. *)
Lemma C2_stall_ends_discovery_witness :
  let T := scroll_states Ex.plain_caps max_scroll_attempts
             max_no_change_attempts None max_scroll_attempts scroll_init
             Ex.flat_session in
  (∀ j, 1 ≤ j < 1 + 10 →
        ∃ st, T !! j = Some st ∧ current_count st = previous_count st) ∧
  length T = 1 + 10.
Proof.
  intros T.
  assert (∀ j, 1 ≤ j < 1 + 10 →
            ∃ st, T !! j = Some st ∧ current_count st = previous_count st) as H.
  { intros j Hj.
    do 11 (destruct j as [|j];
           [first [lia | eexists; split; [vm_compute; reflexivity | reflexivity]]|]).
    lia. }
  split; [exact H|].
  exact (proj1 (proj2 (C2_stall_ends_discovery Ex.plain_caps max_scroll_attempts
                         None max_scroll_attempts scroll_init Ex.flat_session))
           1 H).
Defined.

(** C2 as stated, with no increase in place of no change, fails: on a page
    whose count goes 5, 5, 5, 5, 5, 5 and then 4 for good, passes 2 to 11
    never raise the count, yet the loop goes on to a seventeenth pass,
    because the drop from 5 to 4 reset the streak. *)
Lemma C2_no_increase_counterexample :
  let T := scroll_states Ex.plain_caps max_scroll_attempts
             max_no_change_attempts None max_scroll_attempts scroll_init
             Ex.shrinking_session in
  length T = 17 ∧
  ¬ (∀ k, (∀ j, k ≤ j < k + 10 →
             ∃ st, T !! j = Some st ∧ current_count st ≤ previous_count st) →
          length T = k + 10).
Proof.
  intros T.
  assert (length T = 17) as Hlen by (vm_compute; reflexivity).
  split; [done|]. intros H. specialize (H 1).
  enough (length T = 1 + 10) by lia. apply H. intros j Hj.
  do 11 (destruct j as [|j];
         [first [lia | eexists; split; [vm_compute; reflexivity | vm_compute; lia]]|]).
  lia.
Qed.

(** With a limit the first pass already meets, the loop stops after that
    pass with whatever count it found, be it the limit or more. *)
Lemma discover_first_pass (caps : Capabilities) (m : Z) (d : D caps) :
  (0 < m)%Z →
  (m ≤ Z.of_nat (length (find_elements caps (scroll caps d))))%Z →
  discover caps (Some m) d
  = ({| previous_count := 0;
        current_count := length (find_elements caps (scroll caps d));
        scroll_attempts := 1; no_change_count := 0 |},
     scroll caps d).
Proof.
  intros Hm Hle.
  assert (limit_reached (Some m)
            (length (find_elements caps (scroll caps d))) = true) as Hlim.
  { unfold limit_reached. apply andb_true_intro. split.
    - apply negb_true_iff, Z.eqb_neq. lia.
    - by apply Z.leb_le. }
  assert (scroll_cycle caps (Some m) scroll_init d
          = ({| previous_count := 0;
                current_count := length (find_elements caps (scroll caps d));
                scroll_attempts := 1; no_change_count := 0 |},
             scroll caps d, true)) as Hcycle.
  { unfold scroll_cycle. rewrite Hlim.
    destruct (length (find_elements caps (scroll caps d))) eqn:Hn; [lia|done]. }
  unfold discover, max_scroll_attempts.
  change (scroll_loop caps 100 max_no_change_attempts (Some m) 100 scroll_init d)
    with (let '(st', d', broke) := scroll_cycle caps (Some m) scroll_init d in
          if broke then (st', d')
          else scroll_loop caps 100 max_no_change_attempts (Some m) 99 st' d').
  by rewrite Hcycle.
Qed.

(** C6 (with [max_videos] = M at most the number of entries, discovery stops
    with exactly M entries): with a limit of 3 on a playlist that shows its
    eight entries at once, the first pass counts 8, the loop stops there, all
    eight entries are read, and the run downloads all eight. *)
Theorem C6_limit_is_overshot :
  let session := {| Sim.page := Ex.eight; Sim.scrolls := 0 |} in
  let found := discover Ex.caps_ok (Some 3%Z) session in
  let run := download_playlist Ex.caps_ok Ex.downloads (py "PL8") Ex.limit_3
               (Sim.world Ex.caps_ok []) in
  found.1 = {| previous_count := 0; current_count := 8;
               scroll_attempts := 1; no_change_count := 0 |} ∧
  length (extract_videos Ex.caps_ok (find_elements Ex.caps_ok found.2)) = 8 ∧
  (Summary.total_videos <$> run.1) = Some 8 ∧
  (Summary.success_count <$> run.1) = Some 8 ∧
  length (download_calls (trace run.2)) = 8.
Proof. vm_compute. split_and!; reflexivity. Qed.

(** ** The download loop of a playlist *)

Section DownloadLoop.

Context (caps : Capabilities).
Implicit Types (w : World caps) (videos : list VideoInfo.t) (c : Counters)
  (config : Config) (folder : Path).

Lemma count_result_sum r c : csum (count_result r c) = csum c + 1.
Proof.
  unfold count_result, csum.
  destruct (DownloadResult.success r), (DownloadResult.skipped r); simpl; lia.
Qed.

Lemma count_result_fail r c :
  c_fail (count_result r c)
  = c_fail c + (if DownloadResult.success r then 0 else 1).
Proof.
  unfold count_result.
  destruct (DownloadResult.success r), (DownloadResult.skipped r); simpl; lia.
Qed.

(** The counters grow by one for each video the loop reaches. *)
Lemma download_videos_sum config folder n i videos c w :
  csum (download_videos caps config folder n i videos c w).1
  = csum c + length (outcomes caps config folder n i videos w).
Proof.
  revert i c w. induction videos as [|v videos IH]; intros i c w; simpl; [lia|].
  destruct (download_video_with_ytdlp _ _ _ _ _) as [r w1].
  destruct (negb (DownloadResult.success r) && negb (continue_on_error config)).
  - simpl. rewrite count_result_sum. lia.
  - rewrite IH, count_result_sum. simpl. lia.
Qed.

(** The failure counter grows by one for each failed fetch. *)
Lemma download_videos_fail config folder n i videos c w :
  c_fail (download_videos caps config folder n i videos c w).1
  = c_fail c
    + length (filter (fun r => DownloadResult.success r = false)
                (outcomes caps config folder n i videos w)).
Proof.
  revert i c w. induction videos as [|v videos IH]; intros i c w; simpl; [lia|].
  destruct (download_video_with_ytdlp _ _ _ _ _) as [r w1].
  rewrite filter_cons.
  destruct (negb (DownloadResult.success r) && negb (continue_on_error config)).
  - simpl. rewrite count_result_fail.
    destruct (DownloadResult.success r); case_decide; simpl; done || lia.
  - rewrite IH, count_result_fail.
    destruct (DownloadResult.success r); case_decide; simpl; done || lia.
Qed.

Lemma outcomes_length_le config folder n i videos w :
  length (outcomes caps config folder n i videos w) ≤ length videos.
Proof.
  revert i w. induction videos as [|v videos IH]; intros i w; simpl; [lia|].
  destruct (download_video_with_ytdlp _ _ _ _ _) as [r w1].
  destruct (negb _ && negb _); simpl; [lia|].
  specialize (IH (i + 1) (pause_between caps i n (delay_between_downloads config) w1)).
  lia.
Qed.

(** The loop stops short only under the stop-on-error policy. *)
Lemma outcomes_short config folder n i videos w :
  length (outcomes caps config folder n i videos w) < length videos →
  continue_on_error config = false.
Proof.
  revert i w. induction videos as [|v videos IH]; intros i w; simpl; [lia|].
  destruct (download_video_with_ytdlp _ _ _ _ _) as [r w1].
  destruct (negb (DownloadResult.success r) && negb (continue_on_error config)) eqn:Hb.
  - intros _. apply andb_prop in Hb as [_ Hb]. by apply negb_true_iff in Hb.
  - simpl. intros H. eapply IH. apply Nat.succ_lt_mono. exact H.
Qed.

(** Under the stop-on-error policy a failed fetch is the last one, and every
    fetch before it succeeded. *)
Lemma outcomes_stop config folder n i videos w k r :
  continue_on_error config = false →
  outcomes caps config folder n i videos w !! k = Some r →
  DownloadResult.success r = false →
  length (outcomes caps config folder n i videos w) = S k ∧
  length (filter (fun r => DownloadResult.success r = false)
            (outcomes caps config folder n i videos w)) = 1.
Proof.
  intros Hstop. revert i w k.
  induction videos as [|v videos IH]; intros i w k; simpl; [done|].
  destruct (download_video_with_ytdlp _ _ _ _ _) as [r1 w1].
  rewrite Hstop, andb_true_r.
  destruct (DownloadResult.success r1) eqn:Hs1; simpl.
  - destruct k as [|k]; simpl.
    + intros [= <-] Hr. congruence.
    + intros Hk Hr. destruct (IH _ _ _ Hk Hr) as [Hl Hf].
      rewrite filter_cons_False by (simpl; congruence). by rewrite Hl, Hf.
  - destruct k as [|k]; simpl; [|done].
    intros _ _. by rewrite filter_cons_True.
Qed.

(** The loop does to the world and to the counters exactly what it does on
    the videos it reached: the others play no part. *)
Lemma download_videos_prefix config folder n i videos c w :
  download_videos caps config folder n i videos c w
  = download_videos caps config folder n i
      (take (length (outcomes caps config folder n i videos w)) videos) c w.
Proof.
  revert i c w. induction videos as [|v videos IH]; intros i c w; simpl; [done|].
  destruct (download_video_with_ytdlp _ _ _ _ _) as [r w1] eqn:Hd.
  destruct (negb (DownloadResult.success r) && negb (continue_on_error config)) eqn:Hb;
    simpl; rewrite Hd, Hb; [done|]. apply IH.
Qed.

End DownloadLoop.

(** ** One playlist *)

Section Playlist.

Context (caps : Capabilities) (download_folder : Path).
Implicit Types (w : World caps) (videos : list VideoInfo.t) (config : Config)
  (url : pystr).

Lemma download_playlist_of_run url config w playlist_info videos folder w1 :
  playlist_run caps download_folder url config w playlist_info videos folder w1 →
  download_playlist caps download_folder url config w
  = (Some (summary_of config playlist_info videos folder
             (download_videos caps config folder (length videos) 0 videos
                counters_init w1).1),
     tell caps EvCleanup (cleanup_debug_files caps)
       (download_videos caps config folder (length videos) 0 videos
          counters_init w1).2).
Proof.
  intros (found & w0 & Hext & Hne & -> & Hprep).
  unfold download_playlist, download_playlist_try, bind.
  rewrite Hext. rewrite bool_decide_eq_false_2 by done.
  rewrite Hprep.
  by destruct (download_videos _ _ _ _ _ _ _ _) as [c w2].
Qed.

Lemma download_playlist_inv url config w s w' :
  download_playlist caps download_folder url config w = (Some s, w') →
  ∃ playlist_info videos folder w1,
    playlist_run caps download_folder url config w playlist_info videos folder w1.
Proof.
  unfold download_playlist, download_playlist_try, bind.
  destruct (extract_playlist_urls _ _ _ _ _) as [[[pi found]|msg] w0] eqn:Hext;
    [|done].
  destruct (bool_decide (found = [])) eqn:Hnil; [done|].
  apply bool_decide_eq_false in Hnil.
  destruct (prepare_folder _ _ _ _ _ _ _) as [[folder|msg] w1] eqn:Hprep; [|done].
  intros _.
  exists pi, (assign_download_index (sort_videos (sort_order config) found)),
    folder, w1.
  exists found, w0. done.
Qed.

(** Whatever happens in the [try] block, [download_playlist] returns. *)
Lemma download_playlist_none_on_raise url config w msg w0 :
  extract_playlist_urls caps url (headless config) (max_videos config) w
  = (Raise msg, w0) →
  download_playlist caps download_folder url config w
  = (None, tell caps EvCleanup (cleanup_debug_files caps) w0).
Proof.
  intros H. unfold download_playlist, download_playlist_try, bind. by rewrite H.
Qed.

Lemma download_playlist_none_on_empty url config w playlist_info w0 :
  extract_playlist_urls caps url (headless config) (max_videos config) w
  = (Ok (playlist_info, []), w0) →
  download_playlist caps download_folder url config w = (None, w0).
Proof.
  intros H. unfold download_playlist, download_playlist_try, bind. by rewrite H.
Qed.

End Playlist.

(** C1 (summary arithmetic), as the code has it: a run that returns a
    summary has extracted a non-empty list, sorted it, and gone through the
    download loop; [total_videos] is the length of the sorted list and the
    three counters add up to the number of videos the loop reached.  So a run
    that reaches every video has counters adding up to [total_videos], and a
    run that stops short, which happens only under the stop-on-error policy,
    has counters adding up to strictly less. *)
Theorem C1_summary_arithmetic (caps : Capabilities) (download_folder : Path)
  (url : pystr) (config : Config) (w : World caps) (s : Summary.t)
  (w' : World caps) :
  download_playlist caps download_folder url config w = (Some s, w') →
  ∃ playlist_info videos folder w1,
    playlist_run caps download_folder url config w playlist_info videos folder w1 ∧
    let reached :=
      length (outcomes caps config folder (length videos) 0 videos w1) in
    Summary.total_videos s = length videos ∧
    counted s = reached ∧
    (reached = length videos → counted s = Summary.total_videos s) ∧
    (reached < length videos →
     continue_on_error config = false ∧ counted s < Summary.total_videos s).
Proof.
  intros Hrun.
  destruct (download_playlist_inv _ _ _ _ _ _ _ Hrun)
    as (playlist_info & videos & folder & w1 & Hpre).
  exists playlist_info, videos, folder, w1. split; [done|].
  rewrite (download_playlist_of_run _ _ _ _ _ _ _ _ _ Hpre) in Hrun.
  injection Hrun as <- _.
  pose proof (download_videos_sum caps config folder (length videos) 0 videos
                counters_init w1) as Hsum.
  unfold csum in Hsum. unfold counted, summary_of. simpl in *.
  split_and!; [done|lia|lia|].
  intros Hlt. split; [by eapply outcomes_short|lia].
Qed.

(** Five videos, the third fails, stop on error: the counters add up to 3
    of 5. *)
Lemma C1_summary_arithmetic_witness :
  let s := summary_of Ex.stop_on_error Ex.five_info Ex.five_videos
             Ex.five_folder {| c_success := 2; c_fail := 1; c_skipped := 0 |} in
  let w' := (download_playlist Ex.caps Ex.downloads (py "PL5")
               Ex.stop_on_error Ex.five_world).2 in
  download_playlist Ex.caps Ex.downloads (py "PL5") Ex.stop_on_error
    Ex.five_world = (Some s, w') ∧
  ∃ playlist_info videos folder w1,
    playlist_run Ex.caps Ex.downloads (py "PL5") Ex.stop_on_error
      Ex.five_world playlist_info videos folder w1 ∧
    Summary.total_videos s = length videos ∧
    counted s
    = length (outcomes Ex.caps Ex.stop_on_error folder (length videos) 0
                videos w1).
Proof.
  intros s w'.
  assert (download_playlist Ex.caps Ex.downloads (py "PL5") Ex.stop_on_error
            Ex.five_world = (Some s, w')) as Hrun by (vm_compute; reflexivity).
  split; [exact Hrun|].
  destruct (C1_summary_arithmetic Ex.caps Ex.downloads (py "PL5")
              Ex.stop_on_error Ex.five_world s w' Hrun)
    as (playlist_info & videos & folder & w1 & Hpre & Htot & Hsum & _).
  exists playlist_info, videos, folder, w1. split_and!; assumption.
Defined.

(** C1 as stated fails in its last part: nothing in what the run returns
    records the abort.  With five videos of which the third fails, the run
    that stops on the error reaches 3 of 5 videos, the run that goes on
    reaches all 5, and the two summaries agree on every field but the
    counters; the calls of the aborted run are calls of the completed one,
    followed by the cleanup. *)
Lemma C1_abort_not_recorded :
  let aborted := download_playlist Ex.caps Ex.downloads (py "PL5")
                   Ex.stop_on_error (Sim.world Ex.caps []) in
  let completed := download_playlist Ex.caps Ex.downloads (py "PL5")
                     Ex.go_on (Sim.world Ex.caps []) in
  ∃ sa sb,
    aborted.1 = Some sa ∧ completed.1 = Some sb ∧
    counted sa = 3 ∧ Summary.total_videos sa = 5 ∧
    counted sb = 5 ∧ Summary.total_videos sb = 5 ∧
    same_but_counters sa sb ∧
    trace aborted.2 = take 8 (trace completed.2) ++ [EvCleanup].
Proof.
  vm_compute. do 2 eexists. split_and!; reflexivity.
Qed.

(** C8 (stop on the first failed video): in a run with [continue_on_error]
    off, when the fetch of the video at position [k + 1] of the sorted list
    fails, the loop reaches exactly [k + 1] videos and acts on the world as
    it would on the first [k + 1] videos alone; the run still returns a
    summary, with one failure, [k] videos succeeded or skipped, and
    [total_videos] the length of the whole list. *)
Theorem C8_stop_on_first_failure (caps : Capabilities) (download_folder : Path)
  (url : pystr) (config : Config) (w : World caps)
  (playlist_info : PlaylistInfo.t) (videos : list VideoInfo.t) (folder : Path)
  (w1 : World caps) (k : nat) (r : DownloadResult.t) :
  continue_on_error config = false →
  playlist_run caps download_folder url config w playlist_info videos folder w1 →
  outcomes caps config folder (length videos) 0 videos w1 !! k = Some r →
  DownloadResult.success r = false →
  length (outcomes caps config folder (length videos) 0 videos w1) = S k ∧
  download_videos caps config folder (length videos) 0 videos counters_init w1
  = download_videos caps config folder (length videos) 0 (take (S k) videos)
      counters_init w1 ∧
  ∃ s w', download_playlist caps download_folder url config w = (Some s, w') ∧
          Summary.fail_count s = 1 ∧
          Summary.success_count s + Summary.skipped_count s = k ∧
          Summary.total_videos s = length videos.
Proof.
  intros Hstop Hpre Hk Hfail.
  destruct (outcomes_stop caps config folder _ 0 videos w1 k r Hstop Hk Hfail)
    as [Hlen Hone].
  split; [done|]. split.
  { rewrite <- Hlen. apply download_videos_prefix. }
  rewrite (download_playlist_of_run _ _ _ _ _ _ _ _ _ Hpre).
  do 2 eexists. split; [reflexivity|].
  pose proof (download_videos_sum caps config folder (length videos) 0 videos
                counters_init w1) as Hsum.
  pose proof (download_videos_fail caps config folder (length videos) 0 videos
                counters_init w1) as Hf.
  rewrite Hlen in Hsum. rewrite Hone in Hf.
  unfold csum in Hsum. unfold summary_of. simpl in *.
  split_and!; [lia|lia|done].
Qed.

(** Five videos, the third fails: the loop reaches three videos, two succeed
    and one fails. *)
Lemma C8_stop_on_first_failure_witness :
  length (outcomes Ex.caps Ex.stop_on_error Ex.five_folder
            (length Ex.five_videos) 0 Ex.five_videos Ex.five_ready) = 3 ∧
  ∃ s w', download_playlist Ex.caps Ex.downloads (py "PL5") Ex.stop_on_error
            Ex.five_world = (Some s, w') ∧
          Summary.fail_count s = 1 ∧
          Summary.success_count s + Summary.skipped_count s = 2 ∧
          Summary.total_videos s = length Ex.five_videos.
Proof.
  assert (playlist_run Ex.caps Ex.downloads (py "PL5") Ex.stop_on_error
            Ex.five_world Ex.five_info Ex.five_videos Ex.five_folder
            Ex.five_ready) as Hpre.
  { exists Ex.five_found, Ex.five_extracted.2. split_and!.
    - vm_compute. reflexivity.
    - intros H. vm_compute in H. discriminate.
    - vm_compute. reflexivity.
    - vm_compute. reflexivity. }
  assert (outcomes Ex.caps Ex.stop_on_error Ex.five_folder
            (length Ex.five_videos) 0 Ex.five_videos Ex.five_ready !! 2
          = Some Ex.third_result) as Hk by (vm_compute; reflexivity).
  destruct (C8_stop_on_first_failure Ex.caps Ex.downloads (py "PL5")
              Ex.stop_on_error Ex.five_world Ex.five_info Ex.five_videos
              Ex.five_folder Ex.five_ready 2 Ex.third_result
              eq_refl Hpre Hk eq_refl) as (Hlen & _ & Hsum).
  split; [exact Hlen | exact Hsum].
Defined.

(** ** Ordering *)

Lemma sort_videos_playlist {A} (videos : list A) :
  sort_videos (py "playlist") videos = videos.
Proof. reflexivity. Qed.

Lemma sort_videos_reverse {A} (videos : list A) :
  sort_videos (py "reverse") videos = reverse videos.
Proof. reflexivity. Qed.

Lemma sort_videos_upload {A} (videos : list A) :
  sort_videos (py "upload") videos = reverse videos.
Proof. reflexivity. Qed.

(** Whatever the order asked for, the result is the list or its reverse. *)
Lemma sort_videos_cases {A} (order : pystr) (videos : list A) :
  sort_videos order videos = videos ∨ sort_videos order videos = reverse videos.
Proof. unfold sort_videos. repeat case_bool_decide; auto. Qed.

Lemma sort_videos_fmap {A B} (f : A → B) (order : pystr) (videos : list A) :
  f <$> sort_videos order videos = sort_videos order (f <$> videos).
Proof. unfold sort_videos. repeat case_bool_decide; by rewrite ?fmap_reverse. Qed.

Lemma length_sort_videos {A} (order : pystr) (videos : list A) :
  length (sort_videos order videos) = length videos.
Proof. unfold sort_videos. repeat case_bool_decide; by rewrite ?length_reverse. Qed.

(** Indexing touches nothing but [download_index]. *)
Lemma assign_download_index_lookup (videos : list VideoInfo.t) i v :
  videos !! i = Some v →
  assign_download_index videos !! i = Some (VideoInfo.set_download_index (i + 1) v).
Proof.
  intros H. unfold assign_download_index. by rewrite list_lookup_imap, H.
Qed.

Lemma length_assign_download_index (videos : list VideoInfo.t) :
  length (assign_download_index videos) = length videos.
Proof. apply length_imap. Qed.

(** C7 (sort order): [playlist] leaves the discovered sequence as it is;
    [reverse] and [upload] both give its exact reverse, so the two are the
    same transformation. *)
Theorem C7_sort_order (videos : list VideoInfo.t) :
  sort_videos (py "playlist") videos = videos ∧
  sort_videos (py "reverse") videos = reverse videos ∧
  sort_videos (py "upload") videos = reverse videos ∧
  sort_videos (py "reverse") videos = sort_videos (py "upload") videos.
Proof. split_and!; reflexivity. Qed.

(** ** Download indices *)

Section Indices.

Implicit Types (h : Heap) (refs written : list nat) (values : list VideoInfo.t).

Lemma alloc_videos_spec values next h :
  let '(refs, h') := alloc_videos values next h in
  refs = seq next (length values) ∧
  (∀ j v, values !! j = Some v → h' !! (next + j) = Some v) ∧
  (∀ a, a < next → h' !! a = h !! a).
Proof.
  revert next h. induction values as [|v values IH]; intros next h; simpl.
  { split_and!; [done| |done]. intros j v. by rewrite lookup_nil. }
  specialize (IH (next + 1) (<[next:=v]> h)).
  destruct (alloc_videos values (next + 1) (<[next:=v]> h)) as [refs h'].
  destruct IH as (-> & Hin & Hout). split_and!.
  - by rewrite Nat.add_1_r.
  - intros [|j] v'; simpl.
    + intros [= <-]. rewrite Nat.add_0_r, Hout by lia. apply lookup_insert_eq.
    + intros Hj. replace (next + S j) with (next + 1 + j) by lia. by apply Hin.
  - intros a Ha. rewrite Hout by lia. apply lookup_insert_ne. lia.
Qed.

Lemma elem_of_seq_offset next n r :
  r ∈ seq next n → ∃ j, r = next + j ∧ j < n.
Proof.
  intros H%elem_of_seq. exists (r - next). lia.
Qed.

Lemma deref_lookup h refs :
  (∀ r, r ∈ refs → is_Some (h !! r)) →
  ∀ j, deref h refs !! j = refs !! j ≫= (fun r => h !! r).
Proof.
  unfold deref. induction refs as [|r refs IH]; intros Hall j; [done|].
  destruct (Hall r) as [v Hv]; [by constructor|].
  simpl. rewrite Hv. simpl. destruct j as [|j]; simpl; [done|].
  apply IH. intros r' Hr'. apply Hall. by constructor.
Qed.

Lemma deref_reverse h refs : deref h (reverse refs) = reverse (deref h refs).
Proof.
  unfold deref. induction refs as [|r refs IH]; [done|].
  rewrite reverse_cons, omap_app, IH. simpl.
  destruct (h !! r); simpl; [by rewrite reverse_cons | by rewrite app_nil_r].
Qed.

Lemma deref_sort_videos order h refs :
  deref h (sort_videos order refs) = sort_videos order (deref h refs).
Proof. unfold sort_videos. repeat case_bool_decide; by rewrite ?deref_reverse. Qed.

Lemma deref_alloc values next h :
  deref (alloc_videos values next h).2 (alloc_videos values next h).1 = values.
Proof.
  pose proof (alloc_videos_spec values next h) as H.
  destruct (alloc_videos values next h) as [refs h']. simpl.
  destruct H as (-> & Hin & _).
  apply list_eq. intros j. rewrite deref_lookup.
  - destruct (values !! j) as [v|] eqn:Hv.
    + rewrite (lookup_seq_lt _ _ _ (lookup_lt_Some _ _ _ Hv)). simpl. by apply Hin.
    + apply lookup_ge_None in Hv. by rewrite lookup_seq_ge.
  - intros r (j' & -> & Hj')%elem_of_seq_offset.
    destruct (lookup_lt_is_Some_2 values j' Hj') as [v Hv].
    exists v. by apply Hin.
Qed.

(** The loop writes, in order, the objects its list refers to; when they are
    distinct each one ends with the index of its own position. *)
Lemma assign_loop_spec refs i h written :
  NoDup refs →
  let '(h', written') := assign_loop i refs h written in
  written' = written ++ refs ∧
  (∀ j r, refs !! j = Some r →
          h' !! r = VideoInfo.set_download_index (i + j + 1) <$> h !! r) ∧
  (∀ a, a ∉ refs → h' !! a = h !! a).
Proof.
  revert i h written. induction refs as [|r refs IH]; intros i h written Hnd; simpl.
  { rewrite app_nil_r. split_and!; [done| |done]. intros j r. by rewrite lookup_nil. }
  apply NoDup_cons in Hnd as [Hr Hnd].
  specialize (IH (i + 1) (alter (VideoInfo.set_download_index (i + 1)) r h)
                (written ++ [r]) Hnd).
  destruct (assign_loop _ refs _ _) as [h' written'].
  destruct IH as (-> & Hin & Hout). split_and!.
  - by rewrite <- app_assoc.
  - intros [|j] r'; simpl.
    + intros [= <-]. rewrite Hout by done.
      rewrite lookup_alter_eq, Nat.add_0_r. done.
    + intros Hj. rewrite (Hin _ _ Hj).
      rewrite lookup_alter_ne.
      * by replace (i + 1 + j + 1) with (i + S j + 1) by lia.
      * intros <-. apply Hr. by eapply list_elem_of_lookup_2.
  - intros a [Hne Ha]%not_elem_of_cons.
    rewrite Hout by done. by apply lookup_alter_ne.
Qed.

Lemma assign_loop_deref refs h :
  NoDup refs → (∀ r, r ∈ refs → is_Some (h !! r)) →
  deref (assign_loop 0 refs h []).1 refs = assign_download_index (deref h refs).
Proof.
  intros Hnd Hall.
  pose proof (assign_loop_spec refs 0 h [] Hnd) as H.
  destruct (assign_loop 0 refs h []) as [h' written]. simpl.
  destruct H as (_ & Hin & _).
  apply list_eq. intros j. unfold assign_download_index.
  rewrite list_lookup_imap, !deref_lookup; [|done|].
  - destruct (refs !! j) as [r|] eqn:Hr; [|done]. simpl.
    by rewrite (Hin _ _ Hr).
  - intros r (j' & Hj')%list_elem_of_lookup_1.
    rewrite (Hin _ _ Hj'). destruct (Hall r) as [v ->]; [|by eexists].
    by eapply list_elem_of_lookup_2.
Qed.

Lemma assign_download_index_indices values :
  omap VideoInfo.download_index (assign_download_index values)
  = seq 1 (length values).
Proof.
  unfold assign_download_index.
  assert (∀ k, omap VideoInfo.download_index
                 (imap (fun i v => VideoInfo.set_download_index (k + i + 1) v) values)
               = seq (k + 1) (length values)) as Hgen.
  { induction values as [|v values IH]; intros k; [done|].
    simpl. rewrite Nat.add_0_r. f_equal.
    change (seq (S (k + 1)) (length values))
      with (seq (S k + 1) (length values)).
    rewrite <- (IH (S k)). f_equal. apply imap_ext. intros i x _. simpl.
    unfold VideoInfo.set_download_index. do 2 f_equal. lia. }
  apply (Hgen 0).
Qed.

End Indices.

(** C9 (download positions): the extraction allocates one object for each
    video, the sort keeps or reverses the list of references, and the index
    loop writes through them.  Each object is written exactly once; the
    video at position [i] of the sorted list (counted from 0) gets index
    [i + 1]; and the indices over the sorted list are 1 to N in order, so a
    permutation of 1..N. *)
Theorem C9_download_index (values : list VideoInfo.t) (order : pystr)
  (next : nat) (h : Heap) :
  let refs := sort_videos order (alloc_videos values next h).1 in
  let h0 := (alloc_videos values next h).2 in
  let h1 := (assign_loop 0 refs h0 []).1 in
  let written := (assign_loop 0 refs h0 []).2 in
  let sorted := deref h1 refs in
  written = refs ∧ NoDup written ∧
  sorted = assign_download_index (sort_videos order values) ∧
  length sorted = length values ∧
  (∀ i v, sorted !! i = Some v → VideoInfo.download_index v = Some (i + 1)) ∧
  omap VideoInfo.download_index sorted = seq 1 (length values) ∧
  omap VideoInfo.download_index sorted ≡ₚ seq 1 (length values).
Proof.
  intros refs h0 h1 written sorted.
  pose proof (alloc_videos_spec values next h) as Halloc.
  pose proof (deref_alloc values next h) as Hderef.
  destruct (alloc_videos values next h) as [refs0 h0'] eqn:Ha.
  simpl in refs, h0, Hderef. subst h0.
  destruct Halloc as (Hrefs0 & Hin & _).
  assert (NoDup refs) as Hnd.
  { unfold refs. destruct (sort_videos_cases order refs0) as [-> | ->];
      rewrite Hrefs0; [|rewrite reverse_Permutation]; apply NoDup_seq. }
  assert (∀ r, r ∈ refs → is_Some (h0' !! r)) as Hall.
  { intros r Hr.
    assert (r ∈ refs0) as Hr0.
    { unfold refs in Hr. destruct (sort_videos_cases order refs0) as [H | H];
        rewrite H in Hr; [done | by apply elem_of_reverse]. }
    rewrite Hrefs0 in Hr0. apply elem_of_seq_offset in Hr0 as (j & -> & Hj).
    destruct (lookup_lt_is_Some_2 values j Hj) as [v Hv].
    exists v. by apply Hin. }
  assert (sorted = assign_download_index (sort_videos order values)) as Hsorted.
  { unfold sorted, h1. rewrite assign_loop_deref by done.
    unfold refs. by rewrite deref_sort_videos, Hderef. }
  pose proof (assign_loop_spec refs 0 h0' [] Hnd) as Hloop.
  unfold written. destruct (assign_loop 0 refs h0' []) as [h1' written'].
  destruct Hloop as (-> & _ & _). simpl.
  split_and!; try done.
  - rewrite Hsorted, length_assign_download_index. apply length_sort_videos.
  - rewrite Hsorted. intros i v Hv.
    unfold assign_download_index in Hv. rewrite list_lookup_imap in Hv.
    destruct (sort_videos order values !! i); simpl in Hv; [|done].
    by injection Hv as <-.
  - rewrite Hsorted, assign_download_index_indices. by rewrite length_sort_videos.
  - rewrite Hsorted, assign_download_index_indices. by rewrite length_sort_videos.
Qed.

(** Three videos downloaded in reverse order: the last one discovered is
    first in the sorted list and gets index 1. *)
Lemma C9_download_index_witness :
  let values := [VideoInfo.mk (py "one") (Ex.watch_n 1) 1 None None;
                 VideoInfo.mk (py "two") (Ex.watch_n 2) 2 None None;
                 VideoInfo.mk (py "three") (Ex.watch_n 3) 3 None None] in
  let refs := sort_videos (py "reverse") (alloc_videos values 0 ∅).1 in
  let h1 := (assign_loop 0 refs (alloc_videos values 0 ∅).2 []).1 in
  deref h1 refs !! 0
  = Some (VideoInfo.mk (py "three") (Ex.watch_n 3) 3 None (Some 1)) ∧
  VideoInfo.download_index
    (VideoInfo.mk (py "three") (Ex.watch_n 3) 3 None (Some 1)) = Some (0 + 1) ∧
  omap VideoInfo.download_index (deref h1 refs) = seq 1 3.
Proof.
  intros values refs h1.
  pose proof (C9_download_index values (py "reverse") 0 ∅) as H.
  cbv zeta in H. destruct H as (_ & _ & _ & _ & Hidx & Hseq & _).
  assert (deref h1 refs !! 0
          = Some (VideoInfo.mk (py "three") (Ex.watch_n 3) 3 None (Some 1)))
    as H0 by (vm_compute; reflexivity).
  split; [exact H0|]. split; [exact (Hidx 0 _ H0) | exact Hseq].
Defined.

(** ** What a run leaves behind *)

Section Traces.

Context (caps : Capabilities) (download_folder : Path).
Implicit Types (w : World caps) (videos : list VideoInfo.t) (config : Config)
  (url : pystr).

Lemma extract_videos_unindexed (elements : list Element) v :
  v ∈ extract_videos caps elements → VideoInfo.download_index v = None.
Proof.
  unfold extract_videos. intros (o & Ho & Hv)%list_elem_of_omap.
  simpl in Hv. subst o.
  apply list_elem_of_lookup_1 in Ho as [i Hi].
  rewrite list_lookup_imap in Hi.
  destruct (elements !! i) as [e|]; simpl in Hi; [|done].
  injection Hi as Hi. unfold extract_video in Hi.
  destruct (video_title_link e) as [[[href|] text]|]; try done.
  destruct (_ || _); [done|]. by injection Hi as <-.
Qed.

Lemma metadata_total_videos d :
  PlaylistInfo.total_videos (_extract_playlist_metadata caps d) = 0.
Proof. reflexivity. Qed.

Lemma extract_playlist_urls_inv url h mv w playlist_info found w0 :
  extract_playlist_urls caps url h mv w = (Ok (playlist_info, found), w0) →
  PlaylistInfo.total_videos playlist_info = 0 ∧
  (∀ v, v ∈ found → VideoInfo.download_index v = None) ∧
  trace w0 = trace w ++ [EvLaunch url h].
Proof.
  unfold extract_playlist_urls, bind, call.
  destruct (launch caps url h (ext w)) as [[d|msg] x]; [|done].
  destruct (discover caps mv d) as [st d']. unfold ret.
  intros [= <- <- <-]. split_and!; [done| |done].
  intros v. apply extract_videos_unindexed.
Qed.

Lemma prepare_folder_trace config playlist_info url videos w folder w1 :
  prepare_folder caps download_folder config playlist_info url videos w
  = (Ok folder, w1) →
  create_playlist_folder config = true →
  ∃ path md, trace w1 = trace w ++ [EvMkdir folder; EvWriteJson path md] ∧
             Metadata.total_videos md = length videos.
Proof.
  unfold prepare_folder, bind, call, ret. intros H Hc. rewrite Hc in H. revert H.
  destruct (mkdir caps _ (ext w)) as [[[]|msg] x1]; [|done]. simpl.
  destruct (write_json caps _ _ x1) as [[[]|msg] x2]; [|done].
  intros [= <- <-]. simpl. do 2 eexists. split.
  - by rewrite <- app_assoc.
  - done.
Qed.

Lemma fetch_trace url title folder w :
  trace w `prefix_of` trace (download_video_with_ytdlp caps url title folder w).2.
Proof.
  unfold download_video_with_ytdlp. destruct (negb _); [done|].
  unfold call. destruct (ydl_download caps _ _ _) as [[?|?] ?]; simpl;
    by apply prefix_app_r.
Qed.

Lemma pause_between_trace i n delay w :
  trace w `prefix_of` trace (pause_between caps i n delay w).
Proof.
  unfold pause_between. destruct (_ && _); [|done]. by apply prefix_app_r.
Qed.

Lemma download_videos_trace config folder n i videos c w :
  trace w `prefix_of` trace (download_videos caps config folder n i videos c w).2.
Proof.
  revert i c w. induction videos as [|v videos IH]; intros i c w; simpl; [done|].
  pose proof (fetch_trace (VideoInfo.url v) (VideoInfo.title v) folder w) as Hf.
  destruct (download_video_with_ytdlp _ _ _ _ _) as [r w1]. simpl in Hf.
  destruct (_ && _); simpl; [done|].
  etrans; [exact Hf|]. etrans; [apply pause_between_trace|]. apply IH.
Qed.

End Traces.

(** ** The batch *)

Section Batch.

Context (caps : Capabilities) (download_folder : Path).
Implicit Types (w : World caps) (config : Config) (url : pystr) (a : BatchAcc)
  (run : pystr → Config → M caps (option Summary.t)).

(** The [except] branch, for any per-playlist function that raises: the
    failure is recorded with the URL and the message, the failure counter
    grows, and the loop stops there unless told to go on. *)
Lemma batch_loop_raise run config n i url urls a w e w1 :
  run url config w = (Raise e, w1) →
  batch_loop caps run config n i (url :: urls) a w
  = if continue_on_playlist_error config
    then batch_loop caps run config n (i + 1) urls (record_error url e a)
           (pause_between_playlists caps i n (delay_between_playlists config) w1)
    else (record_error url e a, w1).
Proof. intros H. simpl. rewrite H. by destruct (continue_on_playlist_error _). Qed.

(** A per-playlist function that returns [None] leaves no mark. *)
Lemma batch_loop_none run config n i url urls a w w1 :
  run url config w = (Ok None, w1) →
  batch_loop caps run config n i (url :: urls) a w
  = batch_loop caps run config n (i + 1) urls a
      (pause_between_playlists caps i n (delay_between_playlists config) w1).
Proof. intros H. simpl. by rewrite H. Qed.

(** With [download_playlist] as the per-playlist function the [except]
    branch is never taken: the failure counter stays where it is and every
    entry added is a success entry, whose playlist information counts no
    videos. *)
Lemma batch_loop_run_playlist config n i urls a w :
  b_total_playlists_failed
    (batch_loop caps (run_playlist caps download_folder) config n i urls a w).1
  = b_total_playlists_failed a ∧
  ∃ new,
    b_results
      (batch_loop caps (run_playlist caps download_folder) config n i urls a w).1
    = b_results a ++ new ∧
    Forall entry_counts_none new ∧ length new ≤ length urls.
Proof.
  revert i a w. induction urls as [|url urls IH]; intros i a w; simpl.
  { split; [done|]. exists []. by rewrite app_nil_r. }
  destruct (download_playlist caps download_folder url config w) as [[s|] w1] eqn:Hrun.
  - assert (run_playlist caps download_folder url config w = (Ok (Some s), w1))
      as Hrp by (unfold run_playlist; by rewrite Hrun).
    rewrite !Hrp.
    destruct (IH (i + 1) (record_success url s a)
                (pause_between_playlists caps i n (delay_between_playlists config) w1))
      as (Hf & new & Hnew & Hall & Hlen).
    split; [by rewrite Hf|].
    eexists (_ :: new). rewrite Hnew. simpl. rewrite <- app_assoc. simpl.
    split; [reflexivity|]. split; [|simpl; lia].
    constructor; [|done]. simpl.
    destruct (download_playlist_inv _ _ _ _ _ _ _ Hrun)
      as (pi & videos & folder & w0 & Hpre).
    rewrite (download_playlist_of_run _ _ _ _ _ _ _ _ _ Hpre) in Hrun.
    injection Hrun as <- _. simpl.
    destruct Hpre as (found & w00 & Hext & _).
    by apply extract_playlist_urls_inv in Hext as (? & _).
  - assert (run_playlist caps download_folder url config w = (Ok None, w1))
      as Hrp by (unfold run_playlist; by rewrite Hrun).
    rewrite !Hrp.
    destruct (IH (i + 1) a
                (pause_between_playlists caps i n (delay_between_playlists config) w1))
      as (Hf & new & Hnew & Hall & Hlen).
    split; [done|]. exists new. split_and!; [done|done|lia].
Qed.

(** What a summary returned by [download_playlist] holds: the playlist
    information is the record extraction returned, whose count is 0, and
    the summary's own total is the number of videos extraction found. *)
Lemma run_summary_info url config w s w' :
  download_playlist caps download_folder url config w = (Some s, w') →
  PlaylistInfo.total_videos (Summary.playlist_info s) = 0 ∧
  ∃ found w0,
    extract_playlist_urls caps url (headless config) (max_videos config) w
    = (Ok (Summary.playlist_info s, found), w0) ∧
    Summary.total_videos s = length found.
Proof.
  intros Hrun.
  destruct (download_playlist_inv _ _ _ _ _ _ _ Hrun)
    as (pi & videos & folder & w1 & Hpre).
  rewrite (download_playlist_of_run _ _ _ _ _ _ _ _ _ Hpre) in Hrun.
  injection Hrun as <- _.
  destruct Hpre as (found & w0 & Hext & _ & -> & _).
  cbn [summary_of Summary.playlist_info Summary.total_videos].
  split; [by apply extract_playlist_urls_inv in Hext as (? & _)|].
  exists found, w0. split; [done|].
  by rewrite length_assign_download_index, length_sort_videos.
Qed.

(** Every entry the batch adds is the summary of a run of
    [download_playlist] on one of the URLs, field by field and under that
    URL; the first entry added is the one of the first URL when its run
    returns a summary. *)
Lemma batch_loop_entries config n i urls a w :
  ∃ new,
    b_results
      (batch_loop caps (run_playlist caps download_folder) config n i urls a w).1
    = b_results a ++ new ∧
    Forall (fun e =>
              ∃ url w1 s w1',
                url ∈ urls ∧
                download_playlist caps download_folder url config w1
                = (Some s, w1') ∧
                e = EntryOk url (Summary.playlist_info s)
                      (Summary.success_count s) (Summary.skipped_count s)
                      (Summary.fail_count s) (Summary.total_videos s)
                      (Summary.playlist_folder s)) new ∧
    ∀ url urls' s w1,
      urls = url :: urls' →
      download_playlist caps download_folder url config w = (Some s, w1) →
      head new
      = Some (EntryOk url (Summary.playlist_info s)
                (Summary.success_count s) (Summary.skipped_count s)
                (Summary.fail_count s) (Summary.total_videos s)
                (Summary.playlist_folder s)).
Proof.
  revert i a w. induction urls as [|url urls IH]; intros i a w.
  { exists []. cbn [batch_loop fst]. rewrite app_nil_r.
    split_and!; [done | constructor | done]. }
  cbn [batch_loop].
  destruct (download_playlist caps download_folder url config w) as [[s|] w1]
    eqn:Hrun.
  - assert (run_playlist caps download_folder url config w = (Ok (Some s), w1))
      as Hrp by (unfold run_playlist; by rewrite Hrun).
    rewrite Hrp.
    destruct (IH (i + 1) (record_success url s a)
                (pause_between_playlists caps i n (delay_between_playlists config) w1))
      as (new & Hnew & Hall & _).
    eexists (_ :: new). rewrite Hnew.
    cbn [record_success b_results]. rewrite <- app_assoc.
    split; [reflexivity|]. split.
    + constructor.
      * exists url, w, s, w1. split; [apply list_elem_of_here | done].
      * eapply Forall_impl; [exact Hall|].
        intros e (u & w2 & s2 & w2' & Hin & Hr & He).
        exists u, w2, s2, w2'. split; [by apply list_elem_of_further | done].
    + intros url0 urls0 s0 w0 [= <- <-] Hr. rewrite Hrun in Hr.
      injection Hr as <- <-. reflexivity.
  - assert (run_playlist caps download_folder url config w = (Ok None, w1))
      as Hrp by (unfold run_playlist; by rewrite Hrun).
    rewrite Hrp.
    destruct (IH (i + 1) a
                (pause_between_playlists caps i n (delay_between_playlists config) w1))
      as (new & Hnew & Hall & _).
    exists new. split; [done|]. split.
    + eapply Forall_impl; [exact Hall|].
      intros e (u & w2 & s2 & w2' & Hin & Hr & He).
      exists u, w2, s2, w2'. split; [by apply list_elem_of_further | done].
    + intros url0 urls0 s0 w0 [= <- <-] Hr. by rewrite Hrun in Hr.
Qed.

End Batch.

Section BatchSummary.

Context (caps : Capabilities) (download_folder : Path).

(** Since [download_playlist] catches everything, a batch never counts a
    failed playlist and never records a failure entry, whatever happens to
    its playlists. *)
Lemma batch_records_no_failure (urls : list pystr) (config : Config)
  (w : World caps) :
  let r := (download_multiple_playlists caps download_folder urls config w).1 in
  failed_playlists r = 0 ∧
  Forall entry_counts_none (results r) ∧
  length (results r) ≤ length urls ∧
  total_playlists r = length urls.
Proof.
  unfold download_multiple_playlists, download_multiple_playlists_with.
  pose proof (batch_loop_run_playlist caps download_folder config (length urls)
                0 urls batch_init w) as (Hf & new & Hnew & Hall & Hlen).
  destruct (batch_loop _ _ _ _ _ _ _ _) as [a w']. simpl in *.
  rewrite Hnew. done.
Qed.

(** A playlist for which [download_playlist] returns [None], be it for want
    of videos or because extraction raised, leaves the batch with no entry
    and no failure counted.  *)
Lemma batch_single_none (url : pystr) (config : Config) (w w1 : World caps) :
  download_playlist caps download_folder url config w = (None, w1) →
  (download_multiple_playlists caps download_folder [url] config w).1
  = {| total_playlists := 1; successful_playlists := 0; failed_playlists := 0;
       total_videos_downloaded := 0; total_videos_skipped := 0;
       total_videos_failed := 0; results := [] |}.
Proof.
  intros H.
  unfold download_multiple_playlists, download_multiple_playlists_with.
  simpl. unfold run_playlist. rewrite H. reflexivity.
Qed.

End BatchSummary.

(** C3 (a failed playlist is recorded; an empty one has its outcome
    recorded): a batch of three playlists with [continue_on_playlist_error]
    off.  The first page has no videos and the second cannot be opened; for
    both [download_playlist] returns [None].  The batch goes on to the third
    playlist, and its summary says three playlists, one successful, none
    failed: [results] holds the entry of the third alone. *)
Theorem C3_failed_playlists_unrecorded :
  let urls := [py "PL0"; py "gone"; py "PL8"] in
  let w := Sim.world Ex.caps_ok [] in
  let r := (download_multiple_playlists Ex.caps_ok Ex.downloads urls
              Ex.stop_on_error w).1 in
  continue_on_playlist_error Ex.stop_on_error = false ∧
  (extract_playlist_urls Ex.caps_ok (py "PL0") true None w).1
  = Ok (PlaylistInfo.mk (py "Playlist_PL") (py "Unknown")
          (py "https://youtube.com/playlist?list=PL") 0, []) ∧
  (download_playlist Ex.caps_ok Ex.downloads (py "PL0") Ex.stop_on_error w).1
  = None ∧
  (extract_playlist_urls Ex.caps_ok (py "gone") true None w).1
  = Raise (py "Message: timeout") ∧
  (download_playlist Ex.caps_ok Ex.downloads (py "gone") Ex.stop_on_error w).1
  = None ∧
  total_playlists r = 3 ∧ successful_playlists r = 1 ∧ failed_playlists r = 0 ∧
  entry_url <$> results r = [py "PL8"] ∧
  (download_multiple_playlists Ex.caps_ok Ex.downloads [py "PL0"]
     Ex.stop_on_error w).1
  = {| total_playlists := 1; successful_playlists := 0; failed_playlists := 0;
       total_videos_downloaded := 0; total_videos_skipped := 0;
       total_videos_failed := 0; results := [] |}.
Proof. vm_compute. split_and!; reflexivity. Qed.

(** C10 (the video count of the playlist information): the record built by
    [_extract_playlist_metadata] has [total_videos] 0 whatever the page; a
    run that returns a summary returns that record unchanged, so its count is
    still 0, while the summary's own [total_videos] is the number of videos
    extracted, as is the count written to [playlist_info.json] when the
    playlist folder is created; and a batch carries the record on: every
    entry of its results belongs to a run of [download_playlist] on one of
    the URLs, holds the playlist information that run's extraction returned
    (count 0) beside the run's own total (the number of videos found), and
    the first URL's summary, when there is one, is the first entry. *)
Theorem C10_video_count_stays_zero (caps : Capabilities) (download_folder : Path) :
  (∀ d, PlaylistInfo.total_videos (_extract_playlist_metadata caps d) = 0) ∧
  (∀ url config (w : World caps) s w',
     download_playlist caps download_folder url config w = (Some s, w') →
     PlaylistInfo.total_videos (Summary.playlist_info s) = 0 ∧
     ∃ found w0,
       extract_playlist_urls caps url (headless config) (max_videos config) w
       = (Ok (Summary.playlist_info s, found), w0) ∧
       Summary.total_videos s = length found ∧
       (create_playlist_folder config = true →
        ∃ path md, EvWriteJson path md ∈ trace w' ∧
                   Metadata.total_videos md = length found)) ∧
  (∀ urls config (w : World caps) e,
     e ∈ results
           (download_multiple_playlists caps download_folder urls config w).1 →
     ∃ url (w1 : World caps) s w1' found w0,
       url ∈ urls ∧
       download_playlist caps download_folder url config w1 = (Some s, w1') ∧
       extract_playlist_urls caps url (headless config) (max_videos config) w1
       = (Ok (Summary.playlist_info s, found), w0) ∧
       e = EntryOk url (Summary.playlist_info s) (Summary.success_count s)
             (Summary.skipped_count s) (Summary.fail_count s)
             (Summary.total_videos s) (Summary.playlist_folder s) ∧
       PlaylistInfo.total_videos (Summary.playlist_info s) = 0 ∧
       Summary.total_videos s = length found) ∧
  (∀ url urls config (w : World caps) s w',
     download_playlist caps download_folder url config w = (Some s, w') →
     head (results (download_multiple_playlists caps download_folder
                      (url :: urls) config w).1)
     = Some (EntryOk url (Summary.playlist_info s) (Summary.success_count s)
               (Summary.skipped_count s) (Summary.fail_count s)
               (Summary.total_videos s) (Summary.playlist_folder s))).
Proof.
  split_and!.
  - intros d. reflexivity.
  - intros url config w s w' Hrun.
    destruct (download_playlist_inv _ _ _ _ _ _ _ Hrun)
      as (pi & videos & folder & w1 & Hpre).
    rewrite (download_playlist_of_run _ _ _ _ _ _ _ _ _ Hpre) in Hrun.
    injection Hrun as <- <-.
    destruct Hpre as (found & w0 & Hext & Hne & -> & Hprep). simpl.
    destruct (extract_playlist_urls_inv _ _ _ _ _ _ _ _ Hext) as (Hz & _ & _).
    split; [done|]. exists found, w0. split; [done|].
    rewrite length_assign_download_index, length_sort_videos.
    split; [done|]. intros Hc.
    destruct (prepare_folder_trace _ _ _ _ _ _ _ _ _ Hprep Hc)
      as (path & md & Htr & Hmd).
    exists path, md. split.
    + eapply elem_of_prefix; [|apply prefix_app_r, download_videos_trace].
      rewrite Htr. apply elem_of_app. right. apply elem_of_cons. right.
      by apply list_elem_of_singleton.
    + by rewrite Hmd, length_assign_download_index, length_sort_videos.
  - intros urls config w e.
    unfold download_multiple_playlists, download_multiple_playlists_with.
    destruct (batch_loop_entries caps download_folder config (length urls) 0
                urls batch_init w) as (new & Hnew & Hall & _).
    destruct (batch_loop _ _ _ _ _ _ _ _) as [a w2].
    cbn [fst batch_summary results] in *. rewrite Hnew.
    cbn [batch_init b_results app]. intros He.
    rewrite Forall_forall in Hall.
    destruct (Hall e He) as (url & w1 & s & w1' & Hin & Hrun & ->).
    destruct (run_summary_info _ _ _ _ _ _ _ Hrun)
      as (Hz & found & w0 & Hext & Hlen).
    exists url, w1, s, w1', found, w0. done.
  - intros url urls config w s w' Hrun.
    unfold download_multiple_playlists, download_multiple_playlists_with.
    destruct (batch_loop_entries caps download_folder config
                (length (url :: urls)) 0 (url :: urls) batch_init w)
      as (new & Hnew & _ & Hhead).
    destruct (batch_loop _ _ _ _ _ _ _ _) as [a w2].
    cbn [fst batch_summary results] in *. rewrite Hnew.
    cbn [batch_init b_results app]. by eapply Hhead.
Qed.

(** The playlist of eight: the summary counts 8 videos, its playlist
    information counts 0, and the batch on this playlist has that summary
    as its first entry. *)
Lemma C10_video_count_stays_zero_witness :
  let info := PlaylistInfo.mk (py "Playlist_PL") (py "Unknown")
                (py "https://youtube.com/playlist?list=PL") 0 in
  let s := summary_of Ex.go_on info
             (replicate 8 (VideoInfo.mk [] [] 0 None None))
             Ex.five_folder {| c_success := 8; c_fail := 0; c_skipped := 0 |} in
  let w := Sim.world Ex.caps_ok [] in
  let w' := (download_playlist Ex.caps_ok Ex.downloads (py "PL8") Ex.go_on w).2 in
  download_playlist Ex.caps_ok Ex.downloads (py "PL8") Ex.go_on w = (Some s, w') ∧
  Summary.total_videos s = 8 ∧
  PlaylistInfo.total_videos (Summary.playlist_info s) = 0 ∧
  head (results (download_multiple_playlists Ex.caps_ok Ex.downloads
                   [py "PL8"] Ex.go_on w).1)
  = Some (EntryOk (py "PL8") info 8 0 0 8 (path_str Ex.five_folder)).
Proof.
  intros info s w w'.
  assert (download_playlist Ex.caps_ok Ex.downloads (py "PL8") Ex.go_on w
          = (Some s, w')) as Hrun by (vm_compute; reflexivity).
  split; [exact Hrun|]. split; [reflexivity|]. split.
  - exact (proj1 (proj1 (proj2 (C10_video_count_stays_zero Ex.caps_ok
                                  Ex.downloads))
                    (py "PL8") Ex.go_on w s w' Hrun)).
  - exact (proj2 (proj2 (proj2 (C10_video_count_stays_zero Ex.caps_ok
                                  Ex.downloads)))
             (py "PL8") [] Ex.go_on w s w' Hrun).
Defined.

(** ** Checks on small inputs *)

Example simulated_library_examples :
  Sim.parse_list_param (py "https://youtube.com/playlist?list=PL") = Some (py "PL") ∧
  Sim.parse_list_param (py "https://www.youtube.com/watch?v=abc&list=PLx&index=2#t")
  = Some (py "PLx") ∧
  Sim.parse_list_param (py "https://y.com/p?a=1&list=a+b&list=c") = Some (py "a b") ∧
  Sim.parse_list_param (py "https://youtube.com/playlist?list=") = None ∧
  Sim.parse_list_param (py "https://youtube.com/playlist") = None ∧
  Sim.recency_search (py "2 years ago") = true ∧
  Sim.recency_search (py "Streamed 11  Months AGO") = true ∧
  Sim.recency_search (py "1 day agoo") = true ∧
  Sim.recency_search (py "1.2M views") = false ∧
  Sim.recency_search (py "3 minutes ago") = false ∧
  Sim.recency_search (py "years ago") = false ∧
  Sim.recency_search (py "5 dayss ago") = false ∧
  Sim.recency_search (py "12weeks ago") = false.
Proof. vm_compute. split_and!; reflexivity. Qed.

Example sanitize_example :
  sanitize_filename (py "  What/is: this?   a  *test*  ") = py "Whatis this a test".
Proof. vm_compute. reflexivity. Qed.

Example fnmatch_class_example :
  fnmatch (py "a[b].*") (py "a[b].mp4") = false ∧
  fnmatch (py "a[b].*") (py "ab.mp4") = true ∧
  fnmatch (py "a[!b-d]x.*") (py "aex.") = true ∧
  fnmatch (py "a[!b-d]x.*") (py "acx.") = false ∧
  fnmatch (py "a[]]x.*") (py "a]x.q") = true ∧
  fnmatch (py "a[b.*") (py "a[b.webm") = true.
Proof. vm_compute. split_and!; reflexivity. Qed.

(** Three of the five videos are there already: a second run skips them. *)
Example rerun_example :
  let first := download_playlist Ex.caps Ex.downloads (py "PL5") Ex.go_on
                 Ex.five_world in
  let second := download_playlist Ex.caps Ex.downloads (py "PL5") Ex.go_on
                  (Sim.world Ex.caps (ext first.2)) in
  (fun s => (Summary.success_count s, Summary.skipped_count s,
             Summary.fail_count s, Summary.total_videos s)) <$> first.1
  = Some (4, 0, 1, 5) ∧
  (fun s => (Summary.success_count s, Summary.skipped_count s,
             Summary.fail_count s, Summary.total_videos s)) <$> second.1
  = Some (0, 4, 1, 5).
Proof. vm_compute. split; reflexivity. Qed.

(** * Further properties of the code *)

(** ** [sanitize_filename] *)

Section SanitizeMore.

Implicit Types (s x : pystr) (c : N).

Lemma length_lstrip s : length (lstrip s) ≤ length s.
Proof.
  destruct (lstrip_suffix s) as (k & Hk & _). rewrite Hk at 2.
  rewrite length_app. lia.
Qed.

Lemma length_rstrip s : length (rstrip s) ≤ length s.
Proof.
  destruct (rstrip_prefix s) as (k & Hk & _). rewrite Hk at 2.
  rewrite length_app. lia.
Qed.

Lemma length_strip s : length (strip s) ≤ length s.
Proof.
  unfold strip. etrans; [apply length_rstrip | apply length_lstrip].
Qed.

Lemma length_collapse_ws b s : length (collapse_ws b s) ≤ length s.
Proof.
  revert b. induction s as [|c s IH]; intros b; simpl; [done|].
  destruct (is_space c); [destruct b|]; simpl.
  - specialize (IH true). lia.
  - specialize (IH true). lia.
  - specialize (IH false). lia.
Qed.

Lemma length_remove_invalid s : length (remove_invalid s) ≤ length s.
Proof. unfold remove_invalid. apply length_filter. Qed.

Lemma length_cleaned s :
  length (strip (collapse_ws false (remove_invalid s))) ≤ length s.
Proof.
  etrans; [apply length_strip|]. etrans; [apply length_collapse_ws|].
  apply length_remove_invalid.
Qed.

Lemma sanitize_head x c :
  head (sanitize_filename x) = Some c → is_space c = false.
Proof.
  unfold sanitize_filename. intros Hc. apply head_take in Hc.
  by eapply strip_head.
Qed.

Lemma sanitize_collapsed x : collapsed false (sanitize_filename x).
Proof.
  unfold sanitize_filename, strip.
  apply collapsed_take, collapsed_rstrip.
  eapply collapsed_lstrip, collapse_ws_collapsed.
Qed.

Lemma lstrip_nil s : lstrip s = [] ↔ Forall (fun c => is_space c = true) s.
Proof.
  induction s as [|c s IH]; simpl; [by split|].
  destruct (is_space c) eqn:Hc.
  - rewrite IH. split; [by constructor|]. by intros [_ ?]%Forall_cons.
  - split; [done|]. intros [? _]%Forall_cons. congruence.
Qed.

Lemma strip_nil s : strip s = [] ↔ Forall (fun c => is_space c = true) s.
Proof.
  unfold strip. split.
  - intros H. destruct (rstrip_prefix (lstrip s)) as (k & Hk & Hws).
    rewrite H in Hk. simpl in Hk. subst k.
    destruct (lstrip_suffix s) as (k' & Hk' & Hws').
    rewrite Hk'. by apply Forall_app.
  - intros H. apply lstrip_nil in H. rewrite H. reflexivity.
Qed.

Lemma collapse_ws_keeps b s c :
  c ∈ s → is_space c = false → c ∈ collapse_ws b s.
Proof.
  intros Hin Hc. revert b. induction Hin as [c s|c a s Hin IH]; intros b; simpl.
  - rewrite Hc. apply list_elem_of_here.
  - destruct (is_space a); [destruct b|].
    + by apply IH.
    + by apply list_elem_of_further, IH.
    + by apply list_elem_of_further, IH.
Qed.

Lemma collapse_ws_spaces b s :
  Forall (fun c => is_space c = true) s →
  Forall (fun c => is_space c = true) (collapse_ws b s).
Proof.
  intros H. apply Forall_forall. intros c Hc.
  apply collapse_ws_elem in Hc as [-> | Hc]; [reflexivity|].
  by eapply Forall_forall in H.
Qed.

End SanitizeMore.

(** X1.  Two passes reach a fixed point: whatever the title, sanitizing the
    result of two passes changes nothing, although one pass alone may not be
    stable. *)
Theorem X1_sanitize_twice_is_stable (x : pystr) :
  sanitize_filename (sanitize_filename (sanitize_filename x))
  = sanitize_filename (sanitize_filename x).
Proof.
  apply sanitize_idempotent_short.
  etrans; [apply length_cleaned | apply sanitize_length].
Qed.

(** X2.  The shape of a sanitized name: it never begins with whitespace, its
    whitespace is single spaces only, each of its characters is a space or a
    character of the input, and it ends in whitespace only when the
    truncation cut it, in which case it is exactly 255 characters long. *)
Theorem X2_sanitize_shape (x : pystr) :
  (∀ c, head (sanitize_filename x) = Some c → is_space c = false) ∧
  collapsed false (sanitize_filename x) ∧
  (∀ c, c ∈ sanitize_filename x → c = SPACE ∨ c ∈ x) ∧
  (∀ c, last (sanitize_filename x) = Some c → is_space c = true →
        length (sanitize_filename x) = 255).
Proof.
  split_and!.
  - apply sanitize_head.
  - apply sanitize_collapsed.
  - intros c Hc. unfold sanitize_filename in Hc.
    apply subseteq_take, strip_subseteq, collapse_ws_elem in Hc.
    destruct Hc as [-> | Hc]; [by left | right].
    unfold remove_invalid in Hc. by apply list_elem_of_filter in Hc as [_ ?].
  - intros c Hlast Hc. unfold sanitize_filename in *.
    destruct (decide (length (strip (collapse_ws false (remove_invalid x))) ≤ 255))
      as [Hle | Hgt].
    + rewrite take_ge in Hlast by done. unfold strip in Hlast.
      apply rstrip_last in Hlast. congruence.
    + rewrite length_take. lia.
Qed.

(** The title of the example stops at 255 characters, on a space. *)
Lemma X2_sanitize_shape_witness :
  last (sanitize_filename Ex.long_title) = Some SPACE ∧
  is_space SPACE = true ∧
  length (sanitize_filename Ex.long_title) = 255.
Proof.
  assert (last (sanitize_filename Ex.long_title) = Some SPACE) as Hlast
    by (vm_compute; reflexivity).
  split; [exact Hlast|]. split; [reflexivity|].
  exact (proj2 (proj2 (proj2 (X2_sanitize_shape Ex.long_title)))
           SPACE Hlast eq_refl).
Defined.

(** X3.  On a title of at most 255 characters one pass is enough: sanitizing
    the result again gives the same name. *)
Theorem X3_sanitize_idempotent_on_short_titles (x : pystr) :
  length x ≤ 255 →
  sanitize_filename (sanitize_filename x) = sanitize_filename x.
Proof.
  intros Hlen. apply sanitize_idempotent_short.
  etrans; [apply length_cleaned | done].
Qed.

Lemma X3_sanitize_idempotent_on_short_titles_witness :
  length Ex.bracket_title ≤ 255 ∧
  sanitize_filename (sanitize_filename Ex.bracket_title)
  = sanitize_filename Ex.bracket_title.
Proof.
  assert (length Ex.bracket_title ≤ 255) as H by (vm_compute; lia).
  split; [exact H|].
  exact (X3_sanitize_idempotent_on_short_titles Ex.bracket_title H).
Defined.

(** X4.  The sanitized name is empty exactly when the title holds nothing but
    invalid characters and whitespace. *)
Theorem X4_sanitize_empty (x : pystr) :
  sanitize_filename x = [] ↔
  ∀ c, c ∈ x → is_invalid c = true ∨ is_space c = true.
Proof.
  unfold sanitize_filename. split.
  - intros H c Hc.
    assert (strip (collapse_ws false (remove_invalid x)) = []) as Hz.
    { destruct (strip _) as [|a z]; [done|]. simpl in H. done. }
    apply strip_nil in Hz.
    destruct (is_invalid c) eqn:Hi; [by left | right].
    destruct (is_space c) eqn:Hs; [done|].
    assert (c ∈ collapse_ws false (remove_invalid x)) as Hin.
    { apply collapse_ws_keeps; [|done].
      unfold remove_invalid. by apply list_elem_of_filter. }
    eapply Forall_forall in Hz; [|exact Hin]. simpl in Hz. congruence.
  - intros H.
    assert (strip (collapse_ws false (remove_invalid x)) = []) as ->; [|done].
    apply strip_nil, collapse_ws_spaces, Forall_forall.
    intros c Hc. unfold remove_invalid in Hc.
    apply list_elem_of_filter in Hc as [Hv Hc].
    destruct (H c Hc); [congruence | done].
Qed.

Lemma X4_sanitize_empty_witness :
  (∀ c, c ∈ py "?? *" → is_invalid c = true ∨ is_space c = true) ∧
  sanitize_filename (py "?? *") = [].
Proof.
  assert (∀ c, c ∈ py "?? *" → is_invalid c = true ∨ is_space c = true) as H.
  { intros c Hc. change (py "?? *") with [63; 63; 32; 42]%N in Hc.
    repeat (apply elem_of_cons in Hc as [-> | Hc]; [vm_compute; auto|]).
    by apply elem_of_nil in Hc. }
  split; [exact H|]. exact (proj2 (X4_sanitize_empty (py "?? *")) H).
Defined.

(** ** The scroll loop *)

Section DiscoveryMore.

Context (caps : Capabilities).
Implicit Types (st : ScrollState) (d : D caps) (mv : option Z).

Lemma scroll_loop_inv cap stall mv fuel st d :
  no_change_count st ≤ scroll_attempts st →
  no_change_count st ≤ stall →
  scroll_attempts st ≤ cap →
  let st' := (scroll_loop caps cap stall mv fuel st d).1 in
  no_change_count st' ≤ scroll_attempts st' ∧
  no_change_count st' ≤ stall ∧
  scroll_attempts st' ≤ cap ∧
  scroll_attempts st ≤ scroll_attempts st'.
Proof.
  revert st d. induction fuel as [|fuel IH]; intros st d H1 H2 H3; simpl; [lia|].
  destruct (scroll_guard cap stall st) eqn:Hg; simpl; [|lia].
  unfold scroll_guard in Hg. apply andb_prop in Hg as [Ha Hn].
  apply Nat.ltb_lt in Ha, Hn.
  pose proof (scroll_cycle_state caps mv st d) as (_ & Hatt & _ & Hnc).
  destruct (scroll_cycle caps mv st d) as [[st' d'] broke]. simpl in *.
  assert (no_change_count st' ≤ no_change_count st + 1) as Hle.
  { rewrite Hnc. destruct (_ =? _); lia. }
  destruct broke; simpl; [lia|].
  specialize (IH st' d'). simpl in IH. lia.
Qed.

Lemma scroll_loop_limit_ext cap stall mv mv' fuel st d :
  (∀ n, limit_reached mv n = limit_reached mv' n) →
  scroll_loop caps cap stall mv fuel st d = scroll_loop caps cap stall mv' fuel st d.
Proof.
  intros Hlim. revert st d. induction fuel as [|fuel IH]; intros st d; simpl; [done|].
  destruct (scroll_guard cap stall st); [|done].
  assert (scroll_cycle caps mv st d = scroll_cycle caps mv' st d) as ->.
  { unfold scroll_cycle. by rewrite Hlim. }
  destruct (scroll_cycle caps mv' st d) as [[st' d'] broke].
  destruct broke; [done|]. apply IH.
Qed.

Lemma discover_unfold mv d :
  discover caps mv d
  = (let '(st', d', broke) := scroll_cycle caps mv scroll_init d in
     if broke then (st', d')
     else scroll_loop caps max_scroll_attempts max_no_change_attempts mv 99 st' d').
Proof. reflexivity. Qed.

End DiscoveryMore.

(** X5.  The scroll loop makes at least one pass and at most 100, and its
    streak never passes 10.  It is left because the attempts are used up,
    because the streak reached 10, or because the video limit is met; where
    the limit is not what ended it, at least ten passes were made. *)
Theorem X5_discover_pass_bounds (caps : Capabilities) (mv : option Z)
  (d : D caps) :
  let st := (discover caps mv d).1 in
  1 ≤ scroll_attempts st ≤ 100 ∧
  no_change_count st ≤ 10 ∧
  (scroll_attempts st = 100 ∨ no_change_count st = 10 ∨
   limit_reached mv (current_count st) = true) ∧
  (limit_reached mv (current_count st) = false → 10 ≤ scroll_attempts st).
Proof.
  intros st.
  assert (no_change_count st ≤ scroll_attempts st ∧ no_change_count st ≤ 10 ∧
          scroll_attempts st ≤ 100) as (Hi1 & Hi2 & Hi3).
  { pose proof (scroll_loop_inv caps max_scroll_attempts max_no_change_attempts
                  mv max_scroll_attempts scroll_init d) as H.
    unfold max_scroll_attempts, max_no_change_attempts in H. simpl in H.
    destruct H as (? & ? & ? & _); [lia..|]. done. }
  assert (1 ≤ scroll_attempts st) as Hone.
  { unfold st. rewrite discover_unfold.
    pose proof (scroll_cycle_state caps mv scroll_init d) as (_ & Hatt & _ & Hnc).
    destruct (scroll_cycle caps mv scroll_init d) as [[st' d'] broke].
    simpl in Hatt, Hnc. destruct broke; [simpl; lia|].
    change (1 ≤ scroll_attempts
                  (scroll_loop caps max_scroll_attempts max_no_change_attempts
                     mv 99 st' d').1).
    pose proof (scroll_loop_inv caps max_scroll_attempts max_no_change_attempts
                  mv 99 st' d') as H.
    cbv zeta in H. unfold max_scroll_attempts, max_no_change_attempts in *.
    destruct H as (_ & _ & _ & ?); [rewrite Hnc; destruct (_ =? _); lia|
                                    rewrite Hnc; destruct (_ =? _); lia|lia|].
    lia. }
  assert (scroll_attempts st = 100 ∨ no_change_count st = 10 ∨
          limit_reached mv (current_count st) = true) as Hexit.
  { pose proof (scroll_loop_exit caps max_scroll_attempts max_no_change_attempts
                  mv max_scroll_attempts scroll_init d) as H.
    destruct H as [Hg | Hl];
      [unfold max_scroll_attempts; simpl; lia | | by right; right].
    fold (discover caps mv d) in Hg. fold st in Hg.
    unfold scroll_guard, max_scroll_attempts, max_no_change_attempts in Hg.
    apply andb_false_iff in Hg as [Hg | Hg]; apply Nat.ltb_ge in Hg; [left|right;left]; lia. }
  split_and!; try done; try lia.
  intros Hno. destruct Hexit as [? | [? | ?]]; [lia | lia | congruence].
Qed.

(** The playlist of eight without a limit: one pass finds the eight entries,
    ten more find nothing new. *)
Lemma X5_discover_pass_bounds_witness :
  let st := (discover Ex.caps_ok None
               {| Sim.page := Ex.eight; Sim.scrolls := 0 |}).1 in
  limit_reached None (current_count st) = false ∧ 10 ≤ scroll_attempts st.
Proof.
  intros st. split; [reflexivity|].
  exact (proj2 (proj2 (proj2 (X5_discover_pass_bounds Ex.caps_ok None
                                {| Sim.page := Ex.eight; Sim.scrolls := 0 |})))
           eq_refl).
Defined.

(** X6.  A limit of 0 is no limit: extraction with [max_videos] 0 does
    exactly what it does with [None].  A negative limit is met by any count,
    so the loop stops after its first pass. *)
Theorem X6_zero_and_negative_limit (caps : Capabilities) :
  (∀ url h (w : World caps),
     extract_playlist_urls caps url h (Some 0%Z) w
     = extract_playlist_urls caps url h None w) ∧
  (∀ m (d : D caps), (m < 0)%Z →
     scroll_attempts (discover caps (Some m) d).1 = 1).
Proof.
  split.
  - intros url h w. unfold extract_playlist_urls, bind.
    destruct (call caps _ _ w) as [[d|msg] w0]; [|done].
    unfold discover.
    by rewrite (scroll_loop_limit_ext caps _ _ (Some 0%Z) None).
  - intros m d Hm. rewrite discover_unfold.
    pose proof (scroll_cycle_state caps (Some m) scroll_init d) as (_ & Hatt & _).
    pose proof (scroll_cycle_broke caps (Some m) scroll_init d) as Hb.
    destruct (scroll_cycle caps (Some m) scroll_init d) as [[st' d'] broke].
    simpl in *.
    assert (broke = true) as ->.
    { rewrite Hb. unfold limit_reached. apply andb_true_intro. split.
      - apply negb_true_iff, Z.eqb_neq. lia.
      - apply Z.leb_le. lia. }
    simpl. lia.
Qed.

Lemma X6_zero_and_negative_limit_witness :
  (-1 < 0)%Z ∧
  scroll_attempts (discover Ex.caps_ok (Some (-1)%Z)
                     {| Sim.page := Ex.eight; Sim.scrolls := 0 |}).1 = 1.
Proof.
  assert (-1 < 0)%Z as H by lia.
  split; [exact H|].
  exact (proj2 (X6_zero_and_negative_limit Ex.caps_ok) (-1)%Z
           {| Sim.page := Ex.eight; Sim.scrolls := 0 |} H).
Defined.

(** X7.  The loop stops at the first pass whose count meets the limit: a
    state of the trajectory in which [max_videos] is met is the last one, so
    no pass before the last met it. *)
Theorem X7_limit_stops_at_first_crossing (caps : Capabilities)
  (cap stall : nat) (mv : option Z) (fuel : nat) (st0 : ScrollState)
  (d : D caps) (j : nat) (st : ScrollState) :
  scroll_states caps cap stall mv fuel st0 d !! j = Some st →
  limit_reached mv (current_count st) = true →
  length (scroll_states caps cap stall mv fuel st0 d) = S j.
Proof.
  revert st0 d j. induction fuel as [|fuel IH]; intros st0 d j; simpl; [done|].
  destruct (scroll_guard cap stall st0); [|done].
  pose proof (scroll_cycle_broke caps mv st0 d) as Hb.
  destruct (scroll_cycle caps mv st0 d) as [[st' d'] broke]. simpl in Hb.
  destruct j as [|j]; simpl.
  - intros [= <-] Hl. rewrite Hb, Hl. done.
  - destruct broke; [done|]. intros Hj Hl. f_equal. by eapply IH.
Qed.

Lemma X7_limit_stops_at_first_crossing_witness :
  let T := scroll_states Ex.caps_ok max_scroll_attempts max_no_change_attempts
             (Some 3%Z) max_scroll_attempts scroll_init
             {| Sim.page := Ex.eight; Sim.scrolls := 0 |} in
  T !! 0 = Some {| previous_count := 0; current_count := 8;
                   scroll_attempts := 1; no_change_count := 0 |} ∧
  length T = 1.
Proof.
  intros T.
  assert (T !! 0 = Some {| previous_count := 0; current_count := 8;
                           scroll_attempts := 1; no_change_count := 0 |})
    as H by (vm_compute; reflexivity).
  split; [exact H|].
  exact (X7_limit_stops_at_first_crossing Ex.caps_ok max_scroll_attempts
           max_no_change_attempts (Some 3%Z) max_scroll_attempts scroll_init
           {| Sim.page := Ex.eight; Sim.scrolls := 0 |} 0 _ H eq_refl).
Defined.

(** ** Reading the rendered entries *)

Section ExtractionMore.

Context (caps : Capabilities).
Implicit Types (els : list Element) (e : Element) (v : VideoInfo.t).

Lemma length_omap_le {A B} (f : A → option B) (l : list A) :
  length (omap f l) ≤ length l.
Proof.
  induction l as [|x l IH]; [done|].
  change (omap f (x :: l))
    with (match f x with Some y => y :: omap f l | None => omap f l end).
  destruct (f x); simpl; lia.
Qed.

Lemma before_amp_prefix (s : pystr) : before_amp s `prefix_of` s.
Proof.
  induction s as [|c s IH]; simpl; [done|].
  case_bool_decide; [apply prefix_nil | by apply prefix_cons].
Qed.

Lemma before_amp_no_amp (s : pystr) : 38%N ∉ before_amp s.
Proof.
  induction s as [|c s IH]; simpl; [apply not_elem_of_nil|].
  case_bool_decide; [apply not_elem_of_nil|].
  apply not_elem_of_cons. split; [congruence | done].
Qed.

Lemma before_amp_id (s : pystr) : contains [38%N] s = false → before_amp s = s.
Proof.
  induction s as [|c s IH]; simpl; [done|].
  intros [H1 H2]%orb_false_elim. rewrite andb_true_r in H1.
  apply bool_decide_eq_false in H1. rewrite bool_decide_eq_false_2 by congruence.
  f_equal. by apply IH.
Qed.

Lemma before_amp_split (s : pystr) :
  ∃ rest, s = before_amp s ++ rest ∧ (rest = [] ∨ ∃ r, rest = 38%N :: r).
Proof.
  induction s as [|c s (rest & IH & Hrest)]; simpl.
  { exists []. split; [done | by left]. }
  case_bool_decide as Hc.
  - exists (c :: s). split; [done|]. right. exists s. by rewrite Hc.
  - exists rest. split; [|done]. rewrite <- app_comm_cons. by f_equal.
Qed.

Lemma strip_stripped (s : pystr) : stripped (strip s).
Proof.
  split; intros c Hc; [by eapply strip_head|].
  unfold strip in Hc. by eapply rstrip_last.
Qed.

Lemma find_upload_info_Some (spans : list pystr) t :
  find_upload_info caps spans = Some t →
  upload_re caps t = true ∧ ∃ span, span ∈ spans ∧ t = strip span.
Proof.
  induction spans as [|span spans IH]; simpl; [done|].
  destruct (upload_re caps (strip span)) eqn:Hre.
  - intros [= <-]. split; [done|]. exists span. split; [apply list_elem_of_here|done].
  - intros H. destruct (IH H) as (? & span' & ? & ?). split; [done|].
    exists span'. split; [by apply list_elem_of_further | done].
Qed.

Lemma extract_video_Some i e v :
  extract_video caps i e = Some v →
  VideoInfo.playlist_index v = i + 1 ∧
  VideoInfo.download_index v = None ∧
  ∃ href text,
    video_title_link e = Some (Some href, text) ∧
    contains (py "/watch?v=") href = true ∧
    VideoInfo.url v = before_amp href ∧
    VideoInfo.title v = strip text ∧
    VideoInfo.upload_info v
    = match metadata_spans e with
      | Some spans => find_upload_info caps spans
      | None => None
      end.
Proof.
  unfold extract_video.
  destruct (video_title_link e) as [[[href|] text]|]; try done.
  destruct (bool_decide (href = [])) eqn:Hnil; simpl; [done|].
  destruct (contains (py "/watch?v=") href) eqn:Hw; simpl; [|done].
  intros [= <-]. simpl. split_and!; try done.
  exists href, text. split_and!; try done.
  destruct (contains [38%N] href) eqn:Ha; [done|]. by rewrite before_amp_id.
Qed.

(** The entries from rendered slot [k] on. *)
Lemma extract_from_cons k e els :
  omap id (imap (fun i => extract_video caps (k + i)) (e :: els))
  = match extract_video caps k e with Some v => [v] | None => [] end
    ++ omap id (imap (fun i => extract_video caps (S k + i)) els).
Proof.
  simpl. rewrite Nat.add_0_r.
  assert (imap ((fun i => extract_video caps (k + i)) ∘ S) els
          = imap (fun i => extract_video caps (S k + i)) els) as ->.
  { apply imap_ext. intros i x _. simpl. f_equal. lia. }
  by destruct (extract_video caps k e).
Qed.

Lemma extract_from_bounds k els v :
  v ∈ omap id (imap (fun i => extract_video caps (k + i)) els) →
  ∃ i e, els !! i = Some e ∧ extract_video caps (k + i) e = Some v.
Proof.
  intros (o & Ho & Hv)%list_elem_of_omap. simpl in Hv. subst o.
  apply list_elem_of_lookup_1 in Ho as [i Hi].
  rewrite list_lookup_imap in Hi.
  destruct (els !! i) as [e|] eqn:He; simpl in Hi; [|done].
  exists i, e. split; [done|]. by injection Hi.
Qed.

Lemma extract_from_sorted k els i j vi vj :
  i < j →
  omap id (imap (fun i => extract_video caps (k + i)) els) !! i = Some vi →
  omap id (imap (fun i => extract_video caps (k + i)) els) !! j = Some vj →
  VideoInfo.playlist_index vi < VideoInfo.playlist_index vj.
Proof.
  revert k i j. induction els as [|e els IH]; intros k i j Hij; [done|].
  rewrite extract_from_cons.
  set (L := omap id (imap (fun i => extract_video caps (S k + i)) els)).
  destruct (extract_video caps k e) as [v|] eqn:Hv;
    [|exact (IH (S k) i j Hij)].
  destruct j as [|j]; [lia|]. destruct i as [|i].
  - intros Hi Hj. change (Some v = Some vi) in Hi. change (L !! j = Some vj) in Hj.
    injection Hi as <-.
    apply extract_video_Some in Hv as (Hk & _).
    apply list_elem_of_lookup_2, extract_from_bounds in Hj as (i' & e' & _ & Hj).
    apply extract_video_Some in Hj as (Hj & _). lia.
  - intros Hi Hj. change (L !! i = Some vi) in Hi. change (L !! j = Some vj) in Hj.
    apply (IH (S k) i j); [lia|done|done].
Qed.

Lemma extract_from_all k els :
  (∀ e, e ∈ els → ∃ href text, video_title_link e = Some (Some href, text) ∧
                    contains (py "/watch?v=") href = true) →
  length (omap id (imap (fun i => extract_video caps (k + i)) els)) = length els ∧
  ∀ i v, omap id (imap (fun i => extract_video caps (k + i)) els) !! i = Some v →
         VideoInfo.playlist_index v = k + i + 1.
Proof.
  revert k. induction els as [|e els IH]; intros k Hall; [done|].
  rewrite extract_from_cons.
  destruct (Hall e) as (href & text & Hl & Hw); [apply list_elem_of_here|].
  assert (is_Some (extract_video caps k e)) as [v Hv].
  { unfold extract_video. rewrite Hl, Hw.
    destruct href; [done|]. simpl. by eexists. }
  rewrite Hv.
  set (L := omap id (imap (fun i => extract_video caps (S k + i)) els)).
  destruct (IH (S k)) as [Hlen Hidx].
  { intros e' He'. apply Hall. by apply list_elem_of_further. }
  fold L in Hlen, Hidx.
  split; [change (S (length L) = S (length els)); by rewrite Hlen|].
  intros [|i] v' Hi.
  - change (Some v = Some v') in Hi. injection Hi as <-.
    apply extract_video_Some in Hv as (-> & _). lia.
  - change (L !! i = Some v') in Hi. rewrite (Hidx _ _ Hi). lia.
Qed.

End ExtractionMore.

(** X8.  [playlist_index] is the slot of the entry in the rendered list, not
    its place among the extracted videos: each extracted video comes from the
    element at slot [playlist_index - 1], the indices grow strictly along the
    result, and there are no more videos than elements; an entry that is
    skipped leaves a gap. *)
Theorem X8_playlist_index_is_rendered_slot (caps : Capabilities)
  (els : list Element) :
  let vs := extract_videos caps els in
  length vs ≤ length els ∧
  (∀ v, v ∈ vs →
        1 ≤ VideoInfo.playlist_index v ∧
        ∃ e, els !! (VideoInfo.playlist_index v - 1) = Some e ∧
             extract_video caps (VideoInfo.playlist_index v - 1) e = Some v) ∧
  (∀ i j vi vj, i < j → vs !! i = Some vi → vs !! j = Some vj →
                VideoInfo.playlist_index vi < VideoInfo.playlist_index vj).
Proof.
  intros vs. split_and!.
  - unfold vs, extract_videos. etrans; [apply length_omap_le|].
    by rewrite length_imap.
  - intros v Hv.
    apply (extract_from_bounds caps 0 els) in Hv as (i & e & He & Hv).
    simpl in Hv. pose proof (extract_video_Some caps _ _ _ Hv) as (Hidx & _).
    rewrite Hidx. split; [lia|]. exists e.
    replace (i + 1 - 1) with i by lia. done.
  - intros i j vi vj. apply (extract_from_sorted caps 0 els).
Qed.

(** Three slots of which the second has no link: the videos get indices 1
    and 3. *)
Lemma X8_playlist_index_is_rendered_slot_witness :
  let els := [Ex.numbered 1;
              {| video_title_link := None; metadata_spans := None |};
              Ex.numbered 3] in
  let vs := extract_videos Ex.caps_ok els in
  VideoInfo.playlist_index <$> vs = [1; 3] ∧
  (∀ vi vj, vs !! 0 = Some vi → vs !! 1 = Some vj →
            VideoInfo.playlist_index vi < VideoInfo.playlist_index vj).
Proof.
  intros els vs. split; [vm_compute; reflexivity|].
  intros vi vj.
  exact (proj2 (proj2 (X8_playlist_index_is_rendered_slot Ex.caps_ok els))
           0 1 vi vj (le_n 1)).
Defined.

(** X9.  What an extracted video holds: its element has a link whose address
    contains the watch marker; the URL is that address cut at its first
    ampersand, that is, the address is the URL followed by nothing or by an
    ampersand and more, and the URL has no ampersand; the title is the link
    text stripped; no download index is set yet; and the upload information
    is what the search over the spans of the element gives: when there is
    one, it is a stripped span text that the recency pattern finds. *)
Theorem X9_extracted_video_fields (caps : Capabilities) (els : list Element)
  (v : VideoInfo.t) :
  v ∈ extract_videos caps els →
  ∃ e href text,
    e ∈ els ∧
    video_title_link e = Some (Some href, text) ∧
    contains (py "/watch?v=") href = true ∧
    VideoInfo.url v = before_amp href ∧
    (∃ rest, href = VideoInfo.url v ++ rest ∧
             (rest = [] ∨ ∃ r, rest = 38%N :: r)) ∧
    VideoInfo.url v `prefix_of` href ∧
    (38%N ∉ VideoInfo.url v) ∧
    VideoInfo.title v = strip text ∧
    stripped (VideoInfo.title v) ∧
    VideoInfo.download_index v = None ∧
    VideoInfo.upload_info v
    = match metadata_spans e with
      | Some spans => find_upload_info caps spans
      | None => None
      end ∧
    (∀ t, VideoInfo.upload_info v = Some t →
          upload_re caps t = true ∧
          ∃ spans span, metadata_spans e = Some spans ∧ span ∈ spans ∧
                        t = strip span).
Proof.
  intros Hv.
  apply (extract_from_bounds caps 0 els) in Hv as (i & e & He & Hv).
  apply extract_video_Some in Hv
    as (_ & Hd & href & text & Hl & Hw & Hu & Ht & Hup).
  exists e, href, text. split_and!; try done.
  - by eapply list_elem_of_lookup_2.
  - rewrite Hu. apply before_amp_split.
  - rewrite Hu. apply before_amp_prefix.
  - rewrite Hu. apply before_amp_no_amp.
  - rewrite Ht. apply strip_stripped.
  - intros t Hsome. rewrite Hup in Hsome.
    destruct (metadata_spans e) as [spans|]; [|done].
    apply find_upload_info_Some in Hsome as (? & span & ? & ?).
    split; [done|]. by exists spans, span.
Qed.

(** An entry whose link carries the list and index parameters and whose
    third span tells the age: the URL stops before the first ampersand. *)
Lemma X9_extracted_video_fields_witness :
  let href := py "https://www.youtube.com/watch?v=abc&list=PL&index=1" in
  let el := {| video_title_link := Some (Some href, py "  Video 1 ");
               metadata_spans :=
                 Some [py "Some Channel"; py "1.2M views"; py " 2 years ago "] |} in
  let v := VideoInfo.mk (py "Video 1") (py "https://www.youtube.com/watch?v=abc")
             1 (Some (py "2 years ago")) None in
  v ∈ extract_videos Ex.caps_ok [el] ∧
  ∃ e href' text,
    e ∈ [el] ∧
    video_title_link e = Some (Some href', text) ∧
    contains (py "/watch?v=") href' = true ∧
    VideoInfo.url v = before_amp href'.
Proof.
  intros href el v.
  assert (v ∈ extract_videos Ex.caps_ok [el]) as H
    by (vm_compute; apply list_elem_of_here).
  split; [exact H|].
  destruct (X9_extracted_video_fields Ex.caps_ok [el] v H)
    as (e & href' & text & He & Hl & Hw & Hu & _).
  exists e, href', text. exact (conj He (conj Hl (conj Hw Hu))).
Defined.

(** X10.  When every rendered element has a link to a watch address, nothing
    is skipped: there are as many videos as elements and the video at place
    [i] (from 0) has [playlist_index] [i + 1]. *)
Theorem X10_extraction_complete (caps : Capabilities) (els : list Element) :
  (∀ e, e ∈ els → ∃ href text, video_title_link e = Some (Some href, text) ∧
                    contains (py "/watch?v=") href = true) →
  length (extract_videos caps els) = length els ∧
  ∀ i v, extract_videos caps els !! i = Some v →
         VideoInfo.playlist_index v = i + 1.
Proof.
  intros Hall. destruct (extract_from_all caps 0 els Hall) as [Hlen Hidx].
  split; [exact Hlen|]. intros i v Hi. by rewrite (Hidx i v Hi).
Qed.

Lemma X10_extraction_complete_witness :
  (∀ e, e ∈ [Ex.numbered 1; Ex.numbered 2] →
        ∃ href text, video_title_link e = Some (Some href, text) ∧
                     contains (py "/watch?v=") href = true) ∧
  length (extract_videos Ex.caps_ok [Ex.numbered 1; Ex.numbered 2]) = 2.
Proof.
  assert (∀ e, e ∈ [Ex.numbered 1; Ex.numbered 2] →
            ∃ href text, video_title_link e = Some (Some href, text) ∧
                         contains (py "/watch?v=") href = true) as H.
  { intros e He.
    repeat (apply elem_of_cons in He as [-> | He];
            [do 2 eexists; split; [reflexivity | vm_compute; reflexivity]|]).
    by apply elem_of_nil in He. }
  split; [exact H|].
  exact (proj1 (X10_extraction_complete Ex.caps_ok _ H)).
Defined.

(** ** [_extract_playlist_metadata] *)

Section MetadataMore.

Context (caps : Capabilities).
Implicit Types (d : D caps).

Lemma first_title_Some d selectors t :
  first_title caps d selectors = Some t →
  title_acceptable caps t = true ∧
  ∃ selector raw, selector ∈ selectors ∧
                  find_text caps d selector = Some raw ∧ t = strip raw.
Proof.
  induction selectors as [|selector selectors IH]; simpl; [done|].
  destruct (find_text caps d selector) as [raw|] eqn:Hf.
  - destruct (title_acceptable caps (strip raw)) eqn:Ha.
    + intros [= <-]. split; [done|]. exists selector, raw.
      split; [apply list_elem_of_here | done].
    + intros H. destruct (IH H) as (? & s & r & ? & ? & ?). split; [done|].
      exists s, r. split; [by apply list_elem_of_further | done].
  - intros H. destruct (IH H) as (? & s & r & ? & ? & ?). split; [done|].
    exists s, r. split; [by apply list_elem_of_further | done].
Qed.

Lemma first_channel_Some d selectors c :
  first_channel caps d selectors = Some c →
  c ≠ [] ∧ ∃ selector raw, selector ∈ selectors ∧
                           find_text caps d selector = Some raw ∧ c = strip raw.
Proof.
  induction selectors as [|selector selectors IH]; simpl; [done|].
  destruct (find_text caps d selector) as [raw|] eqn:Hf.
  - case_bool_decide as Hnil.
    + intros H. destruct (IH H) as (? & s & r & ? & ? & ?). split; [done|].
      exists s, r. split; [by apply list_elem_of_further | done].
    + intros [= <-]. split; [done|]. exists selector, raw.
      split; [apply list_elem_of_here | done].
  - intros H. destruct (IH H) as (? & s & r & ? & ? & ?). split; [done|].
    exists s, r. split; [by apply list_elem_of_further | done].
Qed.

Lemma title_acceptable_true (t : pystr) :
  title_acceptable caps t = true →
  3 < length t < 200 ∧
  contains (py "youtube") (lower caps t) = false ∧
  contains (py "subscribe") (lower caps t) = false.
Proof.
  unfold title_acceptable. rewrite !andb_true_iff.
  intros ((((_ & H3%Nat.ltb_lt) & H200%Nat.ltb_lt) & Hy%negb_true_iff)
          & Hs%negb_true_iff).
  done.
Qed.

(** The title search returns the stripped text of the first selector, in
    the order of the list, whose text is acceptable; it returns nothing only
    when no selector has an acceptable text. *)
Lemma first_title_spec d selectors :
  match first_title caps d selectors with
  | Some t =>
      ∃ i selector raw,
        selectors !! i = Some selector ∧
        find_text caps d selector = Some raw ∧ t = strip raw ∧
        title_acceptable caps (strip raw) = true ∧
        ∀ j sel raw', j < i → selectors !! j = Some sel →
                      find_text caps d sel = Some raw' →
                      title_acceptable caps (strip raw') = false
  | None =>
      ∀ sel raw, sel ∈ selectors → find_text caps d sel = Some raw →
                 title_acceptable caps (strip raw) = false
  end.
Proof.
  induction selectors as [|selector selectors IH]; cbn [first_title].
  { intros sel raw Hin. by apply elem_of_nil in Hin. }
  assert ((∀ raw, find_text caps d selector = Some raw →
                  title_acceptable caps (strip raw) = false) →
          match first_title caps d selectors with
          | Some t =>
              ∃ i sel raw,
                (selector :: selectors) !! i = Some sel ∧
                find_text caps d sel = Some raw ∧ t = strip raw ∧
                title_acceptable caps (strip raw) = true ∧
                ∀ j sel' raw', j < i → (selector :: selectors) !! j = Some sel' →
                               find_text caps d sel' = Some raw' →
                               title_acceptable caps (strip raw') = false
          | None =>
              ∀ sel raw, sel ∈ selector :: selectors →
                         find_text caps d sel = Some raw →
                         title_acceptable caps (strip raw) = false
          end) as Hskip.
  { intros Hno.
    destruct (first_title caps d selectors) as [t|].
    - destruct IH as (i & sel & raw & Hi & Hf & -> & Hacc & Hbefore).
      exists (S i), sel, raw. split_and!; try done.
      intros [|j] sel' raw' Hj Hsel Hraw.
      + injection Hsel as <-. by apply Hno.
      + eapply (Hbefore j); [lia | exact Hsel | exact Hraw].
    - intros sel raw [-> | Hin]%elem_of_cons Hraw; [by apply Hno|].
      by eapply IH. }
  destruct (find_text caps d selector) as [raw|] eqn:Hf;
    [|apply Hskip; intros raw; congruence].
  cbv zeta.
  destruct (title_acceptable caps (strip raw)) eqn:Hacc.
  - exists 0, selector, raw. split_and!; try done. intros j ? ? Hj. lia.
  - apply Hskip. intros raw' [= <-]. done.
Qed.

(** The channel search returns the stripped text of the first selector, in
    the order of the list, whose stripped text is not empty. *)
Lemma first_channel_spec d selectors :
  match first_channel caps d selectors with
  | Some c =>
      ∃ i selector raw,
        selectors !! i = Some selector ∧
        find_text caps d selector = Some raw ∧ c = strip raw ∧
        strip raw ≠ [] ∧
        ∀ j sel raw', j < i → selectors !! j = Some sel →
                      find_text caps d sel = Some raw' → strip raw' = []
  | None =>
      ∀ sel raw, sel ∈ selectors → find_text caps d sel = Some raw →
                 strip raw = []
  end.
Proof.
  induction selectors as [|selector selectors IH]; cbn [first_channel].
  { intros sel raw Hin. by apply elem_of_nil in Hin. }
  assert ((∀ raw, find_text caps d selector = Some raw → strip raw = []) →
          match first_channel caps d selectors with
          | Some c =>
              ∃ i sel raw,
                (selector :: selectors) !! i = Some sel ∧
                find_text caps d sel = Some raw ∧ c = strip raw ∧
                strip raw ≠ [] ∧
                ∀ j sel' raw', j < i → (selector :: selectors) !! j = Some sel' →
                               find_text caps d sel' = Some raw' →
                               strip raw' = []
          | None =>
              ∀ sel raw, sel ∈ selector :: selectors →
                         find_text caps d sel = Some raw → strip raw = []
          end) as Hskip.
  { intros Hno.
    destruct (first_channel caps d selectors) as [c|].
    - destruct IH as (i & sel & raw & Hi & Hf & -> & Hne & Hbefore).
      exists (S i), sel, raw. split_and!; try done.
      intros [|j] sel' raw' Hj Hsel Hraw.
      + injection Hsel as <-. by apply Hno.
      + eapply (Hbefore j); [lia | exact Hsel | exact Hraw].
    - intros sel raw [-> | Hin]%elem_of_cons Hraw; [by apply Hno|].
      by eapply IH. }
  destruct (find_text caps d selector) as [raw|] eqn:Hf;
    [|apply Hskip; intros raw; congruence].
  cbv zeta. case_bool_decide as Hnil.
  - apply Hskip. intros raw' [= <-]. done.
  - exists 0, selector, raw. split_and!; try done. intros j ? ? Hj. lia.
Qed.

End MetadataMore.

(** X11.  The playlist information always names the playlist and the
    channel: neither is empty.  The title is the stripped text that the page
    shows under the first title selector, in the order of the list, whose
    text is acceptable (4 to 199 characters, mentioning neither youtube nor
    subscribe once lowered); only when no title selector has an acceptable
    text is it [Playlist_] followed by the list parameter of the address, or
    [Unknown Playlist] when the address has none.  The channel is the
    stripped text under the first channel selector whose stripped text is
    not empty, and [Unknown] only when there is none.  The address is the
    one the browser shows. *)
Theorem X11_metadata_never_blank (caps : Capabilities) (d : D caps) :
  let info := _extract_playlist_metadata caps d in
  PlaylistInfo.title info ≠ [] ∧
  PlaylistInfo.channel info ≠ [] ∧
  PlaylistInfo.url info = current_url caps d ∧
  ((∃ i selector raw,
      title_selectors !! i = Some selector ∧
      find_text caps d selector = Some raw ∧
      PlaylistInfo.title info = strip raw ∧
      (∀ j sel raw', j < i → title_selectors !! j = Some sel →
                     find_text caps d sel = Some raw' →
                     title_acceptable caps (strip raw') = false) ∧
      3 < length (PlaylistInfo.title info) < 200 ∧
      stripped (PlaylistInfo.title info) ∧
      contains (py "youtube") (lower caps (PlaylistInfo.title info)) = false ∧
      contains (py "subscribe") (lower caps (PlaylistInfo.title info)) = false) ∨
   ((∀ sel raw, sel ∈ title_selectors → find_text caps d sel = Some raw →
                title_acceptable caps (strip raw) = false) ∧
    ((∃ id, list_param caps (current_url caps d) = Some id ∧
            PlaylistInfo.title info = py "Playlist_" ++ id) ∨
     (list_param caps (current_url caps d) = None ∧
      PlaylistInfo.title info = py "Unknown Playlist")))) ∧
  ((∃ i selector raw,
      channel_selectors !! i = Some selector ∧
      find_text caps d selector = Some raw ∧
      PlaylistInfo.channel info = strip raw ∧
      stripped (PlaylistInfo.channel info) ∧
      (∀ j sel raw', j < i → channel_selectors !! j = Some sel →
                     find_text caps d sel = Some raw' → strip raw' = [])) ∨
   (PlaylistInfo.channel info = py "Unknown" ∧
    ∀ sel raw, sel ∈ channel_selectors → find_text caps d sel = Some raw →
               strip raw = [])).
Proof.
  intros info. unfold info, _extract_playlist_metadata.
  generalize (first_title_spec caps d title_selectors)
             (first_channel_spec caps d channel_selectors).
  generalize (first_title caps d title_selectors)
             (first_channel caps d channel_selectors).
  intros ft fc Ht Hc.
  cbn [PlaylistInfo.title PlaylistInfo.channel PlaylistInfo.url].
  assert (∀ t : pystr, 3 < length t → t ≠ []) as Hne.
  { intros t Hlen ->. simpl in Hlen. lia. }
  split_and!.
  - destruct ft as [t|]; simpl.
    + destruct Ht as (i & s & raw & _ & _ & -> & Ha%title_acceptable_true & _).
      apply Hne. lia.
    + by destruct (list_param caps (current_url caps d)).
  - destruct fc as [c|]; simpl; [|done].
    by destruct Hc as (i & s & raw & _ & _ & -> & ? & _).
  - done.
  - destruct ft as [t|]; simpl.
    + left. destruct Ht as (i & s & raw & Hi & Hf & -> & Hacc & Hbefore).
      destruct (title_acceptable_true caps _ Hacc) as (? & ? & ?).
      exists i, s, raw.
      split_and!; [done | done | done | done | lia | lia
                   | apply strip_stripped | done | done].
    + right. split; [done|].
      destruct (list_param caps (current_url caps d)) as [id|]; simpl.
      * left. by exists id.
      * by right.
  - destruct fc as [c|]; simpl.
    + left. destruct Hc as (i & s & raw & Hi & Hf & -> & _ & Hbefore).
      exists i, s, raw. split_and!; [done | done | done | | done].
      apply strip_stripped.
    + by right.
Qed.

(** A page whose [h1] reads [YouTube], which is not acceptable, and whose
    [.title] reads the name of the playlist with blanks around it; the
    channel is found under the last channel selector. *)
Example X11_metadata_example :
  let page := {| Sim.rendered _ := [];
                 Sim.texts sel :=
                   if bool_decide (sel = py "h1") then Some (py "YouTube")
                   else if bool_decide (sel = py ".title")
                        then Some (py "  Road trip 2019 ")
                        else if bool_decide (sel = py ".owner-text a")
                             then Some (py " Ann ")
                             else None;
                 Sim.page_url := py "https://youtube.com/playlist?list=PL" |} in
  let d : D Ex.caps_ok := {| Sim.page := page; Sim.scrolls := 0 |} in
  _extract_playlist_metadata Ex.caps_ok d
  = PlaylistInfo.mk (py "Road trip 2019") (py "Ann")
      (py "https://youtube.com/playlist?list=PL") 0.
Proof. vm_compute. reflexivity. Qed.

(** ** [download_video_with_ytdlp] *)

(** X12.  Skip if it exists: when the sanitized title has no opening bracket
    and the folder holds an entry whose name is that title followed by a dot
    and anything, the fetcher returns a skipped success under the sanitized
    title and touches nothing.  The rest of the name is not looked at, so the
    file of a video whose title merely begins with this title and a dot
    counts as well. *)
Theorem X12_fetch_skips_existing_file (caps : Capabilities) (w : World caps)
  (url title : pystr) (dir : Path) (e : pystr) :
  LBRACKET ∉ sanitize_filename title →
  sanitize_filename title ++ DOT :: e ∈ listdir caps (ext w) dir →
  download_video_with_ytdlp caps url title dir w
  = (DownloadResult.mk true true (sanitize_filename title) None, w).
Proof. apply fetch_skips_existing. Qed.

(** The folder holds [Intro.Part 2.mp4]; the video [Intro] is skipped. *)
Lemma X12_fetch_skips_existing_file_witness :
  let w := Sim.world Ex.caps_ok [(Ex.downloads, py "Intro.Part 2.mp4")] in
  (LBRACKET ∉ sanitize_filename (py "Intro")) ∧
  sanitize_filename (py "Intro") ++ DOT :: py "Part 2.mp4"
    ∈ listdir Ex.caps_ok (ext w) Ex.downloads ∧
  download_video_with_ytdlp Ex.caps_ok (Ex.watch_n 1) (py "Intro") Ex.downloads w
  = (DownloadResult.mk true true (sanitize_filename (py "Intro")) None, w).
Proof.
  intros w.
  assert (LBRACKET ∉ sanitize_filename (py "Intro")) as H1.
  { intros H. vm_compute in H.
    repeat (apply elem_of_cons in H as [H | H]; [discriminate H|]).
    by apply elem_of_nil in H. }
  assert (sanitize_filename (py "Intro") ++ DOT :: py "Part 2.mp4"
            ∈ listdir Ex.caps_ok (ext w) Ex.downloads) as H2
    by (vm_compute; apply list_elem_of_here).
  split; [exact H1|]. split; [exact H2|].
  exact (X12_fetch_skips_existing_file Ex.caps_ok w (Ex.watch_n 1) (py "Intro")
           Ex.downloads (py "Part 2.mp4") H1 H2).
Defined.



(** ** The calls of a playlist run *)

Section CallsMore.

Context (caps : Capabilities) (download_folder : Path).
Implicit Types (w : World caps) (videos : list VideoInfo.t) (config : Config)
  (url : pystr) (folder : Path) (c : Counters).

Lemma fetch_cases w url title folder :
  let sanitized := sanitize_filename title in
  let outtmpl := path_div folder (sanitized ++ py ".%(ext)s") in
  let r := (download_video_with_ytdlp caps url title folder w).1 in
  let w' := (download_video_with_ytdlp caps url title folder w).2 in
  (glob caps w folder (sanitized ++ py ".*") ≠ [] ∧
   r = DownloadResult.mk true true sanitized None ∧ w' = w) ∨
  (glob caps w folder (sanitized ++ py ".*") = [] ∧
   trace w' = trace w ++ [EvDownload url outtmpl] ∧
   ext w' = (ydl_download caps url outtmpl (ext w)).2 ∧
   match (ydl_download caps url outtmpl (ext w)).1 with
   | Ok _ => r = DownloadResult.mk true false sanitized None
   | Raise msg => r = DownloadResult.mk false false title (Some msg)
   end).
Proof.
  intros sanitized outtmpl r w'. unfold r, w', download_video_with_ytdlp.
  fold sanitized. fold outtmpl.
  destruct (decide (glob caps w folder (sanitized ++ py ".*") = [])) as [Hg | Hg].
  - right. rewrite bool_decide_eq_true_2 by done. simpl. unfold call.
    destruct (ydl_download caps url outtmpl (ext w)) as [[?|msg] x]; simpl; done.
  - left. rewrite bool_decide_eq_false_2 by done. done.
Qed.

Lemma fetch_calls w url title folder :
  trace (download_video_with_ytdlp caps url title folder w).2
  = trace w ++
    (if DownloadResult.skipped (download_video_with_ytdlp caps url title folder w).1
     then []
     else [EvDownload url
             (path_div folder (sanitize_filename title ++ py ".%(ext)s"))]).
Proof.
  destruct (fetch_cases w url title folder) as [(_ & -> & ->) | (_ & -> & _ & H)].
  - simpl. by rewrite app_nil_r.
  - destruct (ydl_download caps _ _ _).1; rewrite H; done.
Qed.

Lemma outcomes_nil_iff config folder n i videos w :
  outcomes caps config folder n i videos w = [] ↔ videos = [].
Proof.
  destruct videos as [|v videos]; simpl; [done|].
  by destruct (download_video_with_ytdlp _ _ _ _ _).
Qed.

Lemma loop_calls_nil folder delay videos : loop_calls folder delay videos [] = [].
Proof. by destruct videos. Qed.

(** The calls of the download loop, exactly. *)
Lemma download_videos_calls config folder n i videos c w :
  i + length videos = n →
  trace (download_videos caps config folder n i videos c w).2
  = trace w ++
    loop_calls folder (delay_between_downloads config) videos
      (outcomes caps config folder n i videos w).
Proof.
  revert i c w. induction videos as [|v videos IH]; intros i c w Hn.
  { simpl. by rewrite app_nil_r. }
  cbn [download_videos outcomes loop_calls].
  pose proof (fetch_calls w (VideoInfo.url v) (VideoInfo.title v) folder) as Hf.
  destruct (download_video_with_ytdlp caps (VideoInfo.url v) (VideoInfo.title v)
              folder w) as [r w1].
  cbn [fst snd] in Hf.
  destruct (negb (DownloadResult.success r) && negb (continue_on_error config)).
  - cbn [snd loop_calls]. rewrite loop_calls_nil, !app_nil_r. exact Hf.
  - rewrite IH by (simpl in Hn; lia).
    cbn [loop_calls].
    assert (trace (pause_between caps i n (delay_between_downloads config) w1)
            = trace w1 ++
              match outcomes caps config folder n (i + 1) videos
                      (pause_between caps i n (delay_between_downloads config) w1)
              with
              | [] => []
              | _ :: _ =>
                  if (0 <? delay_between_downloads config)%Z
                  then [EvSleep (delay_between_downloads config)] else []
              end) as Hp.
    { unfold pause_between.
      destruct videos as [|v' videos'].
      - simpl in Hn. replace (i <? n - 1) with false
          by (symmetry; apply Nat.ltb_ge; lia).
        simpl. by rewrite app_nil_r.
      - simpl in Hn. replace (i <? n - 1) with true
          by (symmetry; apply Nat.ltb_lt; lia).
        destruct (outcomes _ _ _ _ _ (v' :: videos') _) eqn:Ho.
        { by apply outcomes_nil_iff in Ho. }
        destruct (0 <? delay_between_downloads config)%Z; simpl;
          [done | by rewrite app_nil_r]. }
    rewrite Hp, Hf. by rewrite <- !app_assoc.
Qed.

(** Success and failure counters together count the fetches that were not
    skipped. *)
Lemma download_videos_not_skipped config folder n i videos c w :
  c_success (download_videos caps config folder n i videos c w).1
  + c_fail (download_videos caps config folder n i videos c w).1
  = c_success c + c_fail c
    + length (filter (fun r => DownloadResult.skipped r = false)
                (outcomes caps config folder n i videos w)).
Proof.
  revert i c w. induction videos as [|v videos IH]; intros i c w; simpl; [lia|].
  pose proof (fetch_result_shape caps w (VideoInfo.url v) (VideoInfo.title v) folder)
    as Hshape.
  destruct (download_video_with_ytdlp _ _ _ _ _) as [r w1]. simpl in Hshape.
  assert (c_success (count_result r c) + c_fail (count_result r c)
          = c_success c + c_fail c
            + (if DownloadResult.skipped r then 0 else 1)) as Hc.
  { unfold count_result.
    destruct (DownloadResult.success r), (DownloadResult.skipped r); simpl;
      first [lia | by specialize (Hshape eq_refl)]. }
  destruct (negb (DownloadResult.success r) && negb (continue_on_error config)).
  - simpl. rewrite filter_cons.
    destruct (DownloadResult.skipped r); case_decide; simpl; done || lia.
  - rewrite IH, filter_cons.
    destruct (DownloadResult.skipped r); case_decide; simpl; done || lia.
Qed.

Lemma loop_calls_downloads folder delay videos reached :
  length reached ≤ length videos →
  length (download_calls (loop_calls folder delay videos reached))
  = length (filter (fun r => DownloadResult.skipped r = false) reached).
Proof.
  revert reached. induction videos as [|v videos IH]; intros [|r reached] Hlen;
    simpl in *; try done; [lia|].
  unfold download_calls in *. rewrite !filter_app, !length_app, filter_cons.
  rewrite IH by lia.
  assert (length (filter (fun e => is_download e = true)
                    match reached with
                    | [] => []
                    | _ :: _ => if (0 <? delay)%Z then [EvSleep delay] else []
                    end) = 0) as ->.
  { destruct reached; [done|]. by destruct (0 <? delay)%Z. }
  destruct (DownloadResult.skipped r); case_decide; simpl; done || lia.
Qed.

Lemma loop_calls_sleeps folder delay videos reached :
  length reached ≤ length videos →
  length (sleep_calls (loop_calls folder delay videos reached))
  = if (0 <? delay)%Z then length reached - 1 else 0.
Proof.
  revert reached. induction videos as [|v videos IH]; intros [|r reached] Hlen;
    simpl in *; try (by destruct (0 <? delay)%Z); [lia|].
  unfold sleep_calls in *. rewrite !filter_app, !length_app.
  rewrite IH by lia.
  assert (length (filter (fun e => is_sleep e = true)
                    (if DownloadResult.skipped r then []
                     else [EvDownload (VideoInfo.url v)
                             (path_div folder
                                (sanitize_filename (VideoInfo.title v)
                                 ++ py ".%(ext)s"))])) = 0) as ->.
  { by destruct (DownloadResult.skipped r). }
  destruct reached as [|r' reached]; [by destruct (0 <? delay)%Z|].
  destruct (0 <? delay)%Z; simpl; lia.
Qed.

Lemma outcomes_continue config folder n i videos w :
  continue_on_error config = true →
  length (outcomes caps config folder n i videos w) = length videos.
Proof.
  intros Hc.
  pose proof (outcomes_length_le caps config folder n i videos w) as Hle.
  destruct (decide (length (outcomes caps config folder n i videos w)
                    < length videos)) as [Hlt|]; [|lia].
  apply outcomes_short in Hlt. congruence.
Qed.

Lemma prepare_folder_cases config playlist_info url videos w folder w1 :
  prepare_folder caps download_folder config playlist_info url videos w
  = (Ok folder, w1) →
  if create_playlist_folder config then
    folder = path_div download_folder
               (sanitize_filename (PlaylistInfo.title playlist_info)) ∧
    ∃ t, trace w1
         = trace w ++
           [EvMkdir folder;
            EvWriteJson (path_div folder (py "playlist_info.json"))
              (metadata_of playlist_info url videos t (sort_order config))]
  else folder = download_folder ∧ w1 = w.
Proof.
  unfold prepare_folder, bind, call, ret.
  destruct (create_playlist_folder config); [|by intros [= <- <-]].
  destruct (mkdir caps _ (ext w)) as [[[]|msg] x1]; [|done]. simpl.
  destruct (write_json caps _ _ x1) as [[[]|msg] x2]; [|done].
  intros [= <- <-]. simpl. split; [done|]. eexists.
  by rewrite <- app_assoc.
Qed.

Lemma extract_trace url h mv w :
  trace (extract_playlist_urls caps url h mv w).2 = trace w ++ [EvLaunch url h].
Proof.
  unfold extract_playlist_urls, bind, call.
  destruct (launch caps url h (ext w)) as [[d|msg] x]; [|done].
  by destruct (discover caps mv d).
Qed.

(** The calls of a run that returns a summary. *)
Lemma run_calls url config w playlist_info videos folder w1 :
  playlist_run caps download_folder url config w playlist_info videos folder w1 →
  ∃ prep,
    trace (download_playlist caps download_folder url config w).2
    = trace w ++ [EvLaunch url (headless config)] ++ prep
      ++ loop_calls folder (delay_between_downloads config) videos
           (outcomes caps config folder (length videos) 0 videos w1)
      ++ [EvCleanup] ∧
    if create_playlist_folder config then
      folder = path_div download_folder
                 (sanitize_filename (PlaylistInfo.title playlist_info)) ∧
      ∃ t, prep
           = [EvMkdir folder;
              EvWriteJson (path_div folder (py "playlist_info.json"))
                (metadata_of playlist_info url videos t (sort_order config))]
    else folder = download_folder ∧ prep = [].
Proof.
  intros Hpre.
  rewrite (download_playlist_of_run _ _ _ _ _ _ _ _ _ Hpre).
  destruct Hpre as (found & w0 & Hext & Hne & Hv & Hprep).
  pose proof (extract_trace url (headless config) (max_videos config) w) as Ht0.
  rewrite Hext in Ht0. simpl in Ht0.
  apply prepare_folder_cases in Hprep.
  cbn [snd tell trace].
  rewrite download_videos_calls by (simpl; lia).
  destruct (create_playlist_folder config).
  - destruct Hprep as (Hf & t & Ht1).
    exists [EvMkdir folder;
            EvWriteJson (path_div folder (py "playlist_info.json"))
              (metadata_of playlist_info url videos t (sort_order config))].
    split.
    + rewrite Ht1, Ht0. by rewrite <- !app_assoc.
    + split; [done|]. by exists t.
  - destruct Hprep as (Hf & ->). exists []. split; [|done].
    rewrite Ht0. by rewrite <- !app_assoc.
Qed.

End CallsMore.

(** X14.  The calls of a run that returns a summary, in order: the browser
    is launched; when the playlist folder is wanted it is created, under the
    sanitized playlist title, and the metadata file is written into it, both
    before any download; then come the calls of the download loop, one
    download for each video reached and not skipped, with a pause after each
    video reached but the last when the delay is positive; the cleanup comes
    last.  Without the playlist folder the videos go to the download folder
    itself and nothing is created or written. *)
Theorem X14_calls_of_a_run (caps : Capabilities) (download_folder : Path)
  (url : pystr) (config : Config) (w : World caps) (s : Summary.t)
  (w' : World caps) :
  download_playlist caps download_folder url config w = (Some s, w') →
  ∃ playlist_info videos folder w1 prep,
    playlist_run caps download_folder url config w playlist_info videos folder w1 ∧
    trace w'
    = trace w ++ [EvLaunch url (headless config)] ++ prep
      ++ loop_calls folder (delay_between_downloads config) videos
           (outcomes caps config folder (length videos) 0 videos w1)
      ++ [EvCleanup] ∧
    Summary.playlist_folder s = path_str folder ∧
    if create_playlist_folder config then
      folder = path_div download_folder
                 (sanitize_filename (PlaylistInfo.title playlist_info)) ∧
      ∃ t, prep
           = [EvMkdir folder;
              EvWriteJson (path_div folder (py "playlist_info.json"))
                (metadata_of playlist_info url videos t (sort_order config))]
    else folder = download_folder ∧ prep = [].
Proof.
  intros Hrun.
  destruct (download_playlist_inv _ _ _ _ _ _ _ Hrun)
    as (playlist_info & videos & folder & w1 & Hpre).
  destruct (run_calls caps download_folder url config w playlist_info videos
              folder w1 Hpre) as (prep & Htrace & Hprep).
  exists playlist_info, videos, folder, w1, prep.
  rewrite Hrun in Htrace. cbn [snd] in Htrace.
  rewrite (download_playlist_of_run _ _ _ _ _ _ _ _ _ Hpre) in Hrun.
  injection Hrun as <- _. done.
Qed.

Lemma X14_calls_of_a_run_witness :
  let s := summary_of Ex.stop_on_error Ex.five_info Ex.five_videos
             Ex.five_folder {| c_success := 2; c_fail := 1; c_skipped := 0 |} in
  let w' := (download_playlist Ex.caps Ex.downloads (py "PL5")
               Ex.stop_on_error Ex.five_world).2 in
  download_playlist Ex.caps Ex.downloads (py "PL5") Ex.stop_on_error
    Ex.five_world = (Some s, w') ∧
  ∃ playlist_info videos folder w1 prep,
    playlist_run Ex.caps Ex.downloads (py "PL5") Ex.stop_on_error
      Ex.five_world playlist_info videos folder w1 ∧
    trace w'
    = trace Ex.five_world ++ [EvLaunch (py "PL5") true] ++ prep
      ++ loop_calls folder 3000 videos
           (outcomes Ex.caps Ex.stop_on_error folder (length videos) 0 videos w1)
      ++ [EvCleanup].
Proof.
  intros s w'.
  assert (download_playlist Ex.caps Ex.downloads (py "PL5") Ex.stop_on_error
            Ex.five_world = (Some s, w')) as Hrun by (vm_compute; reflexivity).
  split; [exact Hrun|].
  destruct (X14_calls_of_a_run Ex.caps Ex.downloads (py "PL5") Ex.stop_on_error
              Ex.five_world s w' Hrun)
    as (playlist_info & videos & folder & w1 & prep & Hpre & Htrace & _).
  exists playlist_info, videos, folder, w1, prep. split; assumption.
Defined.

(** X15.  The downloader is called once for each video that ends up counted
    as succeeded or failed, and never for a skipped one: over a run that
    returns a summary the number of download calls grows by
    [success_count + fail_count]. *)
Theorem X15_one_download_call_per_unskipped_video (caps : Capabilities)
  (download_folder : Path) (url : pystr) (config : Config) (w : World caps)
  (s : Summary.t) (w' : World caps) :
  download_playlist caps download_folder url config w = (Some s, w') →
  length (download_calls (trace w'))
  = length (download_calls (trace w))
    + Summary.success_count s + Summary.fail_count s.
Proof.
  intros Hrun.
  destruct (download_playlist_inv _ _ _ _ _ _ _ Hrun)
    as (playlist_info & videos & folder & w1 & Hpre).
  destruct (run_calls caps download_folder url config w playlist_info videos
              folder w1 Hpre) as (prep & Htrace & Hprep).
  rewrite Hrun in Htrace. cbn [snd] in Htrace.
  rewrite (download_playlist_of_run _ _ _ _ _ _ _ _ _ Hpre) in Hrun.
  injection Hrun as <- _.
  pose proof (download_videos_not_skipped caps config folder (length videos) 0
                videos counters_init w1) as Hcount.
  pose proof (loop_calls_downloads folder (delay_between_downloads config)
                videos _ (outcomes_length_le caps config folder (length videos)
                            0 videos w1)) as Hloop.
  assert (download_calls prep = []) as Hprep0.
  { destruct (create_playlist_folder config).
    - destruct Hprep as (_ & t & ->). reflexivity.
    - destruct Hprep as (_ & ->). reflexivity. }
  rewrite Htrace. unfold download_calls in *.
  rewrite !filter_app, !length_app, Hprep0, Hloop.
  unfold summary_of. simpl in *. lia.
Qed.

Lemma X15_one_download_call_per_unskipped_video_witness :
  let s := summary_of Ex.stop_on_error Ex.five_info Ex.five_videos
             Ex.five_folder {| c_success := 2; c_fail := 1; c_skipped := 0 |} in
  let w' := (download_playlist Ex.caps Ex.downloads (py "PL5")
               Ex.stop_on_error Ex.five_world).2 in
  download_playlist Ex.caps Ex.downloads (py "PL5") Ex.stop_on_error
    Ex.five_world = (Some s, w') ∧
  length (download_calls (trace w'))
  = length (download_calls (trace Ex.five_world)) + 2 + 1.
Proof.
  intros s w'.
  assert (download_playlist Ex.caps Ex.downloads (py "PL5") Ex.stop_on_error
            Ex.five_world = (Some s, w')) as Hrun by (vm_compute; reflexivity).
  split; [exact Hrun|].
  exact (X15_one_download_call_per_unskipped_video Ex.caps Ex.downloads
           (py "PL5") Ex.stop_on_error Ex.five_world s w' Hrun).
Defined.

(** X16.  Pauses between downloads: with a positive delay a run pauses once
    after every video it reaches except the last one reached, so one time
    less than the sum of its three counters; with a delay of zero or less it
    never pauses.  There is no pause after the last video nor after the one
    that stops the run. *)
Theorem X16_pauses_between_downloads (caps : Capabilities)
  (download_folder : Path) (url : pystr) (config : Config) (w : World caps)
  (s : Summary.t) (w' : World caps) :
  download_playlist caps download_folder url config w = (Some s, w') →
  length (sleep_calls (trace w'))
  = length (sleep_calls (trace w))
    + (if (0 <? delay_between_downloads config)%Z then counted s - 1 else 0).
Proof.
  intros Hrun.
  destruct (download_playlist_inv _ _ _ _ _ _ _ Hrun)
    as (playlist_info & videos & folder & w1 & Hpre).
  destruct (run_calls caps download_folder url config w playlist_info videos
              folder w1 Hpre) as (prep & Htrace & Hprep).
  rewrite Hrun in Htrace. cbn [snd] in Htrace.
  rewrite (download_playlist_of_run _ _ _ _ _ _ _ _ _ Hpre) in Hrun.
  injection Hrun as <- _.
  pose proof (download_videos_sum caps config folder (length videos) 0
                videos counters_init w1) as Hcount.
  pose proof (loop_calls_sleeps folder (delay_between_downloads config)
                videos _ (outcomes_length_le caps config folder (length videos)
                            0 videos w1)) as Hloop.
  assert (sleep_calls prep = []) as Hprep0.
  { destruct (create_playlist_folder config).
    - destruct Hprep as (_ & t & ->). reflexivity.
    - destruct Hprep as (_ & ->). reflexivity. }
  rewrite Htrace. unfold sleep_calls in *.
  rewrite !filter_app, !length_app, Hprep0, Hloop.
  unfold counted, summary_of, csum in *. simpl in *.
  destruct (0 <? delay_between_downloads config)%Z; lia.
Qed.

Lemma X16_pauses_between_downloads_witness :
  let s := summary_of Ex.stop_on_error Ex.five_info Ex.five_videos
             Ex.five_folder {| c_success := 2; c_fail := 1; c_skipped := 0 |} in
  let w' := (download_playlist Ex.caps Ex.downloads (py "PL5")
               Ex.stop_on_error Ex.five_world).2 in
  download_playlist Ex.caps Ex.downloads (py "PL5") Ex.stop_on_error
    Ex.five_world = (Some s, w') ∧
  length (sleep_calls (trace w')) = 0 + (3 - 1).
Proof.
  intros s w'.
  assert (download_playlist Ex.caps Ex.downloads (py "PL5") Ex.stop_on_error
            Ex.five_world = (Some s, w')) as Hrun by (vm_compute; reflexivity).
  split; [exact Hrun|].
  exact (X16_pauses_between_downloads Ex.caps Ex.downloads (py "PL5")
           Ex.stop_on_error Ex.five_world s w' Hrun).
Defined.

(** X17.  [download_playlist] returns [None] in exactly three cases:
    extraction raises; extraction finds no video; or the videos are there
    but creating the folder or writing the metadata file raises.  A failed
    download is never one of them. *)
Theorem X17_when_a_run_returns_nothing (caps : Capabilities)
  (download_folder : Path) (url : pystr) (config : Config) (w : World caps) :
  (download_playlist caps download_folder url config w).1 = None ↔
  (∃ msg w0, extract_playlist_urls caps url (headless config)
               (max_videos config) w = (Raise msg, w0)) ∨
  (∃ playlist_info w0, extract_playlist_urls caps url (headless config)
                         (max_videos config) w = (Ok (playlist_info, []), w0)) ∨
  (∃ playlist_info found w0 msg w1,
     extract_playlist_urls caps url (headless config) (max_videos config) w
     = (Ok (playlist_info, found), w0) ∧
     found ≠ [] ∧
     prepare_folder caps download_folder config playlist_info url
       (assign_download_index (sort_videos (sort_order config) found)) w0
     = (Raise msg, w1)).
Proof.
  unfold download_playlist, download_playlist_try, bind.
  destruct (extract_playlist_urls caps url (headless config) (max_videos config) w)
    as [[[pi found]|msg] w0] eqn:Hext.
  2: { split; [|done]. intros _. left. by exists msg, w0. }
  destruct (decide (found = [])) as [-> | Hne].
  { rewrite bool_decide_eq_true_2 by done. split; [|done].
    intros _. right; left. by exists pi, w0. }
  rewrite bool_decide_eq_false_2 by done.
  destruct (prepare_folder _ _ _ _ _ _ _) as [[folder|msg] w1] eqn:Hprep.
  - destruct (download_videos _ _ _ _ _ _ _ _) as [c w2]. simpl. split; [done|].
    intros [(? & ? & [=]) | [(? & ? & [= _ ? _]) | (? & ? & ? & ? & ? & [= <- <- <-] & _ & H)]];
      [done|]. rewrite Hprep in H. done.
  - simpl. split; [|done]. intros _. right; right.
    by exists pi, found, w0, msg, w1.
Qed.

(** X18.  What a run that returns [None] has done.  When extraction finds no
    video the only call made is the launch of the browser: no folder, no
    file, no download, and no cleanup either.  When extraction raises, the
    launch is followed by the cleanup and nothing else. *)
Theorem X18_calls_of_an_empty_or_failed_extraction (caps : Capabilities)
  (download_folder : Path) (url : pystr) (config : Config) (w : World caps) :
  (∀ playlist_info w0,
     extract_playlist_urls caps url (headless config) (max_videos config) w
     = (Ok (playlist_info, []), w0) →
     download_playlist caps download_folder url config w = (None, w0) ∧
     trace w0 = trace w ++ [EvLaunch url (headless config)]) ∧
  (∀ msg w0,
     extract_playlist_urls caps url (headless config) (max_videos config) w
     = (Raise msg, w0) →
     (download_playlist caps download_folder url config w).1 = None ∧
     trace (download_playlist caps download_folder url config w).2
     = trace w ++ [EvLaunch url (headless config); EvCleanup]).
Proof.
  split.
  - intros pi w0 Hext. split; [by eapply download_playlist_none_on_empty|].
    pose proof (extract_trace caps url (headless config) (max_videos config) w) as H.
    by rewrite Hext in H.
  - intros msg w0 Hext.
    rewrite (download_playlist_none_on_raise _ _ _ _ _ _ _ Hext).
    split; [done|]. simpl.
    pose proof (extract_trace caps url (headless config) (max_videos config) w) as H.
    rewrite Hext in H. simpl in H. rewrite H. by rewrite <- app_assoc.
Qed.

Lemma X18_calls_of_an_empty_or_failed_extraction_witness :
  let w := Sim.world Ex.caps_ok [] in
  let w0 := (extract_playlist_urls Ex.caps_ok (py "PL0") true None w).2 in
  extract_playlist_urls Ex.caps_ok (py "PL0") true None w
  = (Ok (PlaylistInfo.mk (py "Playlist_PL") (py "Unknown")
           (py "https://youtube.com/playlist?list=PL") 0, []), w0) ∧
  download_playlist Ex.caps_ok Ex.downloads (py "PL0") Ex.go_on w = (None, w0) ∧
  trace w0 = trace w ++ [EvLaunch (py "PL0") true].
Proof.
  intros w w0.
  assert (extract_playlist_urls Ex.caps_ok (py "PL0") (headless Ex.go_on)
            (max_videos Ex.go_on) w
          = (Ok (PlaylistInfo.mk (py "Playlist_PL") (py "Unknown")
                   (py "https://youtube.com/playlist?list=PL") 0, []), w0))
    as H by (vm_compute; reflexivity).
  split; [exact H|].
  exact (proj1 (X18_calls_of_an_empty_or_failed_extraction Ex.caps_ok
                  Ex.downloads (py "PL0") Ex.go_on w) _ w0 H).
Defined.

(** X19.  With [continue_on_error] on, as it is by default, the loop reaches
    every video whatever fails: the three counters of the summary add up to
    [total_videos]. *)
Theorem X19_continue_on_error_reaches_all (caps : Capabilities)
  (download_folder : Path) (url : pystr) (config : Config) (w : World caps)
  (s : Summary.t) (w' : World caps) :
  continue_on_error config = true →
  download_playlist caps download_folder url config w = (Some s, w') →
  counted s = Summary.total_videos s.
Proof.
  intros Hc Hrun.
  destruct (download_playlist_inv _ _ _ _ _ _ _ Hrun)
    as (playlist_info & videos & folder & w1 & Hpre).
  rewrite (download_playlist_of_run _ _ _ _ _ _ _ _ _ Hpre) in Hrun.
  injection Hrun as <- _.
  pose proof (download_videos_sum caps config folder (length videos) 0 videos
                counters_init w1) as Hsum.
  rewrite (outcomes_continue caps config folder _ 0 videos w1 Hc) in Hsum.
  unfold counted, summary_of, csum in *. simpl in *. lia.
Qed.

Lemma X19_continue_on_error_reaches_all_witness :
  let s := summary_of Ex.go_on Ex.five_info Ex.five_videos
             Ex.five_folder {| c_success := 4; c_fail := 1; c_skipped := 0 |} in
  let w' := (download_playlist Ex.caps Ex.downloads (py "PL5")
               Ex.go_on Ex.five_world).2 in
  continue_on_error Ex.go_on = true ∧
  download_playlist Ex.caps Ex.downloads (py "PL5") Ex.go_on Ex.five_world
  = (Some s, w') ∧
  counted s = Summary.total_videos s.
Proof.
  intros s w'.
  assert (download_playlist Ex.caps Ex.downloads (py "PL5") Ex.go_on
            Ex.five_world = (Some s, w')) as Hrun by (vm_compute; reflexivity).
  split; [reflexivity|]. split; [exact Hrun|].
  exact (X19_continue_on_error_reaches_all Ex.caps Ex.downloads (py "PL5")
           Ex.go_on Ex.five_world s w' eq_refl Hrun).
Defined.

Lemma meta_video_assign (videos : list VideoInfo.t) :
  meta_video <$> assign_download_index videos = meta_video <$> videos.
Proof.
  unfold assign_download_index. rewrite fmap_imap.
  induction videos as [|v videos IH] using rev_ind; [done|].
  rewrite imap_app, fmap_app, IH. simpl. done.
Qed.

(** X20.  What the metadata file says.  In a run with the playlist folder
    that returns a summary, the file [playlist_info.json] is written in the
    folder named after the sanitized playlist title; it gives the title and
    channel of the playlist information, the address the run was called
    with, the sort order asked for, and the videos in download order, each
    with the slot it had in the playlist; download indices are not part of
    it. *)
Theorem X20_metadata_file_contents (caps : Capabilities)
  (download_folder : Path) (url : pystr) (config : Config) (w : World caps)
  (s : Summary.t) (w' : World caps) :
  create_playlist_folder config = true →
  download_playlist caps download_folder url config w = (Some s, w') →
  ∃ found w0 md,
    extract_playlist_urls caps url (headless config) (max_videos config) w
    = (Ok (Summary.playlist_info s, found), w0) ∧
    EvWriteJson
      (path_div
         (path_div download_folder
            (sanitize_filename (PlaylistInfo.title (Summary.playlist_info s))))
         (py "playlist_info.json")) md ∈ trace w' ∧
    Metadata.title md = PlaylistInfo.title (Summary.playlist_info s) ∧
    Metadata.channel md = PlaylistInfo.channel (Summary.playlist_info s) ∧
    Metadata.url md = url ∧
    Metadata.sort_order md = sort_order config ∧
    Metadata.videos md = sort_videos (sort_order config) (meta_video <$> found).
Proof.
  intros Hc Hrun.
  destruct (download_playlist_inv _ _ _ _ _ _ _ Hrun)
    as (playlist_info & videos & folder & w1 & Hpre).
  destruct (run_calls caps download_folder url config w playlist_info videos
              folder w1 Hpre) as (prep & Htrace & Hprep).
  rewrite Hrun in Htrace. cbn [snd] in Htrace.
  rewrite (download_playlist_of_run _ _ _ _ _ _ _ _ _ Hpre) in Hrun.
  injection Hrun as <- _. simpl.
  rewrite Hc in Hprep. destruct Hprep as (-> & t & ->).
  destruct Hpre as (found & w0 & Hext & _ & -> & _).
  exists found, w0, (metadata_of playlist_info url
                       (assign_download_index (sort_videos (sort_order config) found))
                       t (sort_order config)).
  split_and!; try done.
  - rewrite Htrace. rewrite !elem_of_app. right. right. left.
    apply list_elem_of_further, list_elem_of_here.
  - simpl. change (meta_video <$> assign_download_index
                                    (sort_videos (sort_order config) found)
                   = sort_videos (sort_order config) (meta_video <$> found)).
    by rewrite meta_video_assign, sort_videos_fmap.
Qed.

Lemma X20_metadata_file_contents_witness :
  let s := summary_of Ex.go_on Ex.five_info Ex.five_videos
             Ex.five_folder {| c_success := 4; c_fail := 1; c_skipped := 0 |} in
  let w' := (download_playlist Ex.caps Ex.downloads (py "PL5")
               Ex.go_on Ex.five_world).2 in
  create_playlist_folder Ex.go_on = true ∧
  download_playlist Ex.caps Ex.downloads (py "PL5") Ex.go_on Ex.five_world
  = (Some s, w') ∧
  ∃ md, EvWriteJson (Ex.five_folder ++ [py "playlist_info.json"]) md ∈ trace w' ∧
        Metadata.url md = py "PL5".
Proof.
  intros s w'.
  assert (download_playlist Ex.caps Ex.downloads (py "PL5") Ex.go_on
            Ex.five_world = (Some s, w')) as Hrun by (vm_compute; reflexivity).
  split; [reflexivity|]. split; [exact Hrun|].
  destruct (X20_metadata_file_contents Ex.caps Ex.downloads (py "PL5")
              Ex.go_on Ex.five_world s w' eq_refl Hrun)
    as (found & w0 & md & _ & Hin & _ & _ & Hurl & _).
  exists md. split; [exact Hin | exact Hurl].
Defined.

(** ** The batch, for any per-playlist function *)

Section BatchMore.

Context (caps : Capabilities).
Implicit Types (w : World caps) (config : Config) (a : BatchAcc)
  (run : pystr → Config → M caps (option Summary.t)).

Lemma totals_agree_success url (r : Summary.t) a :
  totals_agree a → totals_agree (record_success url r a).
Proof.
  intros (H1 & H2 & H3 & H4). unfold totals_agree, record_success.
  cbn [b_results b_total_success b_total_skipped b_total_failed
       b_total_playlists_failed].
  rewrite !sum_list_with_app, filter_app, length_app.
  rewrite filter_cons_False by (simpl; congruence).
  rewrite H1, H2, H3, H4. simpl. split_and!; lia.
Qed.

Lemma totals_agree_error url e a :
  totals_agree a → totals_agree (record_error url e a).
Proof.
  intros (H1 & H2 & H3 & H4). unfold totals_agree, record_error.
  cbn [b_results b_total_success b_total_skipped b_total_failed
       b_total_playlists_failed].
  rewrite !sum_list_with_app, filter_app, length_app.
  rewrite filter_cons_True by done.
  rewrite H1, H2, H3, H4. simpl. split_and!; lia.
Qed.

Lemma batch_loop_totals run config n i urls a w :
  totals_agree a → totals_agree (batch_loop caps run config n i urls a w).1.
Proof.
  revert i a w. induction urls as [|url urls IH]; intros i a w Ha; simpl; [done|].
  destruct (run url config w) as [[[r|]|e] w1].
  - by apply IH, totals_agree_success.
  - by apply IH.
  - destruct (continue_on_playlist_error config); simpl.
    + by apply IH, totals_agree_error.
    + by apply totals_agree_error.
Qed.

(** The entries added by the loop follow the order of the URLs; when the
    batch is to stop on an error, an error entry can only be the last. *)
Lemma batch_loop_results run config n i urls a w :
  ∃ new,
    b_results (batch_loop caps run config n i urls a w).1 = b_results a ++ new ∧
    entry_url <$> new `sublist_of` urls ∧
    (continue_on_playlist_error config = false →
     ∀ e, e ∈ new → entry_success e = false → new = filter (fun e => entry_success e = true) new ++ [e]).
Proof.
  revert i a w. induction urls as [|url urls IH]; intros i a w; simpl.
  { exists []. rewrite app_nil_r. split_and!; [done|done|].
    intros _ e He. by apply elem_of_nil in He. }
  destruct (run url config w) as [[[r|]|e] w1].
  - destruct (IH (i + 1) (record_success url r a)
                (pause_between_playlists caps i n (delay_between_playlists config) w1))
      as (new & Hnew & Hsub & Hstop).
    eexists (_ :: new). split_and!.
    + rewrite Hnew. simpl. by rewrite <- app_assoc.
    + simpl. by apply sublist_skip.
    + intros Hc e He Hf. apply elem_of_cons in He as [-> | He]; [done|].
      rewrite filter_cons_True by done. simpl. f_equal. by apply Hstop.
  - destruct (IH (i + 1) a
                (pause_between_playlists caps i n (delay_between_playlists config) w1))
      as (new & Hnew & Hsub & Hstop).
    exists new. split_and!; [done | by apply sublist_cons | done].
  - destruct (continue_on_playlist_error config) eqn:Hc; simpl.
    + destruct (IH (i + 1) (record_error url e a)
                  (pause_between_playlists caps i n (delay_between_playlists config) w1))
        as (new & Hnew & Hsub & Hstop).
      eexists (_ :: new). split_and!.
      * rewrite Hnew. simpl. by rewrite <- app_assoc.
      * simpl. by apply sublist_skip.
      * done.
    + exists [EntryError url e]. split_and!; [done| |].
      * simpl. apply sublist_skip, sublist_nil_l.
      * intros _ e' He'. apply list_elem_of_singleton in He' as ->. done.
Qed.

Lemma length_filter_success (l : list BatchEntry) :
  length (filter (fun e => entry_success e = true) l)
  + length (filter (fun e => entry_success e = false) l) = length l.
Proof.
  induction l as [|e l IH]; [done|].
  rewrite !filter_cons. destruct (entry_success e); simpl;
    repeat case_decide; simpl; try done; lia.
Qed.

End BatchMore.

(** X21.  The books of a batch balance, whatever its playlists do: the three
    video totals of the summary are the sums of the counters of the entries
    in [results]; the successful and the failed playlists together are the
    entries recorded; and there are at most as many entries as URLs. *)
Theorem X21_batch_totals (caps : Capabilities)
  (run : pystr → Config → M caps (option Summary.t))
  (urls : list pystr) (config : Config) (w : World caps) :
  let r := (download_multiple_playlists_with caps run urls config w).1 in
  total_videos_downloaded r = sum_list_with entry_downloaded (results r) ∧
  total_videos_skipped r = sum_list_with entry_skipped (results r) ∧
  total_videos_failed r = sum_list_with entry_failed (results r) ∧
  successful_playlists r + failed_playlists r = length (results r) ∧
  length (results r) ≤ total_playlists r ∧
  total_playlists r = length urls.
Proof.
  intros r. unfold r, download_multiple_playlists_with.
  pose proof (batch_loop_totals caps run config (length urls) 0 urls batch_init w)
    as Htot.
  destruct (batch_loop_results caps run config (length urls) 0 urls batch_init w)
    as (new & Hnew & Hsub & _).
  destruct (batch_loop caps run config (length urls) 0 urls batch_init w)
    as [a w']. simpl in *.
  destruct Htot as (H1 & H2 & H3 & H4); [done|].
  split_and!; try done.
  - rewrite H4. apply length_filter_success.
  - rewrite Hnew. apply sublist_length in Hsub.
    rewrite length_fmap in Hsub. done.
Qed.

(** X22.  The entries of [results] follow the order of the URL list: their
    URLs form a subsequence of it.  And when the batch is told to stop on a
    playlist error, an error entry can only be the last entry: nothing is
    recorded after it, and at most one playlist is counted as failed. *)
Theorem X22_batch_order_and_stop (caps : Capabilities)
  (run : pystr → Config → M caps (option Summary.t))
  (urls : list pystr) (config : Config) (w : World caps) :
  let r := (download_multiple_playlists_with caps run urls config w).1 in
  entry_url <$> results r `sublist_of` urls ∧
  (continue_on_playlist_error config = false →
   failed_playlists r ≤ 1 ∧
   ∀ e, e ∈ results r → entry_success e = false → last (results r) = Some e).
Proof.
  intros r. unfold r, download_multiple_playlists_with.
  pose proof (batch_loop_totals caps run config (length urls) 0 urls batch_init w)
    as Htot.
  destruct (batch_loop_results caps run config (length urls) 0 urls batch_init w)
    as (new & Hnew & Hsub & Hstop).
  destruct (batch_loop caps run config (length urls) 0 urls batch_init w)
    as [a w']. simpl in *. subst new.
  destruct Htot as (_ & _ & _ & H4); [done|].
  split; [done|]. intros Hc. specialize (Hstop Hc). split.
  - rewrite H4.
    destruct (filter (fun e => entry_success e = false) (b_results a))
      as [|e l] eqn:Hf; [simpl; lia|].
    assert (e ∈ filter (fun e => entry_success e = false) (b_results a)) as He
      by (rewrite Hf; apply list_elem_of_here).
    apply list_elem_of_filter in He as [Hfalse He].
    pose proof (Hstop e He Hfalse) as HR.
    assert (filter (fun x => entry_success x = false)
              (filter (fun x => entry_success x = true) (b_results a) ++ [e])
            = [e]) as Hone.
    { rewrite filter_app, list_filter_filter.
      assert (filter (fun x => entry_success x = false ∧ entry_success x = true)
                (b_results a) = []) as ->.
      { clear. induction (b_results a) as [|x l IH]; [done|].
        rewrite filter_cons_False; [done|]. intros [? ?]. congruence. }
      by rewrite filter_cons_True. }
    rewrite <- HR in Hone. rewrite Hone in Hf. injection Hf as <-. simpl. lia.
  - intros e He Hfalse. rewrite (Hstop e He Hfalse). apply last_snoc.
Qed.

Lemma X22_batch_order_and_stop_witness :
  let run : pystr → Config → M Ex.caps_ok (option Summary.t) :=
    fun url _ (w : World Ex.caps_ok) =>
      if bool_decide (url = py "bad") then (Raise (py "boom"), w)
      else (Ok None, w) in
  let r := (download_multiple_playlists_with Ex.caps_ok run
              [py "a"; py "bad"; py "c"] Ex.stop_on_error
              (Sim.world Ex.caps_ok [])).1 in
  continue_on_playlist_error Ex.stop_on_error = false ∧
  results r = [EntryError (py "bad") (py "boom")] ∧
  failed_playlists r ≤ 1.
Proof.
  intros run r. split; [reflexivity|]. split; [vm_compute; reflexivity|].
  exact (proj1 (proj2 (X22_batch_order_and_stop Ex.caps_ok run
                         [py "a"; py "bad"; py "c"] Ex.stop_on_error
                         (Sim.world Ex.caps_ok [])) eq_refl)).
Defined.

(** ** Options that change nothing *)

Section RetryOptions.

Context (caps : Capabilities) (download_folder : Path).
Implicit Types (w : World caps) (config : Config).

Lemma download_videos_retry_options retries go_on config folder n i videos c w :
  download_videos caps (with_retry_options retries go_on config) folder n i
    videos c w
  = download_videos caps config folder n i videos c w.
Proof.
  revert i c w. induction videos as [|v videos IH]; intros i c w; simpl; [done|].
  destruct (download_video_with_ytdlp _ _ _ _ _) as [r w1].
  destruct (negb (DownloadResult.success r) && negb (continue_on_error config));
    [done|]. apply IH.
Qed.

Lemma download_playlist_retry_options retries go_on config url w :
  download_playlist caps download_folder url
    (with_retry_options retries go_on config) w
  = download_playlist caps download_folder url config w.
Proof.
  unfold download_playlist, download_playlist_try, bind. simpl.
  destruct (extract_playlist_urls caps url (headless config) (max_videos config) w)
    as [[[pi found]|msg] w0]; [|done].
  destruct (bool_decide (found = [])); [done|].
  change (prepare_folder caps download_folder
            (with_retry_options retries go_on config) pi url
            (assign_download_index (sort_videos (sort_order config) found)) w0)
    with (prepare_folder caps download_folder config pi url
            (assign_download_index (sort_videos (sort_order config) found)) w0).
  destruct (prepare_folder _ _ _ _ _ _ _) as [[folder|msg] w1]; [|done].
  by rewrite download_videos_retry_options.
Qed.

Lemma batch_loop_retry_options retries go_on config n i urls a w :
  batch_loop caps (run_playlist caps download_folder)
    (with_retry_options retries go_on config) n i urls a w
  = batch_loop caps (run_playlist caps download_folder) config n i urls a w.
Proof.
  revert i a w. induction urls as [|url urls IH]; intros i a w; [done|].
  cbn [batch_loop].
  assert (run_playlist caps download_folder url
            (with_retry_options retries go_on config) w
          = run_playlist caps download_folder url config w) as Hrun.
  { unfold run_playlist. by rewrite download_playlist_retry_options. }
  assert (∃ r w1, run_playlist caps download_folder url config w = (Ok r, w1))
    as (r & w1 & Hr).
  { unfold run_playlist.
    destruct (download_playlist caps download_folder url config w); eauto. }
  rewrite Hrun, Hr. destruct r; apply IH.
Qed.

End RetryOptions.

(** X23.  Two options change nothing.  [max_retries] is read nowhere: no
    download is ever tried again.  [continue_on_playlist_error] is read only
    where the batch handles an exception of [download_playlist], which
    catches its own: a batch gives the same summary and leaves the same
    world whatever these two options are set to. *)
Theorem X23_retry_options_change_nothing (caps : Capabilities)
  (download_folder : Path) (retries : Z) (go_on : bool) (config : Config)
  (urls : list pystr) (w : World caps) :
  download_multiple_playlists caps download_folder urls
    (with_retry_options retries go_on config) w
  = download_multiple_playlists caps download_folder urls config w ∧
  ∀ url, download_playlist caps download_folder url
           (with_retry_options retries go_on config) w
         = download_playlist caps download_folder url config w.
Proof.
  split; [|intros url; apply download_playlist_retry_options].
  unfold download_multiple_playlists, download_multiple_playlists_with.
  by rewrite batch_loop_retry_options.
Qed.

(** X24.  Ordering loses nothing: whatever string is given as sort order the
    sorted list is a rearrangement of the discovered one; a string that is
    neither [upload] nor [reverse] (a misspelt option, say) leaves the list
    as it is; and ordering twice by the same order gives back the discovered
    order. *)
Theorem X24_ordering_keeps_the_videos (order : pystr)
  (videos : list VideoInfo.t) :
  sort_videos order videos ≡ₚ videos ∧
  (order ≠ py "upload" → order ≠ py "reverse" →
   sort_videos order videos = videos) ∧
  sort_videos order (sort_videos order videos) = videos.
Proof.
  unfold sort_videos. split_and!.
  - repeat case_bool_decide; by rewrite ?reverse_Permutation.
  - intros H1 H2. by rewrite !bool_decide_eq_false_2.
  - repeat case_bool_decide; by rewrite ?reverse_involutive.
Qed.

Lemma X24_ordering_keeps_the_videos_witness :
  py "Upload" ≠ py "upload" ∧ py "Upload" ≠ py "reverse" ∧
  sort_videos (py "Upload") Ex.five_videos = Ex.five_videos.
Proof.
  assert (py "Upload" ≠ py "upload") as H1 by (vm_compute; discriminate).
  assert (py "Upload" ≠ py "reverse") as H2 by (vm_compute; discriminate).
  split; [exact H1|]. split; [exact H2|].
  exact (proj1 (proj2 (X24_ordering_keeps_the_videos (py "Upload")
                         Ex.five_videos)) H1 H2).
Defined.
